(** * Mercor referral network: graph store, reachability, ranking,
      growth simulation and bonus optimisation.

    A shallow embedding of [referral_network.py] and [simulation.py].
    Python dictionaries and sets become stdpp's [gmap] and [gset]; the
    [defaultdict] that backs the reverse index keeps its behaviour of
    creating a key on every subscript read; [while] loops become the
    [iterate] combinator below; Python floats are reached through the
    [Arith] interface, instantiated with the kernel's binary64 numbers.

    The definitions come first, the facts about them after. *)

From stdpp Require Import gmap strings list fin_maps sorting relations.
From Stdlib Require Import ZArith QArith Floats Lia.
Close Scope Q_scope.


(** * Results, loops, sorting and slicing *)

(** The exceptions of the source: one constructor per [ValueError]
    message, and [KeyError]. *)
Inductive error :=
  | InvalidInput                (* "Referrer and candidate must be non-empty strings" *)
  | SelfReferral                (* "Self-referrals are not allowed" *)
  | DuplicateReferrer           (* "Candidate ... already has a referrer" *)
  | CycleDetected               (* "Adding this referral would create a cycle in the network" *)
  | InvalidProbability          (* "Probability p must be between 0.0 and 1.0" *)
  | InvalidDuration             (* "Days must be non-negative" *)
  | InvalidTolerance            (* "Tolerance eps must be positive" *)
  | InvalidProbabilityFunction  (* "adoption_prob ... returned invalid probability" *)
  | KeyError.                   (* a dictionary subscripted at a missing key *)

Inductive result (A : Type) :=
  | Ok (a : A)
  | Raise (e : error).
Arguments Ok {A} a.
Arguments Raise {A} e.

Definition is_raise {A} (r : result A) : Prop :=
  match r with Raise _ => True | Ok _ => False end.

(** [iterate body fuel s] runs a [while] loop whose body either continues
    with a new state or leaves the loop with a result.  [None] means the
    fuel ran out, never a value of the program. *)
Section iterate.
Context {St R : Type} (body : St → St + R).

Fixpoint iterate (fuel : nat) (s : St) : option R :=
  match fuel with
  | O => None
  | S fuel =>
      match body s with
      | inl s' => iterate fuel s'
      | inr r => Some r
      end
  end.
End iterate.

(** A [for] loop whose body may raise. *)
Fixpoint for_each {A St : Type} (l : list A) (body : St → A → result St) (st : St)
    : result St :=
  match l with
  | [] => Ok st
  | x :: l =>
      match body st x with
      | Ok st => for_each l body st
      | Raise e => Raise e
      end
  end.

(** [enumerate(l)] *)
Definition enumerate {A} (l : list A) : list (nat * A) := imap pair l.

(** [l.sort(key=..., reverse=True)] and [sorted(l, key=..., reverse=True)]:
    descending by key and stable, so equal keys keep their order. *)
Fixpoint insert_desc {A} (key : A → nat) (x : A) (l : list A) : list A :=
  match l with
  | [] => [x]
  | y :: l' => if decide (key y ≤ key x) then x :: l else y :: insert_desc key x l'
  end.

Definition sort_desc {A} (key : A → nat) (l : list A) : list A :=
  foldr (insert_desc key) [] l.

(** The slice [l[:k]]: a negative [k] counts from the end. *)
Definition slice_to {A} (k : Z) (l : list A) : list A :=
  if decide (0 ≤ k)%Z then take (Z.to_nat k) l
  else take (length l - Z.to_nat (- k)) l.

(** * The referral graph ([referral_network.py]) *)

(** [referrals] is the primary index, candidate to referrer;
    [reverse_referrals] is the [defaultdict(set)], referrer to candidates;
    [users] is the set of every identifier of an accepted edge. *)
Record Network := {
  referrals : gmap string string;
  reverse_referrals : gmap string (gset string);
  users : gset string
}.

(** [ReferralNetwork.__init__] *)
Definition empty_network : Network :=
  {| referrals := ∅; reverse_referrals := ∅; users := ∅ |}.

Definition set_reverse (rev : gmap string (gset string)) (s : Network) : Network :=
  {| referrals := referrals s; reverse_referrals := rev; users := users s |}.

(** Subscripting a [defaultdict(set)]: a missing key is created with the
    empty set before its value is returned, so a read changes the store. *)
Definition dd_get (rev : gmap string (gset string)) (k : string)
    : gset string * gmap string (gset string) :=
  match rev !! k with
  | Some cs => (cs, rev)
  | None => (∅, <[k := ∅]> rev)
  end.

(** Subscripting a plain [dict]. *)
Definition find {V} (d : gmap string V) (k : string) : result V :=
  match d !! k with
  | Some v => Ok v
  | None => Raise KeyError
  end.

(** What a read of key [k] returns, whether or not the key exists. *)
Definition children (rev : gmap string (gset string)) (k : string) : gset string :=
  rev !!! k.

(** Number of (referrer, candidate) pairs whose referrer is in [U] and
    not yet in [visited]: the pushes a traversal can still make. *)
Definition pending (ch : string → gset string) (U visited : gset string) : nat :=
  sum_list_with (λ k, size (ch k)) (elements (U ∖ visited)).

Definition edge_count (rev : gmap string (gset string)) : nat :=
  pending (children rev) (dom rev) ∅.

(** Every user that is a candidate of some referrer. *)
Definition targets (rev : gmap string (gset string)) : gset string :=
  ⋃ (snd <$> map_to_list rev).

Section graph.

(** The order in which Python iterates over a set is not specified:
    [iter] is any enumeration of the elements. *)
Variable iter : gset string → list string.

(** ** [_would_create_cycle] *)

(** Loop state: the reverse index, [visited], and [stack] with the top
    of the Python list (its last element) at the head. *)
Definition cycle_state : Type :=
  gmap string (gset string) * gset string * list string.

Definition cycle_body (referrer : string) (st : cycle_state)
    : cycle_state + (bool * gmap string (gset string)) :=
  let '(rev, visited, stack) := st in
  match stack with
  | [] => inr (false, rev)
  | current :: stack =>
      if decide (current = referrer) then inr (true, rev)
      else if decide (current ∈ visited) then inl (rev, visited, stack)
      else
        let visited := visited ∪ {[current]} in
        let '(cs, rev) := dd_get rev current in
        inl (rev, visited,
             foldl (λ stack next_candidate,
                      if decide (next_candidate ∈ visited) then stack
                      else next_candidate :: stack)
                   stack (iter cs))
  end.

Definition _would_create_cycle (referrer candidate : string) (s : Network)
    : option (bool * Network) :=
  '(b, rev) ← iterate (cycle_body referrer) (2 + edge_count (reverse_referrals s))
                (reverse_referrals s, ∅, [candidate]);
  Some (b, set_reverse rev s).

(** ** [add_referral] *)

Definition add_referral (referrer candidate : string) (s : Network)
    : option (result bool * Network) :=
  if decide (referrer = "" ∨ candidate = "") then Some (Raise InvalidInput, s)
  else if decide (referrer = candidate) then Some (Raise SelfReferral, s)
  else if decide (candidate ∈ dom (referrals s)) then Some (Raise DuplicateReferrer, s)
  else
    '(cyclic, s) ← _would_create_cycle referrer candidate s;
    if (cyclic : bool) then Some (Raise CycleDetected, s)
    else
      let '(cs, rev) := dd_get (reverse_referrals s) referrer in
      Some (Ok true,
            {| referrals := <[candidate := referrer]> (referrals s);
               reverse_referrals := <[referrer := cs ∪ {[candidate]}]> rev;
               users := users s ∪ {[referrer]} ∪ {[candidate]} |}).

(** A sequence of [add_referral] calls, each on the store the previous
    one left; a caller that catches the exception carries on. *)
Fixpoint run (calls : list (string * string)) (s : Network) : option Network :=
  match calls with
  | [] => Some s
  | (referrer, candidate) :: calls =>
      '(_, s) ← add_referral referrer candidate s; run calls s
  end.

(** ** [get_total_referral_count] *)

(** Loop state: the reverse index, [visited], [queue] (head = left end
    of the deque) and [count]. *)
Definition count_state : Type :=
  gmap string (gset string) * gset string * list string * nat.

Definition count_body (st : count_state)
    : count_state + (nat * gmap string (gset string)) :=
  let '(rev, visited, queue, count) := st in
  match queue with
  | [] => inr (count, rev)
  | current :: queue =>
      if decide (current ∈ visited) then inl (rev, visited, queue, count)
      else
        let visited := visited ∪ {[current]} in
        let '(cs, rev) := dd_get rev current in
        let '(queue, count) :=
          foldl (λ '(queue, count) candidate,
                   if decide (candidate ∈ visited) then (queue, count)
                   else (queue ++ [candidate], S count))
                (queue, count) (iter cs) in
        inl (rev, visited, queue, count)
  end.

Definition get_total_referral_count (user : string) (s : Network)
    : option (nat * Network) :=
  if decide (user ∈ users s) then
    '(count, rev) ← iterate count_body (2 + edge_count (reverse_referrals s))
                      (reverse_referrals s, ∅, [user], 0);
    Some (count, set_reverse rev s)
  else Some (0, s).

(** ** [_get_reachable_users] *)

Definition reach_state : Type :=
  gmap string (gset string) * gset string * list string.

Definition reach_body (st : reach_state)
    : reach_state + (gset string * gmap string (gset string)) :=
  let '(rev, reachable, queue) := st in
  match queue with
  | [] => inr (reachable, rev)
  | current :: queue =>
      if decide (current ∈ reachable) then inl (rev, reachable, queue)
      else
        let reachable := reachable ∪ {[current]} in
        let '(cs, rev) := dd_get rev current in
        inl (rev, reachable,
             foldl (λ queue candidate,
                      if decide (candidate ∈ reachable) then queue
                      else queue ++ [candidate])
                   queue (iter cs))
  end.

Definition _get_reachable_users (user : string) (s : Network)
    : option (gset string * Network) :=
  if decide (user ∈ users s) then
    '(reachable, rev) ← iterate reach_body (2 + edge_count (reverse_referrals s))
                          (reverse_referrals s, ∅, [user]);
    Some (reachable ∖ {[user]}, set_reverse rev s)
  else Some (∅, s).

(** ** [get_top_referrers] *)

(** The [for user in self.users] loop; every call of
    [get_total_referral_count] may leave new keys in the reverse index. *)
Fixpoint collect_counts (us : list string) (referrer_counts : list (string * nat))
    (s : Network) : option (list (string * nat) * Network) :=
  match us with
  | [] => Some (referrer_counts, s)
  | user :: us =>
      '(total_count, s) ← get_total_referral_count user s;
      collect_counts us
        (if decide (0 < total_count) then referrer_counts ++ [(user, total_count)]
         else referrer_counts) s
  end.

Definition get_top_referrers (k : Z) (s : Network)
    : option (list (string * nat) * Network) :=
  '(referrer_counts, s) ← collect_counts (iter (users s)) [] s;
  Some (slice_to k (sort_desc snd referrer_counts), s).

(** ** [_compute_shortest_paths] *)

Definition paths_state : Type :=
  gmap string (gset string) * gmap string nat * list string.

Definition paths_body (st : paths_state)
    : paths_state + (result (gmap string nat) * gmap string (gset string)) :=
  let '(rev, distances, queue) := st in
  match queue with
  | [] => inr (Ok distances, rev)
  | current :: queue =>
      match distances !! current with
      | None => inr (Raise KeyError, rev)
      | Some current_distance =>
          let '(cs, rev) := dd_get rev current in
          let '(distances, queue) :=
            foldl (λ '(distances, queue) candidate,
                     if decide (candidate ∈ dom distances) then (distances, queue)
                     else (<[candidate := current_distance + 1]> distances,
                           queue ++ [candidate]))
                  (distances, queue) (iter cs) in
          inl (rev, distances, queue)
      end
  end.

Definition _compute_shortest_paths (start : string) (s : Network)
    : option (result (gmap string nat) * Network) :=
  '(r, rev) ← iterate paths_body
                (2 * size ({[start]} ∪ targets (reverse_referrals s)) + 2)
                (reverse_referrals s, {[start := 0]}, [start]);
  Some (r, set_reverse rev s).

(** ** [_is_on_shortest_path] *)

Definition _is_on_shortest_path (start end_ target : string)
    (distances_from_start distances_from_target : gmap string nat) : bool :=
  if decide (start = end_ ∨ start = target ∨ end_ = target) then false
  else if decide (end_ ∉ dom distances_from_start) then false
  else if decide (target ∉ dom distances_from_start) then false
  else if decide (end_ ∉ dom distances_from_target) then false
  else
    match distances_from_start !! target, distances_from_target !! end_,
          distances_from_start !! end_ with
    | Some dist_start_to_target, Some dist_target_to_end, Some dist_start_to_end =>
        bool_decide (dist_start_to_target + dist_target_to_end = dist_start_to_end)
    | _, _, _ => false
    end.

(** ** [get_flow_centrality] *)

(** The loop that fills [all_distances]. *)
Fixpoint all_pairs_distances (user_list : list string)
    (all_distances : gmap string (gmap string nat)) (s : Network)
    : option (result (gmap string (gmap string nat)) * Network) :=
  match user_list with
  | [] => Some (Ok all_distances, s)
  | user :: user_list =>
      '(r, s) ← _compute_shortest_paths user s;
      match r with
      | Raise e => Some (Raise e, s)
      | Ok distances =>
          all_pairs_distances user_list (<[user := distances]> all_distances) s
      end
  end.

(** The body of the two outer loops, for one pair [(user1, user2)] with
    [i ≠ j]; [us] is the iteration over [self.users]. *)
Definition score_pair (us : list string) (all_distances : gmap string (gmap string nat))
    (user1 user2 : string) (centrality_scores : gmap string nat)
    : result (gmap string nat) :=
  match find all_distances user1 with
  | Raise e => Raise e
  | Ok d1 =>
      if decide (user2 ∈ dom d1) then
        for_each us
          (λ centrality_scores user3,
             if decide (user3 = user1 ∨ user3 = user2) then Ok centrality_scores
             else
               match find all_distances user1, find all_distances user3 with
               | Ok d1, Ok d3 =>
                   if _is_on_shortest_path user1 user2 user3 d1 d3 then
                     match find centrality_scores user3 with
                     | Ok c => Ok (<[user3 := c + 1]> centrality_scores)
                     | Raise e => Raise e
                     end
                   else Ok centrality_scores
               | Raise e, _ | _, Raise e => Raise e
               end)
          centrality_scores
      else Ok centrality_scores
  end.

Definition score_all (us : list string) (all_distances : gmap string (gmap string nat))
    (centrality_scores : gmap string nat) : result (gmap string nat) :=
  for_each (enumerate us)
    (λ centrality_scores '(i, user1),
       for_each (enumerate us)
         (λ centrality_scores '(j, user2),
            if decide (i = j) then Ok centrality_scores
            else score_pair us all_distances user1 user2 centrality_scores)
         centrality_scores)
    centrality_scores.

(** [centrality_scores.items()]: the dictionary was filled in the order
    [order], which it keeps. *)
Definition items (order : list string) (d : gmap string nat) : list (string * nat) :=
  omap (λ k, pair k <$> d !! k) order.

Definition get_flow_centrality (s : Network)
    : option (result (list (string * nat)) * Network) :=
  if decide (size (users s) < 3) then Some (Ok [], s)
  else
    let centrality_scores : gmap string nat :=
      list_to_map ((λ user, (user, 0)) <$> iter (users s)) in
    let user_list := iter (users s) in
    '(r, s') ← all_pairs_distances user_list ∅ s;
    match r with
    | Raise e => Some (Raise e, s')
    | Ok all_distances =>
        match score_all user_list all_distances centrality_scores with
        | Raise e => Some (Raise e, s')
        | Ok centrality_scores =>
            Some (Ok (sort_desc snd (items user_list centrality_scores)), s')
        end
    end.

(** ** Quantities the statements speak of *)

(** The total reach of a user: what [get_total_referral_count] returns. *)
Definition total_reach (s : Network) (user : string) : nat :=
  match get_total_referral_count user s with
  | Some (count, _) => count
  | None => 0
  end.

(** The users of positive total reach with their reach, in the order of
    iteration over [self.users]. *)
Definition positive_counts (s : Network) : list (string * nat) :=
  omap (λ user, if decide (0 < total_reach s user) then Some (user, total_reach s user)
                else None)
       (iter (users s)).

(** The distance table of a user: what [_compute_shortest_paths] returns. *)
Definition distances_from (s : Network) (start : string) : gmap string nat :=
  match _compute_shortest_paths start s with
  | Some (Ok distances, _) => distances
  | _ => ∅
  end.

(** [on_shortest_path s v (a, b)]: [a], [b] and [v] are three different
    users, [b] and [v] are reachable from [a] (they are keys of the
    distance table of [a]), [b] is reachable from [v], and
    [d(a,v) + d(v,b) = d(a,b)]. *)
Definition on_shortest_path (s : Network) (v : string) (ab : string * string) : Prop :=
  ab.1 ≠ ab.2 ∧ v ≠ ab.1 ∧ v ≠ ab.2
  ∧ match distances_from s ab.1 !! ab.2, distances_from s ab.1 !! v,
          distances_from s v !! ab.2 with
    | Some d_ab, Some d_av, Some d_vb => d_av + d_vb = d_ab
    | _, _, _ => False
    end.

Global Instance on_shortest_path_dec s v ab : Decision (on_shortest_path s v ab).
Proof.
  unfold on_shortest_path.
  destruct (distances_from s ab.1 !! ab.2), (distances_from s ab.1 !! v),
    (distances_from s v !! ab.2); apply _.
Defined.

(** The number of ordered pairs of users that have [v] on a shortest path. *)
Definition flow_score (s : Network) (v : string) : nat :=
  size (filter (on_shortest_path s v) (cprod (users s) (users s))).

End graph.

(** ** The invariant of the store *)

(** [edge s c r]: the primary index maps candidate [c] to referrer [r]. *)
Definition edge (s : Network) (c r : string) : Prop := referrals s !! c = Some r.

(** [child rev x y]: a read of the reverse index at [x] contains [y]. *)
Definition child (rev : gmap string (gset string)) (x y : string) : Prop :=
  y ∈ children rev x.

(** The two indices hold the same edges, every candidate has an entry in
    the [defaultdict] (left by the cycle check of its insertion), and no
    chain of referrer links returns to its start. *)
Record store_inv (s : Network) : Prop := {
  inv_index : ∀ c r, edge s c r ↔ child (reverse_referrals s) r c;
  inv_keys : dom (referrals s) ⊆ dom (reverse_referrals s);
  inv_acyclic : ∀ x, ¬ tc (edge s) x x
}.

(** A forest of in-trees: no self-referral, at most one referrer per
    candidate, no directed cycle. *)
Definition forest (s : Network) : Prop :=
  (∀ c, ¬ edge s c c)
  ∧ (∀ c r1 r2, child (reverse_referrals s) r1 c → child (reverse_referrals s) r2 c → r1 = r2)
  ∧ (∀ x, ¬ tc (edge s) x x).

(** Two stores that differ only by empty entries of the [defaultdict]. *)
Definition store_equiv (s s' : Network) : Prop :=
  referrals s = referrals s' ∧ users s = users s'
  ∧ ∀ k, children (reverse_referrals s) k = children (reverse_referrals s') k.

(** [distance s x y n]: [y] is reachable from [x] along referrer-to-candidate
    links, and [n] is the least number of links of such a path. *)
Definition distance (s : Network) (x y : string) (n : nat) : Prop :=
  nsteps (child (reverse_referrals s)) n x y
  ∧ ∀ m, nsteps (child (reverse_referrals s)) m x y → n ≤ m.

(** [lies_between s v (a, b)]: [a], [b] and [v] are three different users,
    [b] and [v] are reachable from [a], [b] is reachable from [v], and
    [d(a,v) + d(v,b) = d(a,b)]. *)
Definition lies_between (s : Network) (v : string) (ab : string * string) : Prop :=
  ab.1 ≠ ab.2 ∧ v ≠ ab.1 ∧ v ≠ ab.2
  ∧ ∃ d_ab d_av d_vb,
      distance s ab.1 ab.2 d_ab ∧ distance s ab.1 v d_av ∧ distance s v ab.2 d_vb
      ∧ d_av + d_vb = d_ab.

(** [n] is the number of ordered pairs of users that [v] lies between. *)
Definition counts_pairs (s : Network) (v : string) (n : nat) : Prop :=
  ∃ pairs : gset (string * string),
    (∀ ab, ab ∈ pairs ↔ ab.1 ∈ users s ∧ ab.2 ∈ users s ∧ lies_between s v ab)
    ∧ n = size pairs.

(** No referrer of the store has more than one candidate: the order of
    iteration over a set of candidates then plays no part. *)
Definition small_fanout (rev : gmap string (gset string)) : Prop :=
  ∀ k, size (children rev k) ≤ 1.

(** The store after A referred B and B referred C. *)
Definition chain_ABC : Network :=
  default empty_network (run elements [("A", "B"); ("B", "C")] empty_network).

(** ** Invariants of the loops *)

(** The invariant of the counting traversal in a forest: the queue has
    no repetition and is disjoint from [visited], [count] is the number
    of users seen so far apart from [user], and every queued user was
    queued by its only referrer. *)
Definition count_inv (rev : gmap string (gset string)) (user : string) (st : count_state)
    : Prop :=
  let '(rv, V, queue, count) := st in
  (∀ k, children rv k = children rev k)
  ∧ NoDup queue
  ∧ (∀ x, x ∈ queue → x ∉ V)
  ∧ count = size ((V ∪ list_to_set queue) ∖ {[user]})
  ∧ ((V = ∅ ∧ queue = [user])
     ∨ (user ∈ V ∧ ∀ x, x ∈ queue → ∃ r, r ∈ V ∧ child rev r x)).

(** [adds U f w]: on a dictionary that has the keys [U], [f] returns
    without raising, keeps the keys and adds [w v] to the entry of [v]. *)
Definition adds (U : gset string) (f : gmap string nat → result (gmap string nat))
    (w : string → nat) : Prop :=
  ∀ sc, U ⊆ dom sc →
    ∃ sc', f sc = Ok sc' ∧ dom sc' = dom sc ∧ ∀ v, sc' !!! v = sc !!! v + w v.

(** The store after alice referred bob and bob referred charlie. *)
Definition chain_store : Network :=
  default empty_network (run elements [("alice", "bob"); ("bob", "charlie")] empty_network).

(** ** Insertion-ordered dictionaries with string keys *)

(** A Python [dict] whose order of iteration matters: the list of its
    items in insertion order, without repeated keys. *)
Fixpoint odict_get {V} (k : string) (d : list (string * V)) : option V :=
  match d with
  | [] => None
  | (k', v) :: d => if decide (k = k') then Some v else odict_get k d
  end.

(** [d[k] = v]: an existing key keeps its place, a new one goes last. *)
Fixpoint odict_set {V} (k : string) (v : V) (d : list (string * V)) : list (string * V) :=
  match d with
  | [] => [(k, v)]
  | (k', v') :: d => if decide (k = k') then (k, v) :: d else (k', v') :: odict_set k v d
  end.

(** [del d[k]] *)
Fixpoint odict_del {V} (k : string) (d : list (string * V)) : list (string * V) :=
  match d with
  | [] => []
  | (k', v') :: d => if decide (k = k') then d else (k', v') :: odict_del k d
  end.

Section graph_queries.
Variable iter : gset string → list string.

(** ** [get_direct_referrals] *)

(** [list(self.reverse_referrals.get(user, set()))]: [get] creates no key. *)
Definition get_direct_referrals (user : string) (s : Network) : list string :=
  iter (default ∅ (reverse_referrals s !! user)).

(** ** [get_network_stats] *)

(** The list comprehension [[u for u in self.users if
    self.get_total_referral_count(u) > 0]]. *)
Fixpoint active_users (us : list string) (acc : list string) (s : Network)
    : option (list string * Network) :=
  match us with
  | [] => Some (acc, s)
  | u :: us =>
      '(count, s) ← get_total_referral_count iter u s;
      active_users us (if decide (0 < count) then acc ++ [u] else acc) s
  end.

Definition get_network_stats (s : Network) : option (gmap string nat * Network) :=
  let total_users := size (users s) in
  let total_referrals := size (referrals s) in
  '(active, s') ← active_users (iter (users s)) [] s;
  let active_referrers := length active in
  Some (<["total_users" := total_users]>
          (<["total_referrals" := total_referrals]>
             (<["active_referrers" := active_referrers]> ∅)), s').

(** ** [get_unique_reach_expansion] *)

(** The loop that fills [user_reaches]. *)
Fixpoint collect_reaches (us : list string) (user_reaches : list (string * gset string))
    (s : Network) : option (list (string * gset string) * Network) :=
  match us with
  | [] => Some (user_reaches, s)
  | user :: us =>
      '(reachable, s) ← _get_reachable_users iter user s;
      collect_reaches us
        (if decide (reachable ≠ ∅) then odict_set user reachable user_reaches
         else user_reaches) s
  end.

(** The inner [for] loop: the first user, in the order of the dictionary,
    of the largest new coverage. *)
Definition best_coverage (user_reaches : list (string * gset string))
    (remaining_uncovered : gset string) : option string * nat :=
  foldl (λ '(best_user, best_new_coverage) '(user, reachable),
           let new_coverage := size (reachable ∩ remaining_uncovered) in
           if decide (best_new_coverage < new_coverage) then (Some user, new_coverage)
           else (best_user, best_new_coverage))
        (None, 0) user_reaches.

(** Loop state: [user_reaches], [remaining_uncovered], [selected_users]. *)
Definition expansion_state : Type :=
  list (string * gset string) * gset string * list (string * nat).

Definition expansion_body (st : expansion_state)
    : expansion_state + result (list (string * nat)) :=
  let '(user_reaches, remaining_uncovered, selected_users) := st in
  if decide (remaining_uncovered = ∅ ∨ user_reaches = []) then inr (Ok selected_users)
  else
    match best_coverage user_reaches remaining_uncovered with
    | (None, _) => inr (Ok selected_users)
    | (Some best_user, best_new_coverage) =>
        if decide (best_new_coverage = 0) then inr (Ok selected_users)
        else
          match odict_get best_user user_reaches with
          | None => inr (Raise KeyError)
          | Some reachable =>
              inl (odict_del best_user user_reaches,
                   remaining_uncovered ∖ reachable,
                   selected_users ++ [(best_user, best_new_coverage)])
          end
    end.

Definition get_unique_reach_expansion (s : Network)
    : option (result (list (string * nat)) * Network) :=
  if decide (users s = ∅) then Some (Ok [], s)
  else
    '(user_reaches, s') ← collect_reaches (iter (users s)) [] s;
    if decide (user_reaches = []) then Some (Ok [], s')
    else
      let remaining_uncovered := ⋃ (snd <$> user_reaches) in
      r ← iterate expansion_body (S (length user_reaches))
            (user_reaches, remaining_uncovered, []);
      match r with
      | Raise e => Some (Raise e, s')
      | Ok selected_users => Some (Ok (sort_desc snd selected_users), s')
      end.

(** The reachable set of a user: what [_get_reachable_users] returns. *)
Definition reach_set (s : Network) (user : string) : gset string :=
  match _get_reachable_users iter user s with
  | Some (reachable, _) => reachable
  | None => ∅
  end.

End graph_queries.

(** ** Further invariants of the store *)

(** The users are the identifiers of the accepted edges. *)
Definition users_closed (s : Network) : Prop :=
  ∀ u, u ∈ users s ↔ u ∈ dom (referrals s) ∨ ∃ c, edge s c u.

(** The users reachable from [user] along referrer-to-candidate links,
    [user] apart. *)
Definition descendant (s : Network) (user x : string) : Prop :=
  x ≠ user ∧ rtc (child (reverse_referrals s)) user x.

(** Every user has an ancestor without a referrer: the root of its tree. *)
Definition rooted (s : Network) : Prop :=
  ∀ u, u ∈ users s → ∃ r, rtc (edge s) u r ∧ r ∉ dom (referrals s).

(** The invariant of the greedy loop over the dictionary [ur0]: the
    entries left are entries of [ur0] with distinct keys, they still
    cover what is uncovered, the selected numbers add up to what has been
    covered, and no user is selected twice. *)
Definition expansion_inv (ur0 : list (string * gset string)) (st : expansion_state) : Prop :=
  let '(ur, rem, sel) := st in
  NoDup ur.*1
  ∧ (∀ kv, kv ∈ ur → kv ∈ ur0)
  ∧ rem ⊆ ⋃ ur.*2
  ∧ sum_list_with snd sel + size rem = size (⋃ ur0.*2)
  ∧ NoDup sel.*1
  ∧ (∀ k, k ∈ sel.*1 → k ∉ ur.*1)
  ∧ (∀ k n, (k, n) ∈ sel → 0 < n ∧ ∃ r, (k, r) ∈ ur0 ∧ n ≤ size r).

(** What the greedy loop returns. *)
Definition expansion_post (ur0 : list (string * gset string)) (sel : list (string * nat))
    : Prop :=
  sum_list_with snd sel = size (⋃ ur0.*2)
  ∧ NoDup sel.*1
  ∧ (∀ k n, (k, n) ∈ sel → 0 < n ∧ ∃ r, (k, r) ∈ ur0 ∧ n ≤ size r).

(** The dictionary [user_reaches] of a store: every user that reaches
    somebody, with its reachable set, in the order of [self.users]. *)
Definition reaches_of (iter : gset string → list string) (s : Network)
    : list (string * gset string) :=
  omap (λ u, if decide (reach_set iter s u ≠ ∅) then Some (u, reach_set iter s u) else None)
       (iter (users s)).

(** In a forest the greedy loop selects roots only, each with all it
    reaches: the entries left are those of the users not selected, and
    what is uncovered is what no selected user reaches. *)
Definition expansion_forest_inv (iter : gset string → list string) (s : Network)
    (st : expansion_state) : Prop :=
  let '(ur, rem, sel) := st in
  (∀ k n, (k, n) ∈ sel → (k ∉ dom (referrals s)) ∧ n = size (reach_set iter s k))
  ∧ (∀ kv, kv ∈ ur ↔ kv ∈ reaches_of iter s ∧ kv.1 ∉ sel.*1)
  ∧ (∀ x, x ∈ rem ↔ x ∈ ⋃ (reaches_of iter s).*2 ∧ ∀ k, k ∈ sel.*1 → x ∉ reach_set iter s k).

(** A store with two trees: alice referred bob and charlie, bob referred
    david, and eve referred frank. *)
Definition two_trees : Network :=
  default empty_network
    (run elements [("alice", "bob"); ("alice", "charlie"); ("bob", "david"); ("eve", "frank")]
       empty_network).

(** * Growth simulation and bonus optimisation ([simulation.py]) *)

(** ** Numbers *)

(** The operations the simulation performs on Python floats.  [ge_int],
    [lt_int] and [eq_int] compare a float with a Python int, which Python
    does exactly (the int is not rounded to a float first). *)
Class Arith (F : Type) := {
  zero : F;                 (* 0.0 *)
  one : F;                  (* 1.0 *)
  add : F → F → F;          (* x + y *)
  leb : F → F → bool;       (* x <= y *)
  ltb : F → F → bool;       (* x < y *)
  ge_int : F → Z → bool;    (* x >= n *)
  lt_int : F → Z → bool;    (* x < n *)
  eq_int : F → Z → bool     (* x == n *)
}.

(** What the proofs about arbitrary probabilities use of the order and
    of addition.  IEEE 754 binary64 with round-to-nearest satisfies each
    law (a comparison with NaN is false, so the laws hold vacuously
    there; addition of non-negative numbers rounds monotonically): the
    instance [float_laws] is proved below. *)
Class ArithLaws (F : Type) `{Arith F} := {
  leb_zero : leb zero zero = true;
  leb_refl_nonneg : ∀ x, leb zero x = true → leb x x = true;
  leb_trans : ∀ x y z, leb x y = true → leb y z = true → leb x z = true;
  leb_add : ∀ x y, leb zero x = true → leb zero y = true → leb x (add x y) = true;
  ge_int_mono : ∀ x y n, leb x y = true → ge_int x n = true → ge_int y n = true
}.

(** Exact comparison of a binary64 number with an integer; [None] for NaN. *)
Definition SF_cmp_Z (f : spec_float) (n : Z) : option comparison :=
  match f with
  | S754_nan => None
  | S754_infinity s => Some (if s then Lt else Gt)
  | S754_zero _ => Some (0 ?= n)%Z
  | S754_finite s m e =>
      let v := if s then Z.neg m else Z.pos m in
      Some (if decide (0 ≤ e)%Z then (v * 2 ^ e ?= n)%Z else (v ?= n * 2 ^ (- e))%Z)
  end.

(** The value of a zero or of a finite binary64 number, times 2^1074 (the
    least exponent of the format is -1074, so this is an integer). *)
Definition SF_scaled (f : spec_float) : Z :=
  match f with
  | S754_finite s m e => ((if s then Z.neg m else Z.pos m) * 2 ^ (e + 1074))%Z
  | _ => 0%Z
  end.

(** The zeros and the finite numbers. *)
Definition SF_number (f : spec_float) : Prop :=
  match f with S754_zero _ | S754_finite _ _ _ => True | _ => False end.

(** An integer of magnitude at most 2^53 is a binary64 number. *)
Definition float_of_int (n : Z) : float :=
  if decide (0 ≤ n)%Z then PrimFloat.of_uint63 (Uint63.of_Z n)
  else PrimFloat.opp (PrimFloat.of_uint63 (Uint63.of_Z (- n))).

Definition small_int (n : Z) : Prop := (Z.abs n ≤ 9007199254740992)%Z.   (* 2^53 *)

(** Python's [float]: the kernel's binary64 numbers.  A small int is
    compared after its exact conversion, any other through [SF_cmp_Z]. *)
#[export] Instance float_arith : Arith float := {
  zero := 0%float;
  one := 1%float;
  add := PrimFloat.add;
  leb := PrimFloat.leb;
  ltb := PrimFloat.ltb;
  ge_int x n :=
    if decide (small_int n) then PrimFloat.leb (float_of_int n) x
    else match SF_cmp_Z (Prim2SF x) n with Some (Gt | Eq) => true | _ => false end;
  lt_int x n :=
    if decide (small_int n) then PrimFloat.ltb x (float_of_int n)
    else match SF_cmp_Z (Prim2SF x) n with Some Lt => true | _ => false end;
  eq_int x n :=
    if decide (small_int n) then PrimFloat.eqb x (float_of_int n)
    else match SF_cmp_Z (Prim2SF x) n with Some Eq => true | _ => false end
}.

(** Exact rationals: an arithmetic in which every law is provable. *)
#[export] Instance Q_arith : Arith Q := {
  zero := 0%Q;
  one := 1%Q;
  add x y := Qred (x + y)%Q;
  leb := Qle_bool;
  ltb x y := negb (Qle_bool y x);
  ge_int x n := Qle_bool (inject_Z n) x;
  lt_int x n := negb (Qle_bool (inject_Z n) x);
  eq_int x n := Qeq_bool x (inject_Z n)
}.

(** ** Insertion-ordered dictionaries with integer keys *)

(** [simulate] iterates over the keys of its dictionary, so the order of
    insertion is kept there; [simulate_expected] only subscripts its
    dictionary and is given a [gmap]. *)
Fixpoint dict_get {V} (k : Z) (d : list (Z * V)) : option V :=
  match d with
  | [] => None
  | (k', v) :: d => if decide (k = k') then Some v else dict_get k d
  end.

(** [d[k] = v]: an existing key keeps its place, a new one goes last. *)
Fixpoint dict_set {V} (k : Z) (v : V) (d : list (Z * V)) : list (Z * V) :=
  match d with
  | [] => [(k, v)]
  | (k', v') :: d => if decide (k = k') then (k, v) :: d else (k', v') :: dict_set k v d
  end.

(** [del d[k]] *)
Fixpoint dict_del {V} (k : Z) (d : list (Z * V)) : list (Z * V) :=
  match d with
  | [] => []
  | (k', v') :: d => if decide (k = k') then d else (k', v') :: dict_del k d
  end.

(** The loop that deactivates the referrers that reached capacity. *)
Definition deactivate {V} (referrers_to_deactivate : list Z) (referrer_counts : list (Z * V))
    : list (Z * V) :=
  foldl (λ referrer_counts referrer_id,
           if decide (referrer_id ∈ referrer_counts.*1)
           then dict_del referrer_id referrer_counts else referrer_counts)
        referrer_counts referrers_to_deactivate.

(** The same loop on the dictionary of [simulate_expected]. *)
Definition deactivate_expected {V} (referrers_to_deactivate : list Z)
    (referrer_counts : gmap Z V) : gmap Z V :=
  foldl (λ referrer_counts referrer_id,
           if decide (referrer_id ∈ dom referrer_counts)
           then delete referrer_id referrer_counts else referrer_counts)
        referrer_counts referrers_to_deactivate.

(** [range(n)] *)
Definition range (n : nat) : list Z := Z.of_nat <$> seq 0 n.

(** [NetworkSimulator.__init__] *)
Definition initial_active_referrers : nat := 100.
Definition max_referrals_per_referrer : Z := 10.

Section simulation.
Context {F : Type} `{Arith F}.

Definition valid_probability (p : F) : bool := leb zero p && leb p one.

(** ** [simulate_expected] *)

(** State of the day loop: [referrer_counts], [active_referrers],
    [current_total], [cumulative_referrals]. *)
Definition expected_state : Type := gmap Z F * nat * F * list F.

(** The loop over [range(active_referrers)] on one day; its state is
    [referrer_counts], [daily_referrals], [referrers_to_deactivate]. *)
Definition expected_referrer (p : F) (st : gmap Z F * F * list Z) (referrer_id : Z)
    : gmap Z F * F * list Z :=
  let '(referrer_counts, daily_referrals, referrers_to_deactivate) := st in
  match referrer_counts !! referrer_id with
  | None => st
  | Some count =>
      if ge_int count max_referrals_per_referrer
      then (referrer_counts, daily_referrals, referrers_to_deactivate ++ [referrer_id])
      else
        let expected_today := p in
        let daily_referrals := add daily_referrals expected_today in
        let count := add count expected_today in
        let referrer_counts := <[referrer_id := count]> referrer_counts in
        (referrer_counts, daily_referrals,
         if ge_int count max_referrals_per_referrer
         then referrers_to_deactivate ++ [referrer_id] else referrers_to_deactivate)
  end.

Definition expected_day (p : F) (st : expected_state) : expected_state :=
  let '(referrer_counts, active_referrers, current_total, cumulative_referrals) := st in
  let '(referrer_counts, daily_referrals, referrers_to_deactivate) :=
    foldl (expected_referrer p) (referrer_counts, zero, []) (range active_referrers) in
  let referrer_counts := deactivate_expected referrers_to_deactivate referrer_counts in
  let active_referrers := size referrer_counts in
  let current_total := add current_total daily_referrals in
  (referrer_counts, active_referrers, current_total, cumulative_referrals ++ [current_total]).

Definition expected_init : expected_state :=
  (list_to_map ((λ i, (i, zero)) <$> range initial_active_referrers),
   initial_active_referrers, zero, []).

Definition simulate_expected (p : F) (days : Z) : result (list F) :=
  if negb (valid_probability p) then Raise InvalidProbability
  else if decide (days < 0)%Z then Raise InvalidDuration
  else if decide (days = 0)%Z then Ok []
  else Ok (Nat.iter (Z.to_nat days) (expected_day p) expected_init).2.

(** ** [simulate] *)

(** [random_generator.random()] returns [draws pos] and moves on. *)
Definition simulate_state : Type := list (Z * Z) * nat * Z * list Z * nat.

(** The loop over [list(referrer_counts.keys())] on one day; its state is
    [referrer_counts], [daily_referrals], [referrers_to_deactivate] and
    the position in the stream of draws. *)
Definition simulate_referrer (draws : nat → F) (p : F)
    (st : list (Z * Z) * Z * list Z * nat) (referrer_id : Z)
    : result (list (Z * Z) * Z * list Z * nat) :=
  let '(referrer_counts, daily_referrals, referrers_to_deactivate, pos) := st in
  match dict_get referrer_id referrer_counts with
  | None => Raise KeyError
  | Some count =>
      if decide (max_referrals_per_referrer ≤ count)%Z
      then Ok (referrer_counts, daily_referrals, referrers_to_deactivate ++ [referrer_id], pos)
      else
        if ltb (draws pos) p then
          let daily_referrals := (daily_referrals + 1)%Z in
          let count := (count + 1)%Z in
          let referrer_counts := dict_set referrer_id count referrer_counts in
          Ok (referrer_counts, daily_referrals,
              (if decide (max_referrals_per_referrer ≤ count)%Z
               then referrers_to_deactivate ++ [referrer_id] else referrers_to_deactivate),
              S pos)
        else Ok (referrer_counts, daily_referrals, referrers_to_deactivate, S pos)
  end.

Definition simulate_day (draws : nat → F) (p : F) (st : simulate_state) (day : nat)
    : result simulate_state :=
  let '(referrer_counts, active_referrers, current_total, cumulative_referrals, pos) := st in
  match for_each referrer_counts.*1 (simulate_referrer draws p) (referrer_counts, 0%Z, [], pos) with
  | Raise e => Raise e
  | Ok (referrer_counts, daily_referrals, referrers_to_deactivate, pos) =>
      let referrer_counts := deactivate referrers_to_deactivate referrer_counts in
      let active_referrers := length referrer_counts in
      let current_total := (current_total + daily_referrals)%Z in
      Ok (referrer_counts, active_referrers, current_total,
          cumulative_referrals ++ [current_total], pos)
  end.

Definition simulate_init (pos : nat) : simulate_state :=
  ((λ i, (i, 0%Z)) <$> range initial_active_referrers, initial_active_referrers, 0%Z, [], pos).

(** The result and the position the generator ends at. *)
Definition simulate (draws : nat → F) (pos : nat) (p : F) (days : Z)
    : result (list Z * nat) :=
  if negb (valid_probability p) then Raise InvalidProbability
  else if decide (days < 0)%Z then Raise InvalidDuration
  else if decide (days = 0)%Z then Ok ([], pos)
  else
    match for_each (seq 0 (Z.to_nat days)) (simulate_day draws p) (simulate_init pos) with
    | Raise e => Raise e
    | Ok (_, _, _, cumulative_referrals, pos) => Ok (cumulative_referrals, pos)
    end.

(** ** [days_to_target] *)

(** The binary search; its state is [(left, right)]
    ([left_] and [right_] here). *)
Definition days_body (p : F) (target_total : Z) (st : Z * Z) : Z * Z + result Z :=
  let '(left_, right_) := st in
  if decide (left_ < right_)%Z then
    let mid := ((left_ + right_) `div` 2)%Z in
    match simulate_expected p mid with
    | Raise e => inr (Raise e)
    | Ok simulation_result =>
        match last simulation_result with
        | None => inl ((mid + 1)%Z, right_)
        | Some final_total =>
            if ge_int final_total target_total then inl (left_, mid)
            else inl ((mid + 1)%Z, right_)
        end
    end
  else inr (Ok left_).

Definition max_days : Z := 1000.

Definition days_to_target (p : F) (target_total : Z) : option (result (option Z)) :=
  if decide (target_total ≤ 0)%Z then Some (Ok (Some 0%Z))
  else if leb p zero then Some (Ok None)
  else
    r ← iterate (days_body p target_total) (Z.to_nat (max_days + 1)) (0%Z, max_days);
    match r with
    | Raise e => Some (Raise e)
    | Ok left_ =>
        if decide (left_ ≤ max_days)%Z then
          match simulate_expected p left_ with
          | Raise e => Some (Raise e)
          | Ok final_simulation =>
              match last final_simulation with
              | Some final_total =>
                  if ge_int final_total target_total then Some (Ok (Some left_))
                  else Some (Ok None)
              | None => Some (Ok None)
              end
          end
        else Some (Ok None)
    end.

(** ** [min_bonus_for_target] *)

(** [ReferralBonusOptimizer.__init__] *)
Definition min_bonus : Z := 10.
Definition max_bonus : Z := 10000.

(** The binary search over the bonus; its state is [(left, right)]
    ([left_] and [right_] here). *)
Definition bonus_body (days target_hires : Z) (adoption_prob : Z → F) (st : Z * Z)
    : Z * Z + result Z :=
  let '(left_, right_) := st in
  if decide (left_ < right_)%Z then
    let mid := ((left_ + right_) `div` 2)%Z in
    let mid := ((mid `div` 10) * 10)%Z in
    let adjusted_prob := adoption_prob mid in
    if negb (valid_probability adjusted_prob) then inr (Raise InvalidProbabilityFunction)
    else
      match simulate_expected adjusted_prob days with
      | Raise e => inr (Raise e)
      | Ok simulation_result =>
          match last simulation_result with
          | None => inl ((mid + 10)%Z, right_)
          | Some final_hires =>
              if ge_int final_hires target_hires then inl (left_, mid)
              else inl ((mid + 10)%Z, right_)
          end
      end
  else inr (Ok left_).

(** [adoption_prob] is a total function of the bonus: the checks that it
    is callable and takes one argument are those of the type. *)
Definition min_bonus_for_target (days target_hires : Z) (adoption_prob : Z → F) (eps : F)
    : option (result (option Z)) :=
  if decide (days ≤ 0 ∨ target_hires ≤ 0)%Z then Some (Ok None)
  else if leb eps zero then Some (Raise InvalidTolerance)
  else if negb (valid_probability (adoption_prob 0%Z)) then Some (Raise InvalidProbabilityFunction)
  else
    let max_prob := adoption_prob max_bonus in
    if negb (valid_probability max_prob) then Some (Raise InvalidProbabilityFunction)
    else
      match simulate_expected max_prob days with
      | Raise e => Some (Raise e)
      | Ok max_bonus_simulation =>
          if match last max_bonus_simulation with
             | None => true
             | Some final => lt_int final target_hires
             end
          then Some (Ok None)
          else
            r ← iterate (bonus_body days target_hires adoption_prob) (Z.to_nat (max_bonus + 1))
                   (0%Z, max_bonus);
            match r with
            | Raise e => Some (Raise e)
            | Ok left_ =>
                if decide (left_ ≤ max_bonus)%Z then
                  let final_prob := adoption_prob left_ in
                  if negb (valid_probability final_prob)
                  then Some (Raise InvalidProbabilityFunction)
                  else
                    match simulate_expected final_prob days with
                    | Raise e => Some (Raise e)
                    | Ok final_simulation =>
                        match last final_simulation with
                        | Some final_hires =>
                            if ge_int final_hires target_hires then Some (Ok (Some left_))
                            else Some (Ok None)
                        | None => Some (Ok None)
                        end
                    end
                else Some (Ok None)
            end
      end.

End simulation.

(** ** The saturating trajectory *)

(** The cumulative totals when every active referrer gains one referral
    a day: 100, 200, ... up to the capacity 1000, then 1000 for ever. *)
Definition totals (n : nat) : list Z :=
  (λ k, 100 * Z.min (Z.of_nat (S k)) 10)%Z <$> seq 0 n.

(** The dictionary, the number of active referrers and the total of
    [simulate_expected 1.0] after [k ≤ 10] days. *)
Definition saturating_expected (k : nat) : gmap Z float * nat * float :=
  (if decide (k < 10)
   then list_to_map ((λ i, (i, float_of_int (Z.of_nat k))) <$> range initial_active_referrers)
   else ∅,
   if decide (k < 10) then initial_active_referrers else 0,
   float_of_int (100 * Z.of_nat k)).

(** The same for [simulate] when every trial succeeds. *)
Definition saturating_simulate (k : nat) : list (Z * Z) * nat * Z :=
  (if decide (k < 10) then (λ i, (i, Z.of_nat k)) <$> range initial_active_referrers else [],
   if decide (k < 10) then initial_active_referrers else 0,
   (100 * Z.of_nat k)%Z).

(** ** Properties of the returned lists *)

(** A list is non-decreasing: an entry is below every later one. *)
Definition nondecreasing {A} (le : A → A → Prop) (l : list A) : Prop :=
  ∀ i j x y, i ≤ j → l !! i = Some x → l !! j = Some y → le x y.

Section meets.
Context {F : Type} `{Arith F}.

(** The order of the numbers, as a proposition. *)
Definition le (x y : F) : Prop := leb x y = true.

(** "The final value of [simulate_expected p days] meets [target]": the
    call returns a non-empty list whose last entry is at least [target]. *)
Definition meets (p : F) (days target : Z) : Prop :=
  ∃ l x, simulate_expected p days = Ok l ∧ last l = Some x ∧ ge_int x target = true.

End meets.

(** ** Invariants of the loops *)

(** Both ends stay multiples of the increment, in order and in range. *)
Definition bonus_inv (st : Z * Z) : Prop :=
  let '(left_, right_) := st in
  (0 ≤ left_ ≤ right_)%Z ∧ (right_ ≤ max_bonus)%Z
  ∧ (left_ `mod` 10 = 0)%Z ∧ (right_ `mod` 10 = 0)%Z.

(** The invariant of the day loop: the total is non-negative, the list
    is non-decreasing and below the total, and has one entry per day. *)
Definition expected_inv {F : Type} `{Arith F} (n : nat) (st : expected_state) : Prop :=
  le zero st.1.2 ∧ nondecreasing le st.2 ∧ (∀ x, x ∈ st.2 → le x st.1.2) ∧ length st.2 = n.

(** The invariant of the binary search: no number of days below [left]
    meets the target, and [right] does unless it still is the bound. *)
Definition days_inv {F : Type} `{Arith F} (p : F) (target_total : Z) (st : Z * Z) : Prop :=
  (0 ≤ st.1 ≤ st.2)%Z ∧ (st.2 ≤ max_days)%Z
  ∧ (∀ d, (d < st.1)%Z → ¬ meets p d target_total)
  ∧ ((st.2 < max_days)%Z → meets p st.2 target_total).

(** ** Concrete inputs *)

(** A decision procedure for [meets]. *)
Definition meetsb {F : Type} `{Arith F} (p : F) (days target : Z) : bool :=
  match simulate_expected p days with
  | Ok l => match last l with Some x => ge_int x target | None => false end
  | Raise _ => false
  end.

(** An adoption curve: 5% below a bonus of $205, 50% from there on. *)
Definition step_curve (bonus : Z) : float :=
  if decide (bonus < 205)%Z then 0.05%float else 0.5%float.

(** ** The recurrence behind [simulate_expected] *)

Section expected_recurrence.
Context {F : Type} `{Arith F}.

(** The dictionary in which every referrer has the count [c]. *)
Definition uniform_dict (c : F) : gmap Z F :=
  list_to_map ((λ i, (i, c)) <$> range initial_active_referrers).

(** The tally of a day on which every referrer is active: [p] added to
    [0.0] once for each of them. *)
Definition daily_expected (p : F) : F :=
  Nat.iter initial_active_referrers (λ daily_referrals, add daily_referrals p) zero.

(** The totals of [n] more days, from the count [count] that every active
    referrer has ([None] once they have all retired) and the total
    [total]: the referrers gain [p] a day each, all in step, and retire
    together on the day their count reaches the capacity. *)
Fixpoint uniform_days (p : F) (n : nat) (count : option F) (total : F) : list F :=
  match n with
  | O => []
  | S n =>
      match count with
      | Some c =>
          if ge_int c max_referrals_per_referrer then
            let total := add total zero in
            total :: uniform_days p n None total
          else
            let c := add c p in
            let total := add total (daily_expected p) in
            total :: uniform_days p n
                       (if ge_int c max_referrals_per_referrer then None else Some c) total
      | None =>
          let total := add total zero in
          total :: uniform_days p n None total
      end
  end.

End expected_recurrence.

(** ** The capacity left in [simulate] *)

(** The referrals the active referrers of [referrer_counts] can still
    make. *)
Definition room (referrer_counts : list (Z * Z)) : Z :=
  foldr (λ kv acc, (max_referrals_per_referrer - kv.2 + acc)%Z) 0%Z referrer_counts.

(** The invariant of the day loop of [simulate]: the active referrers are
    at most 100, with distinct keys and counts below the capacity; the
    total and the room left add up to the capacity of the network; the
    totals so far are within bounds. *)
Definition simulate_inv (pos0 : nat) (st : simulate_state) : Prop :=
  let '(referrer_counts, active_referrers, current_total, cumulative_referrals, pos) := st in
  NoDup referrer_counts.*1
  ∧ Forall (λ kv, 0 ≤ kv.2 < max_referrals_per_referrer)%Z referrer_counts
  ∧ length referrer_counts ≤ initial_active_referrers
  ∧ (current_total + room referrer_counts = 1000)%Z
  ∧ (current_total ≤ 100 * Z.of_nat (length cumulative_referrals))%Z
  ∧ last cumulative_referrals = (if decide (cumulative_referrals = []) then None
                                 else Some current_total)
  ∧ (∀ i x, cumulative_referrals !! i = Some x →
       (0 ≤ x ≤ 1000)%Z ∧ (x ≤ 100 * Z.of_nat (S i))%Z)
  ∧ (∀ i x y, cumulative_referrals !! i = Some x → cumulative_referrals !! S i = Some y →
       (x ≤ y ≤ x + 100)%Z)
  ∧ pos0 ≤ pos ≤ pos0 + 100 * length cumulative_referrals.

(** ** [analyze_bonus_effectiveness] *)

(** The values of the dictionary it returns. *)
Inductive value :=
  | VBool (b : bool)
  | VNone
  | VInt (n : Z).

Definition analyze_bonus_effectiveness {F : Type} `{Arith F}
    (days target_hires : Z) (adoption_prob : Z → F) (eps : F)
    : option (result (gmap string value)) :=
  r ← min_bonus_for_target days target_hires adoption_prob eps;
  match r with
  | Raise e => Some (Raise e)
  | Ok None =>
      Some (Ok (<["achievable" := VBool false]>
                  (<["min_bonus" := VNone]>
                     (<["total_cost" := VNone]>
                        (<["cost_per_hire" := VNone]> ∅)))))
  | Ok (Some min_bonus) =>
      let total_cost := (min_bonus * target_hires)%Z in
      let cost_per_hire := min_bonus in
      Some (Ok (<["achievable" := VBool true]>
                  (<["min_bonus" := VInt min_bonus]>
                     (<["total_cost" := VInt total_cost]>
                        (<["cost_per_hire" := VInt cost_per_hire]>
                           (<["days_required" := VInt days]>
                              (<["target_hires" := VInt target_hires]> ∅)))))))
  end.

(** ** The grid of the search over the bonus *)

(** The bonuses the search can probe: the multiples of the increment up to
    the maximal bonus. *)
Definition on_grid (bonus : Z) : Prop :=
  (0 ≤ bonus ≤ max_bonus)%Z ∧ (bonus `mod` 10 = 0)%Z.

(** The invariant of the search when a larger bonus never does worse: no
    bonus of the grid below [left] meets the target. *)
Definition bonus_search_inv {F : Type} `{Arith F} (days target_hires : Z)
    (adoption_prob : Z → F) (st : Z * Z) : Prop :=
  bonus_inv st
  ∧ ∀ bonus, on_grid bonus → (bonus < st.1)%Z →
      ¬ meets (adoption_prob bonus) days target_hires.

(** * Facts about loops *)

Section iterate_facts.
Context {St R : Type} (body : St → St + R).

(** Partial correctness: an invariant kept by the body holds at exit. *)
Lemma iterate_inv (I : St → Prop) (Q : R → Prop) :
  (∀ s, I s → match body s with inl s' => I s' | inr r => Q r end) →
  ∀ fuel s r, I s → iterate body fuel s = Some r → Q r.
Proof.
  intros Hbody fuel. induction fuel as [|fuel IH]; intros s r Hs Hrun; [done|].
  simpl in Hrun. specialize (Hbody s Hs).
  destruct (body s) as [s'|r']; [eauto | congruence].
Qed.

(** Termination: a variant that the body decreases bounds the fuel. *)
Lemma iterate_term (I : St → Prop) (mu : St → nat) :
  (∀ s, I s → match body s with inl s' => I s' ∧ mu s' < mu s | inr _ => True end) →
  ∀ fuel s, I s → mu s < fuel → is_Some (iterate body fuel s).
Proof.
  intros Hbody fuel. induction fuel as [|fuel IH]; intros s Hs Hlt; [lia|].
  simpl. specialize (Hbody s Hs).
  destruct (body s) as [s'|r']; [|by eexists].
  destruct Hbody as [Hs' Hdec]. apply IH; [done | lia].
Qed.

Lemma iterate_mono fuel fuel' s r :
  iterate body fuel s = Some r → fuel ≤ fuel' → iterate body fuel' s = Some r.
Proof.
  revert fuel' s. induction fuel as [|fuel IH]; intros fuel' s Hrun Hle; [done|].
  destruct fuel' as [|fuel']; [lia|]. simpl in *.
  destruct (body s); [apply IH; [done | lia] | done].
Qed.
End iterate_facts.

(** Two loops whose bodies keep a relation between their states end in
    related results, whatever fuel each was given. *)
Lemma iterate_rel {S1 S2 R1 R2 : Type} (body1 : S1 → S1 + R1) (body2 : S2 → S2 + R2)
    (Rel : S1 → S2 → Prop) (RelR : R1 → R2 → Prop) :
  (∀ s1 s2, Rel s1 s2 →
     match body1 s1, body2 s2 with
     | inl a, inl b => Rel a b
     | inr a, inr b => RelR a b
     | _, _ => False
     end) →
  ∀ f1 f2 s1 s2 r1 r2,
    Rel s1 s2 → iterate body1 f1 s1 = Some r1 → iterate body2 f2 s2 = Some r2 → RelR r1 r2.
Proof.
  intros Hbody f1. induction f1 as [|f1 IH]; intros f2 s1 s2 r1 r2 Hrel H1 H2; [done|].
  destruct f2 as [|f2]; [done|]. simpl in *. specialize (Hbody s1 s2 Hrel).
  destruct (body1 s1), (body2 s2); try done; [eauto | congruence].
Qed.

(** Two bodies that agree wherever an invariant holds run alike. *)
Lemma iterate_ext_inv {St R : Type} (body1 body2 : St → St + R) (I : St → Prop) :
  (∀ s, I s → body1 s = body2 s) →
  (∀ s, I s → match body1 s with inl s' => I s' | inr _ => True end) →
  ∀ fuel s, I s → iterate body1 fuel s = iterate body2 fuel s.
Proof.
  intros Heq Hinv fuel. induction fuel as [|fuel IH]; intros s Hs; [done|].
  simpl. rewrite <-(Heq s Hs). specialize (Hinv s Hs).
  destruct (body1 s); [by apply IH | done].
Qed.

(** * Facts about the referral graph *)

(** ** Reads of the reverse index *)

Lemma dd_get_fst rev k : (dd_get rev k).1 = children rev k.
Proof.
  unfold dd_get, children. rewrite lookup_total_alt.
  by destruct (rev !! k).
Qed.

Lemma dd_get_children rev k k' : children (dd_get rev k).2 k' = children rev k'.
Proof.
  unfold dd_get, children. destruct (rev !! k) eqn:Hk; [done|]. simpl.
  rewrite !lookup_total_alt. destruct (decide (k = k')) as [->|Hne].
  - by rewrite lookup_insert_eq, Hk.
  - by rewrite lookup_insert_ne.
Qed.

Lemma dd_get_dom rev k : dom (dd_get rev k).2 = {[k]} ∪ dom rev.
Proof.
  unfold dd_get. destruct (rev !! k) eqn:Hk; simpl.
  - apply (elem_of_dom_2 (D := gset string)) in Hk. set_solver.
  - by rewrite dom_insert_L.
Qed.

Lemma dd_get_id rev k : k ∈ dom rev → (dd_get rev k).2 = rev.
Proof.
  intros [cs Hk]%elem_of_dom. unfold dd_get. by rewrite Hk.
Qed.

Lemma dd_get_eq rev k cs rev' :
  dd_get rev k = (cs, rev') →
  cs = children rev k ∧ (∀ k', children rev' k' = children rev k').
Proof.
  intros Hget. split.
  - by rewrite <-dd_get_fst, Hget.
  - intros k'. by rewrite <-(dd_get_children rev k), Hget.
Qed.

Lemma children_not_dom rev k : k ∉ dom rev → children rev k = ∅.
Proof.
  intros Hk%not_elem_of_dom. unfold children. by rewrite lookup_total_alt, Hk.
Qed.

Lemma children_insert rev k cs k' :
  children (<[k := cs]> rev) k' = if decide (k = k') then cs else children rev k'.
Proof.
  unfold children. rewrite !lookup_total_alt, lookup_insert.
  by destruct (decide (k = k')).
Qed.

Lemma set_reverse_id s : set_reverse (reverse_referrals s) s = s.
Proof. by destruct s. Qed.

(** ** The variant of the traversals *)

Lemma pending_visit ch (U V : gset string) k :
  k ∉ V → k ∈ U ∨ ch k = ∅ →
  pending ch U V = size (ch k) + pending ch U (V ∪ {[k]}).
Proof.
  intros HkV Hk. unfold pending. destruct (decide (k ∈ U)) as [HkU|HkU].
  - assert (U ∖ V = {[k]} ∪ U ∖ (V ∪ {[k]})) as ->.
    { apply set_eq. intros x. destruct (decide (x = k)); set_solver. }
    rewrite elements_union_singleton by set_solver. done.
  - destruct Hk as [?| ->]; [done|]. rewrite size_empty. simpl.
    f_equal. f_equal. set_solver.
Qed.

Lemma push_length {A} (P : A → Prop) `{!∀ x, Decision (P x)} (l st : list A) :
  length (foldl (λ st x, if decide (P x) then st else x :: st) st l) ≤ length st + length l.
Proof.
  revert st. induction l as [|x l IH]; intros st; simpl; [lia|].
  etrans; [apply IH|]. destruct (decide (P x)); simpl; lia.
Qed.

Lemma push_elem {A} (P : A → Prop) `{!∀ x, Decision (P x)} (l st : list A) y :
  y ∈ foldl (λ st x, if decide (P x) then st else x :: st) st l ↔ y ∈ st ∨ y ∈ l ∧ ¬ P y.
Proof.
  revert st. induction l as [|x l IH]; intros st; simpl.
  - set_solver.
  - rewrite IH, !elem_of_cons. destruct (decide (P x)) as [Hx|Hx].
    + split; [tauto|]. intros [?|[[-> | ?] ?]]; tauto.
    + rewrite elem_of_cons. split; [|tauto].
      intros [[-> | ?]|[? ?]]; tauto.
Qed.

Lemma store_inv_forest s : store_inv s → forest s.
Proof.
  intros [Hindex _ Hacyclic]. split_and!; [| |done].
  - intros c Hc. apply (Hacyclic c). by apply tc_once.
  - intros c r1 r2 H1%Hindex H2%Hindex. unfold edge in *. congruence.
Qed.

Lemma store_inv_empty : store_inv empty_network.
Proof.
  split.
  - intros c r. unfold edge, child, children. simpl.
    rewrite lookup_empty, lookup_total_empty. set_solver.
  - done.
  - intros x Hx. inversion Hx as [? y Hxy|? y ? Hxy _]; subst;
      unfold edge in Hxy; simpl in Hxy; by rewrite lookup_empty in Hxy.
Qed.

(** Reading the reverse index keeps the invariant. *)
Lemma store_inv_set_reverse s rev :
  (∀ k, children rev k = children (reverse_referrals s) k) →
  dom (reverse_referrals s) ⊆ dom rev →
  store_inv s → store_inv (set_reverse rev s).
Proof.
  intros Hch Hdom [Hindex Hkeys Hacyclic]. split; simpl.
  - intros c r. unfold child. rewrite Hch. apply Hindex.
  - set_solver.
  - done.
Qed.

(** Paths of the graph with one more edge [c → r], for a [c] that had
    no referrer: a new path either is an old one or crosses the new edge. *)
Lemma tc_edge_insert (s s' : Network) r c :
  referrals s' = <[c := r]> (referrals s) →
  ∀ x y, tc (edge s') x y → tc (edge s) x y ∨ (rtc (edge s) x c ∧ rtc (edge s) r y).
Proof.
  intros Hs' x y Hxy.
  assert (∀ a b, edge s' a b → edge s a b ∨ (a = c ∧ b = r)) as Hstep.
  { intros a b. unfold edge. rewrite Hs'. rewrite lookup_insert.
    destruct (decide (c = a)); naive_solver. }
  induction Hxy as [x y Hxy|x y z Hxy Hyz IH].
  - destruct (Hstep _ _ Hxy) as [?|[-> ->]]; [left; by apply tc_once | by right].
  - destruct (Hstep _ _ Hxy) as [Hold|[-> ->]].
    + destruct IH as [?|[? ?]]; [left; by eapply tc_l | right; split; [by eapply rtc_l | done]].
    + right. split; [done|]. destruct IH as [?%tc_rtc|[_ ?]]; done.
Qed.

Lemma rtc_edge_child s x y :
  (∀ c r, edge s c r ↔ child (reverse_referrals s) r c) →
  rtc (edge s) x y ↔ rtc (child (reverse_referrals s)) y x.
Proof.
  intros Hindex. split.
  - induction 1 as [|x y z Hxy _ IH]; [done|]. eapply rtc_r; [done | by apply Hindex].
  - induction 1 as [|y z x Hyz _ IH]; [done|]. eapply rtc_r; [done | by apply Hindex].
Qed.

Lemma tc_child_edge s x y :
  (∀ c r, edge s c r ↔ child (reverse_referrals s) r c) →
  tc (child (reverse_referrals s)) x y → tc (edge s) y x.
Proof.
  intros Hindex. induction 1 as [x y Hxy|x y z Hxy _ IH].
  - apply tc_once. by apply Hindex.
  - eapply tc_r; [done | by apply Hindex].
Qed.

(** In a forest the path between two users is unique, and so is its length. *)
Lemma nsteps_child_unique s n m x y :
  store_inv s →
  nsteps (child (reverse_referrals s)) n x y →
  nsteps (child (reverse_referrals s)) m x y → n = m.
Proof.
  intros [Hindex _ Hacyclic]. revert m y.
  assert (∀ k z, nsteps (child (reverse_referrals s)) (S k) z z → False) as Hloop.
  { intros k z Hz. apply (Hacyclic z), (tc_child_edge s z z Hindex).
    apply tc_nsteps. exists (S k). split; [lia | done]. }
  induction n as [|n IH]; intros m y Hn Hm.
  - inversion Hn; subst. destruct m as [|m]; [done|]. by destruct (Hloop m y).
  - destruct m as [|m].
    + inversion Hm; subst. by destruct (Hloop n y).
    + apply nsteps_inv_r in Hn as (p & Hn & Hp), Hm as (p' & Hm & Hp').
      apply Hindex in Hp, Hp'. unfold edge in Hp, Hp'.
      assert (p = p') as <- by congruence. f_equal. by eapply IH.
Qed.

Lemma distance_nsteps s x y n :
  store_inv s → distance s x y n ↔ nsteps (child (reverse_referrals s)) n x y.
Proof.
  intros Hinv. split; [by intros [? _]|]. intros Hn. split; [done|].
  intros m Hm. by rewrite (nsteps_child_unique s n m x y).
Qed.

(** The inner loop of the search, entry by entry. *)
Lemma paths_push_lookup (v : nat) (l : list string) (d : gmap string nat) (q : list string) :
  ∀ d' q',
    foldl (λ '(distances, queue) candidate,
             if decide (candidate ∈ dom distances) then (distances, queue)
             else (<[candidate := v]> distances, queue ++ [candidate])) (d, q) l = (d', q') →
    (∀ x n, d' !! x = Some n → d !! x = Some n ∨ (x ∈ l ∧ n = v))
    ∧ (∀ x n, d !! x = Some n → d' !! x = Some n)
    ∧ (∀ x, x ∈ q → x ∈ q')
    ∧ (∀ x, x ∈ dom d' → x ∈ dom d ∨ x ∈ q').
Proof.
  revert d q. induction l as [|c l IH]; intros d q d' q'; simpl.
  - intros [= <- <-]. split_and!; [by left | done | done | by left].
  - destruct (decide (c ∈ dom d)) as [Hc|Hc]; intros Hfold;
      destruct (IH _ _ _ _ Hfold) as (Hnew & Hold & Hq & Hdom).
    + split_and!; [|done..]. intros x n Hx.
      destruct (Hnew x n Hx) as [?|[? ->]]; [by left | right; split; [by right | done]].
    + split_and!.
      * intros x n Hx. destruct (Hnew x n Hx) as [Hins|[? ->]].
        -- apply lookup_insert_Some in Hins as [[<- <-]|[_ ?]];
             [right; split; [by left | done] | by left].
        -- right. split; [by right | done].
      * intros x n Hx. apply Hold. rewrite lookup_insert_ne; [done|].
        intros <-. apply Hc. by apply elem_of_dom.
      * intros x Hx. apply Hq, elem_of_app. by left.
      * intros x Hx. destruct (Hdom x Hx) as [Hd|?]; [|by right].
        rewrite dom_insert_L in Hd. apply elem_of_union in Hd as [->%elem_of_singleton|?];
          [|by left].
        right. apply Hq, elem_of_app. right. by left.
Qed.

(** ** Sorting and slicing *)

Lemma insert_desc_perm {A} (key : A → nat) (x : A) (l : list A) :
  insert_desc key x l ≡ₚ x :: l.
Proof.
  induction l as [|y l IH]; simpl; [done|].
  destruct (decide (key y ≤ key x)); [done|]. rewrite IH. apply Permutation_swap.
Qed.

Lemma sort_desc_perm {A} (key : A → nat) (l : list A) : sort_desc key l ≡ₚ l.
Proof.
  induction l as [|x l IH]; simpl; [done|]. by rewrite insert_desc_perm, IH.
Qed.

Lemma insert_desc_sorted {A} (key : A → nat) (x : A) (l : list A) :
  StronglySorted (λ a b, key b ≤ key a) l →
  StronglySorted (λ a b, key b ≤ key a) (insert_desc key x l).
Proof.
  induction 1 as [|y l Hl IH Hy]; simpl; [by repeat constructor|].
  destruct (decide (key y ≤ key x)) as [Hle|Hgt].
  - constructor; [by constructor|]. constructor; [done|].
    eapply Forall_impl; [exact Hy|]. simpl. lia.
  - constructor; [done|]. rewrite insert_desc_perm. constructor; [lia | done].
Qed.

Lemma sort_desc_sorted {A} (key : A → nat) (l : list A) :
  StronglySorted (λ a b, key b ≤ key a) (sort_desc key l).
Proof.
  induction l as [|x l IH]; simpl; [constructor | by apply insert_desc_sorted].
Qed.

Lemma StronglySorted_take {A} (R : A → A → Prop) (n : nat) (l : list A) :
  StronglySorted R l → StronglySorted R (take n l).
Proof.
  intros Hl. rewrite <-(take_drop n l) in Hl. by apply StronglySorted_app_1_l in Hl.
Qed.

Lemma slice_to_subseteq {A} (k : Z) (l : list A) : slice_to k l ⊆ l.
Proof. unfold slice_to. destruct (decide _); apply subseteq_take. Qed.

Lemma slice_to_sorted {A} (R : A → A → Prop) (k : Z) (l : list A) :
  StronglySorted R l → StronglySorted R (slice_to k l).
Proof. unfold slice_to. destruct (decide _); apply StronglySorted_take. Qed.

Lemma slice_to_all {A} (k : Z) (l : list A) :
  (Z.of_nat (length l) ≤ k)%Z → slice_to k l = l.
Proof.
  intros Hk. unfold slice_to. destruct (decide _); [|lia]. apply take_ge. lia.
Qed.

Lemma slice_to_zero {A} (l : list A) : slice_to 0 l = [].
Proof. done. Qed.

(** ** Sums of indicators *)

Lemma sum_indicator_filter {A} (P : A → Prop) `{!∀ x, Decision (P x)} (l : list A) :
  sum_list_with (λ x, if decide (P x) then 1 else 0) l = length (filter P l).
Proof.
  induction l as [|x l IH]; simpl; [done|]. rewrite filter_cons.
  destruct (decide (P x)); simpl; lia.
Qed.

Lemma sum_list_with_ext_in {A} (f g : A → nat) (l : list A) :
  (∀ x, x ∈ l → f x = g x) → sum_list_with f l = sum_list_with g l.
Proof.
  induction l as [|x l IH]; intros Hfg; simpl; [done|].
  rewrite Hfg by (by left). rewrite IH; [done|]. intros y Hy. apply Hfg. by right.
Qed.

Lemma sum_list_with_fmap {A B} (f : B → nat) (g : A → B) (l : list A) :
  sum_list_with f (g <$> l) = sum_list_with (f ∘ g) l.
Proof. induction l as [|x l IH]; [done|]. simpl. f_equal. exact IH. Qed.

Lemma sum_list_with_cprod {A B} (f : A * B → nat) (l : list A) (k : list B) :
  sum_list_with (λ a, sum_list_with (λ b, f (a, b)) k) l = sum_list_with f (cprod l k).
Proof.
  induction l as [|a l IH]; simpl; [done|].
  change (cprod (a :: l) k) with ((pair a <$> k) ++ cprod l k).
  by rewrite sum_list_with_app, sum_list_with_fmap, IH.
Qed.

Lemma sum_indicator_NoDup {A} `{!EqDecision A} (Q : A → Prop) `{!∀ x, Decision (Q x)}
    (v : A) (l : list A) :
  NoDup l →
  sum_list_with (λ x, if decide (v = x ∧ Q x) then 1 else 0) l =
  if decide (v ∈ l ∧ Q v) then 1 else 0.
Proof.
  induction 1 as [|x l Hx Hl IH]; cbn [sum_list_with].
  - rewrite decide_False; [done|]. by intros [?%elem_of_nil _].
  - rewrite IH. destruct (decide (v = x ∧ Q x)) as [[-> HQ]|Hno].
    + rewrite decide_False by (by intros [? _]). rewrite decide_True; [done|].
      split; [by left | done].
    + destruct (decide (v ∈ l ∧ Q v)) as [[Hin HQ]|Hno'].
      * rewrite decide_True; [done|]. split; [by right | done].
      * rewrite decide_False; [done|]. intros [[->|?]%elem_of_cons HQ]; tauto.
Qed.

Lemma NoDup_list_cprod {A B} (l : list A) (k : list B) :
  NoDup l → NoDup k → NoDup (cprod l k).
Proof.
  intros Hl Hk. induction Hl as [|a l Ha Hl IH]; [constructor|].
  change (cprod (a :: l) k) with ((pair a <$> k) ++ cprod l k).
  apply NoDup_app. split_and!; [|  |done].
  - apply NoDup_fmap_2; [|done]. by intros ?? [= ->].
  - intros [a' b] [b' [[= -> ->] _]]%list_elem_of_fmap [Hin _]%list_elem_of_cprod. done.
Qed.

Lemma snd_imap_pair {A} (l : list A) (g : nat → nat) :
  (imap (λ i x, (g i, x)) l).*2 = l.
Proof.
  revert g. induction l as [|x l IH]; intros g; [done|].
  rewrite imap_cons. simpl. f_equal. apply (IH (g ∘ S)).
Qed.

Lemma snd_enumerate {A} (l : list A) : (enumerate l).*2 = l.
Proof. apply (snd_imap_pair l id). Qed.

Lemma sum_list_with_enumerate {A} (g : A → nat) (l : list A) :
  sum_list_with (λ x, g x.2) (enumerate l) = sum_list_with g l.
Proof.
  transitivity (sum_list_with g (enumerate l).*2); [|by rewrite snd_enumerate].
  by rewrite sum_list_with_fmap.
Qed.

(** ** Loops that add to a dictionary of scores *)

Lemma adds_ext U f (w w' : string → nat) :
  (∀ v, w v = w' v) → adds U f w → adds U f w'.
Proof.
  intros Hw Hf sc Hsc. destruct (Hf sc Hsc) as (sc' & ? & ? & Hv).
  exists sc'. split_and!; [done..|]. intros v. by rewrite <-Hw.
Qed.

Lemma adds_skip U : adds U Ok (λ _, 0).
Proof. intros sc _. exists sc. split_and!; [done..|]. intros v. lia. Qed.

Lemma for_each_adds {A} U (l : list A) (body : gmap string nat → A → result (gmap string nat))
    (w : A → string → nat) :
  (∀ x, x ∈ l → adds U (λ sc, body sc x) (w x)) →
  adds U (for_each l body) (λ v, sum_list_with (λ x, w x v) l).
Proof.
  induction l as [|x l IH]; intros Hbody sc Hsc; simpl.
  - exists sc. split_and!; [done..|]. intros v. lia.
  - destruct (Hbody x (list_elem_of_here _ _) sc Hsc) as (sc1 & -> & Hdom1 & Hv1).
    destruct (IH (λ y Hy, Hbody y (list_elem_of_further _ _ _ Hy)) sc1) as (sc2 & -> & Hdom2 & Hv2).
    { by rewrite Hdom1. }
    exists sc2. split_and!; [done | congruence |]. intros v. rewrite Hv2, Hv1. lia.
Qed.

Section graph_facts.
Variable iter : gset string → list string.
Hypothesis iter_perm : ∀ X, iter X ≡ₚ elements X.

Lemma iter_elem x X : x ∈ iter X ↔ x ∈ X.
Proof. by rewrite iter_perm, elem_of_elements. Qed.

Lemma iter_length X : length (iter X) = size X.
Proof. by rewrite iter_perm. Qed.

Lemma iter_NoDup X : NoDup (iter X).
Proof. rewrite iter_perm. apply NoDup_elements. Qed.

Lemma iter_empty : iter ∅ = [].
Proof.
  apply length_zero_iff_nil. by rewrite iter_length, size_empty.
Qed.

(** *** The cycle check *)

Lemma cycle_loop_term rev referrer candidate :
  is_Some (iterate (cycle_body iter referrer) (2 + edge_count rev) (rev, ∅, [candidate])).
Proof.
  apply (iterate_term _
    (λ '(rv, _, _), ∀ k, children rv k = children rev k)
    (λ '(_, V, stack), pending (children rev) (dom rev) V + length stack)).
  - intros [[rv V] stack] Hch. simpl.
    destruct stack as [|current stack]; [done|].
    destruct (decide (current = referrer)); [done|].
    destruct (decide (current ∈ V)) as [|HV]; [split; [done | simpl; lia]|].
    destruct (dd_get rv current) as [cs rv'] eqn:Hget.
    assert (cs = children rev current) as ->.
    { by rewrite <-Hch, <-dd_get_fst, Hget. }
    split.
    + intros k. rewrite <-Hch. by rewrite <-(dd_get_children rv current), Hget.
    + rewrite (pending_visit _ _ V current); [|done|].
      * pose proof (push_length (λ x, x ∈ V ∪ {[current]})
          (iter (children rev current)) stack) as Hlen.
        rewrite iter_length in Hlen. simpl in *. lia.
      * destruct (decide (current ∈ dom rev)); [by left|right].
        by apply children_not_dom.
  - done.
  - unfold edge_count. simpl. lia.
Qed.

(** The check answers [true] exactly when the referrer is reachable
    from the candidate along the reverse index; it only ever adds
    empty entries to the [defaultdict], and the candidate's is one of
    them when the answer is [false]. *)
Lemma cycle_loop_spec rev referrer candidate fuel b rev' :
  iterate (cycle_body iter referrer) fuel (rev, ∅, [candidate]) = Some (b, rev') →
  (∀ k, children rev' k = children rev k)
  ∧ dom rev ⊆ dom rev'
  ∧ (b = false → candidate ∈ dom rev')
  ∧ (b = true ↔ rtc (child rev) candidate referrer).
Proof.
  intros Hrun.
  refine (iterate_inv (cycle_body iter referrer)
    (λ '(rv, V, stack),
       (∀ k, children rv k = children rev k)
       ∧ dom rev ⊆ dom rv ∧ V ⊆ dom rv
       ∧ (referrer ∉ V)
       ∧ (candidate ∈ V ∨ candidate ∈ stack)
       ∧ (∀ x y, x ∈ V → child rev x y → y ∈ V ∨ y ∈ stack)
       ∧ (∀ x, x ∈ V ∨ x ∈ stack → rtc (child rev) candidate x))
    (λ '(b, rv),
       (∀ k, children rv k = children rev k)
       ∧ dom rev ⊆ dom rv
       ∧ (b = false → candidate ∈ dom rv)
       ∧ (b = true ↔ rtc (child rev) candidate referrer))
    _ fuel _ (b, rev') _ Hrun).
  - clear Hrun. intros [[rv V] stack] (Hch & Hdom & HVdom & Href & Hcand & Hclosed & Hreach). simpl.
    destruct stack as [|current stack].
    { (* the stack is empty: [visited] is closed under [child] *)
      assert (candidate ∈ V) as HcV by set_solver.
      split_and!; [done | done | set_solver |].
      split; [done|]. intros Hpath. exfalso. apply Href.
      revert Hpath. generalize referrer. apply rtc_ind_r; [done|].
      intros y z _ Hyz Hy. destruct (Hclosed y z Hy Hyz); set_solver. }
    destruct (decide (current = referrer)) as [->|Hne].
    { split_and!; [done | done | done |]. split; [|done].
      intros _. apply Hreach. set_solver. }
    destruct (decide (current ∈ V)) as [HV|HV].
    { split_and!; try done.
      - set_solver.
      - intros x y Hx Hxy. destruct (Hclosed x y Hx Hxy) as [?|Hy]; [by left|].
        apply elem_of_cons in Hy as [-> | ?]; auto.
      - intros x Hx. apply Hreach. set_solver. }
    destruct (dd_get rv current) as [cs rv'] eqn:Hget.
    assert (cs = children rev current) as ->.
    { by rewrite <-Hch, <-dd_get_fst, Hget. }
    assert (dom rv' = {[current]} ∪ dom rv) as Hdom'.
    { by rewrite <-dd_get_dom, Hget. }
    assert (rtc (child rev) candidate current) as Hcur by (apply Hreach; set_solver).
    split_and!.
    + intros k. rewrite <-Hch. by rewrite <-(dd_get_children rv current), Hget.
    + set_solver.
    + set_solver.
    + set_solver.
    + destruct Hcand as [?|[-> | ?]%elem_of_cons]; [set_solver | set_solver |].
      right. apply push_elem. by left.
    + intros x y Hx Hxy.
      destruct (decide (y ∈ V ∪ {[current]})) as [|Hy]; [by left|]. right.
      apply push_elem. apply elem_of_union in Hx as [Hx | ->%elem_of_singleton].
      * destruct (Hclosed x y Hx Hxy) as [?|[-> | ?]%elem_of_cons]; [set_solver | set_solver | by left].
      * right. split; [by apply iter_elem | done].
    + intros x [Hx|Hx].
      * apply elem_of_union in Hx as [Hx | ->%elem_of_singleton]; [apply Hreach; by left | done].
      * apply push_elem in Hx as [Hx|[Hx _]]; [apply Hreach; set_solver|].
        apply iter_elem in Hx. by eapply rtc_r.
  - split_and!; [done | done | set_solver | set_solver | set_solver | set_solver |].
    intros x [Hx|Hx]; [set_solver|]. by apply list_elem_of_singleton in Hx as ->.
Qed.

(** When every referral already has an entry in the [defaultdict], a
    check that finds a cycle has created none. *)
Lemma cycle_loop_unchanged rev referrer candidate fuel rev' :
  (∀ x y, child rev x y → y ∈ dom rev) →
  iterate (cycle_body iter referrer) fuel (rev, ∅, [candidate]) = Some (true, rev') →
  rev' = rev.
Proof.
  intros Hkeys Hrun.
  refine (iterate_inv (cycle_body iter referrer)
    (λ '(rv, V, stack),
       stack = []
       ∨ (rv = rev ∧ ∀ x, x ∈ stack → x ∈ dom rev)
       ∨ (rv = rev ∧ stack = [candidate] ∧ candidate ∉ dom rev))
    (λ '(b, rv), b = true → rv = rev)
    _ fuel _ (true, rev') _ Hrun eq_refl).
  - clear Hrun. intros [[rv V] stack] Hinv. simpl.
    destruct stack as [|current stack]; [done|].
    destruct Hinv as [?|[[-> Hstack]|(-> & [= -> ->] & Hfresh)]]; [done| |].
    + destruct (decide (current = referrer)); [done|].
      destruct (decide (current ∈ V)); [right; left; set_solver|].
      assert (current ∈ dom rev) as Hcur by set_solver.
      destruct (dd_get rev current) as [cs rv'] eqn:Hget.
      assert (cs = children rev current) as -> by (by rewrite <-dd_get_fst, Hget).
      assert (rv' = rev) as -> by (by rewrite <-(dd_get_id rev current), Hget).
      right; left. split; [done|]. intros x [Hx|[Hx _]]%push_elem; [set_solver|].
      apply iter_elem in Hx. by eapply Hkeys.
    + destruct (decide (candidate = referrer)); [done|].
      destruct (decide (candidate ∈ V)); [by left|].
      destruct (dd_get rev candidate) as [cs rv'] eqn:Hget.
      assert (cs = ∅) as ->.
      { by rewrite <-(children_not_dom rev candidate), <-dd_get_fst, Hget. }
      left. by rewrite iter_empty.
  - destruct (decide (candidate ∈ dom rev)); [right; left | right; right]; [|done].
    split; [done|]. by intros x ->%list_elem_of_singleton.
Qed.

Lemma would_create_cycle_spec referrer candidate s :
  ∃ b rev', _would_create_cycle iter referrer candidate s = Some (b, set_reverse rev' s)
    ∧ (∀ k, children rev' k = children (reverse_referrals s) k)
    ∧ dom (reverse_referrals s) ⊆ dom rev'
    ∧ (b = false → candidate ∈ dom rev')
    ∧ (b = true ↔ rtc (child (reverse_referrals s)) candidate referrer)
    ∧ (b = true →
       (∀ x y, child (reverse_referrals s) x y → y ∈ dom (reverse_referrals s)) →
       rev' = reverse_referrals s).
Proof.
  destruct (cycle_loop_term (reverse_referrals s) referrer candidate) as [[b rev'] Hrun].
  exists b, rev'. unfold _would_create_cycle. rewrite Hrun. simpl.
  destruct (cycle_loop_spec _ _ _ _ _ _ Hrun) as (? & ? & ? & ?).
  split_and!; try done.
  intros -> Hkeys. by eapply cycle_loop_unchanged.
Qed.

(** *** [add_referral] keeps the invariant, changes nothing when it
    raises, and raises on every edge that would break the forest. *)
Lemma add_referral_spec referrer candidate s :
  store_inv s →
  ∃ res s', add_referral iter referrer candidate s = Some (res, s') ∧ store_inv s' ∧
    match res with
    | Raise _ =>
        s' = s
        ∧ (referrer = "" ∨ candidate = "" ∨ referrer = candidate
           ∨ candidate ∈ dom (referrals s) ∨ rtc (edge s) referrer candidate)
    | Ok _ =>
        referrer ≠ candidate ∧ (candidate ∉ dom (referrals s))
        ∧ ¬ rtc (edge s) referrer candidate
        ∧ referrals s' = <[candidate := referrer]> (referrals s)
        ∧ (∀ k, children (reverse_referrals s') k =
                if decide (referrer = k)
                then children (reverse_referrals s) k ∪ {[candidate]}
                else children (reverse_referrals s) k)
        ∧ users s' = users s ∪ {[referrer]} ∪ {[candidate]}
    end.
Proof.
  intros Hinv. pose proof Hinv as [Hindex Hkeys Hacyclic]. unfold add_referral.
  destruct (decide (referrer = "" ∨ candidate = "")) as [Hempty|Hempty].
  { exists (Raise InvalidInput), s. split_and!; [done..|]. tauto. }
  destruct (decide (referrer = candidate)) as [Hself|Hself].
  { exists (Raise SelfReferral), s. split_and!; [done..|]. tauto. }
  destruct (decide (candidate ∈ dom (referrals s))) as [Hdup|Hdup].
  { exists (Raise DuplicateReferrer), s. split_and!; [done..|]. tauto. }
  destruct (would_create_cycle_spec referrer candidate s)
    as (b & rev' & -> & Hch & Hdom & Hcand & Hb & Hsame).
  simpl. destruct b.
  - (* a cycle was found *)
    rewrite Hsame; [|done|].
    + rewrite set_reverse_id. exists (Raise CycleDetected), s. split_and!; [done..|].
      do 4 right. apply rtc_edge_child; [done|]. by apply Hb.
    + intros x y Hxy%Hindex. apply Hkeys. by apply elem_of_dom.
  - (* the edge is inserted *)
    assert (¬ rtc (edge s) referrer candidate) as Hnopath.
    { intros Hpath%rtc_edge_child; [|done]. by apply Hb in Hpath. }
    destruct (dd_get rev' referrer) as [cs rev''] eqn:Hget.
    assert (cs = children (reverse_referrals s) referrer) as ->.
    { by rewrite <-Hch, <-dd_get_fst, Hget. }
    assert (∀ k, children rev'' k = children (reverse_referrals s) k) as Hch''.
    { intros k. rewrite <-Hch. by rewrite <-(dd_get_children rev' referrer), Hget. }
    assert (dom rev'' = {[referrer]} ∪ dom rev') as Hdom''.
    { by rewrite <-dd_get_dom, Hget. }
    eexists (Ok true), _. split; [done|]. split; [|split_and!; try done].
    + split; simpl.
      * intros c r. unfold edge, child. simpl. rewrite children_insert, Hch''.
        rewrite lookup_insert. destruct (decide (candidate = c)) as [->|Hc].
        -- destruct (decide (referrer = r)) as [->|Hr]; [set_solver|].
           split; [congruence|]. intros Hcr%Hindex. exfalso. apply Hdup.
           by apply elem_of_dom.
        -- rewrite (Hindex c r). unfold child.
           destruct (decide (referrer = r)) as [->|Hr]; [set_solver|done].
      * rewrite !dom_insert_L, Hdom''. specialize (Hcand eq_refl). set_solver.
      * intros x Hx. eapply tc_edge_insert in Hx as [?|[Hxc Hrx]]; [by eapply Hacyclic | | done].
        apply Hnopath. by etrans.
    + simpl. intros k. rewrite children_insert, Hch''.
      by destruct (decide (referrer = k)) as [->|].
Qed.

Lemma run_spec calls s :
  store_inv s → ∃ s', run iter calls s = Some s' ∧ store_inv s'.
Proof.
  revert s. induction calls as [|[referrer candidate] calls IH]; intros s Hinv; simpl.
  - by exists s.
  - destruct (add_referral_spec referrer candidate s Hinv) as (res & s' & -> & Hinv' & _).
    simpl. by apply IH.
Qed.

(** ** The forest invariant *)

(** C1. Whatever the sequence of [add_referral] calls, accepted or
    rejected, the store it leaves is a forest of in-trees: no candidate is
    its own referrer, no candidate is listed under two referrers, and no
    chain of referrer links returns to its start.  Every further call
    that would break this (a self-referral, a candidate that already has
    a referrer, a referrer from which the candidate is reachable along
    referrer links) is rejected and leaves the store as it was. *)
Theorem add_referral_keeps_forest (calls : list (string * string)) :
  ∃ s, run iter calls empty_network = Some s
       ∧ forest s
       ∧ ∀ referrer candidate,
           referrer = candidate ∨ candidate ∈ dom (referrals s)
           ∨ rtc (edge s) referrer candidate →
           ∃ e, add_referral iter referrer candidate s = Some (Raise e, s).
Proof.
  destruct (run_spec calls empty_network store_inv_empty) as (s & Hrun & Hinv).
  exists s. split_and!; [done | by apply store_inv_forest |].
  intros referrer candidate Hbad.
  destruct (add_referral_spec referrer candidate s Hinv) as (res & s' & Hadd & _ & Hres).
  destruct res as [b|e].
  - destruct Hres as (Hne & Hfresh & Hnopath & _). exfalso.
    destruct Hbad as [?|[?|?]]; done.
  - destruct Hres as [-> _]. by exists e.
Qed.

(** C2. In every store that satisfies the invariant of the class (it
    holds in the empty store, every call of [add_referral] keeps it, and so
    does every read of the reverse index), a
    call of [add_referral] that raises leaves the primary index, the
    reverse index and the user set exactly as they were, and a call that
    succeeds has made all three updates. *)
Theorem add_referral_atomic (s : Network) (referrer candidate : string) :
  store_inv s →
  ∃ res s', add_referral iter referrer candidate s = Some (res, s')
    ∧ match res with
      | Raise _ => s' = s
      | Ok _ =>
          referrals s' = <[candidate := referrer]> (referrals s)
          ∧ (∀ k, children (reverse_referrals s') k =
                  if decide (referrer = k)
                  then children (reverse_referrals s) k ∪ {[candidate]}
                  else children (reverse_referrals s) k)
          ∧ users s' = users s ∪ {[referrer]} ∪ {[candidate]}
      end.
Proof.
  intros Hinv.
  destruct (add_referral_spec referrer candidate s Hinv) as (res & s' & Hadd & _ & Hres).
  exists res, s'. split; [done|]. destruct res; [|by destruct Hres].
  by destruct Hres as (_ & _ & _ & ? & ? & ?).
Qed.

(** ** Breadth-first traversals *)

(** The inner loops of the two traversals in closed form. *)
Lemma count_push (V : gset string) (l q : list string) (n : nat) :
  foldl (λ '(queue, count) candidate,
           if decide (candidate ∈ V) then (queue, count)
           else (queue ++ [candidate], S count)) (q, n) l =
  (q ++ filter (λ c, c ∉ V) l, n + length (filter (λ c, c ∉ V) l)).
Proof.
  revert q n. induction l as [|c l IH]; intros q n; simpl.
  - by rewrite app_nil_r, Nat.add_0_r.
  - rewrite filter_cons. destruct (decide (c ∈ V)) as [Hc|Hc].
    + rewrite decide_False by (by intros ?). apply IH.
    + rewrite decide_True by done. rewrite IH. simpl.
      by rewrite <-app_assoc, Nat.add_succ_r.
Qed.

Lemma reach_push (V : gset string) (l q : list string) :
  foldl (λ queue candidate, if decide (candidate ∈ V) then queue else queue ++ [candidate]) q l =
  q ++ filter (λ c, c ∉ V) l.
Proof.
  revert q. induction l as [|c l IH]; intros q; simpl.
  - by rewrite app_nil_r.
  - rewrite filter_cons. destruct (decide (c ∈ V)) as [Hc|Hc].
    + rewrite decide_False by (by intros ?). apply IH.
    + rewrite decide_True by done. rewrite IH. by rewrite <-app_assoc.
Qed.

Lemma count_loop_term rev user :
  is_Some (iterate (count_body iter) (2 + edge_count rev) (rev, ∅, [user], 0)).
Proof.
  apply (iterate_term _
    (λ '(rv, _, _, _), ∀ k, children rv k = children rev k)
    (λ '(_, V, queue, _), pending (children rev) (dom rev) V + length queue)).
  - intros [[[rv V] queue] n] Hch. simpl.
    destruct queue as [|current queue]; [done|].
    destruct (decide (current ∈ V)) as [|HV]; [split; [done | simpl; lia]|].
    destruct (dd_get rv current) as [cs rv'] eqn:Hget.
    assert (cs = children rev current) as ->.
    { by rewrite <-Hch, <-dd_get_fst, Hget. }
    rewrite count_push. split.
    + intros k. rewrite <-Hch. by rewrite <-(dd_get_children rv current), Hget.
    + rewrite (pending_visit _ _ V current); [|done|].
      * pose proof (length_filter (λ c, c ∉ V ∪ {[current]}) (iter (children rev current))) as Hlen.
        rewrite iter_length in Hlen. rewrite length_app. simpl. lia.
      * destruct (decide (current ∈ dom rev)); [by left|right].
        by apply children_not_dom.
  - done.
  - unfold edge_count. simpl. lia.
Qed.

Lemma reach_loop_term rev user :
  is_Some (iterate (reach_body iter) (2 + edge_count rev) (rev, ∅, [user])).
Proof.
  apply (iterate_term _
    (λ '(rv, _, _), ∀ k, children rv k = children rev k)
    (λ '(_, V, queue), pending (children rev) (dom rev) V + length queue)).
  - intros [[rv V] queue] Hch. simpl.
    destruct queue as [|current queue]; [done|].
    destruct (decide (current ∈ V)) as [|HV]; [split; [done | simpl; lia]|].
    destruct (dd_get rv current) as [cs rv'] eqn:Hget.
    assert (cs = children rev current) as ->.
    { by rewrite <-Hch, <-dd_get_fst, Hget. }
    rewrite reach_push. split.
    + intros k. rewrite <-Hch. by rewrite <-(dd_get_children rv current), Hget.
    + rewrite (pending_visit _ _ V current); [|done|].
      * pose proof (length_filter (λ c, c ∉ V ∪ {[current]}) (iter (children rev current))) as Hlen.
        rewrite iter_length in Hlen. rewrite length_app. simpl. lia.
      * destruct (decide (current ∈ dom rev)); [by left|right].
        by apply children_not_dom.
  - done.
  - unfold edge_count. simpl. lia.
Qed.

Lemma count_body_inv rev user (st : count_state) :
  (∀ c r1 r2, child rev r1 c → child rev r2 c → r1 = r2) →
  count_inv rev user st →
  match count_body iter st, reach_body iter st.1 with
  | inl st', inl st2 => st2 = st'.1 ∧ count_inv rev user st'
  | inr (count, _), inr (reachable, _) => count = size (reachable ∖ {[user]})
  | _, _ => False
  end.
Proof.
  intros Hunique. destruct st as [[[rv V] queue] n].
  intros (Hch & Hdup & Hfresh & Hn & Hfront). simpl.
  destruct queue as [|current queue].
  { subst n. f_equal. set_solver. }
  assert (current ∉ V) as HV by (apply Hfresh; by left).
  destruct (decide (current ∈ V)); [done|].
  destruct (dd_get rv current) as [cs rv'] eqn:Hget.
  assert (cs = children rev current) as ->.
  { by rewrite <-Hch, <-dd_get_fst, Hget. }
  rewrite count_push, reach_push. split; [done|].
  apply NoDup_cons in Hdup as [Hcur Hdup].
  set (pushed := filter (λ c, c ∉ V ∪ {[current]}) (iter (children rev current))).
  assert (∀ x, x ∈ pushed ↔ child rev current x ∧ (x ∉ V) ∧ x ≠ current) as Hpushed.
  { intros x. unfold pushed. rewrite list_elem_of_filter, iter_elem. unfold child. set_solver. }
  assert (user ∈ V ∪ {[current]}) as Huser.
  { destruct Hfront as [[-> [= ->]]|[? _]]; set_solver. }
  assert (∀ x, x ∈ pushed → x ∉ queue) as Hnew.
  { intros x [Hx _]%Hpushed Hq. destruct Hfront as [[_ [= _ ->]]|[_ Hparent]].
    - by apply elem_of_nil in Hq.
    - destruct (Hparent x) as (r & Hr & Hrx); [by right|].
      rewrite (Hunique x r current Hrx Hx) in Hr. done. }
  assert (NoDup pushed) as Hdup' by (apply NoDup_filter, iter_NoDup).
  split_and!.
  - intros k. rewrite <-Hch. by rewrite <-(dd_get_children rv current), Hget.
  - apply NoDup_app. split_and!; [done | | done]. intros x Hx Hx'. by apply (Hnew x).
  - intros x [Hx|Hx]%elem_of_app.
    + intros [?| ->%elem_of_singleton]%elem_of_union; [|done]. apply (Hfresh x); [by right|done].
    + apply Hpushed in Hx. set_solver.
  - subst n.
    assert ((V ∪ {[current]} ∪ list_to_set (queue ++ pushed)) ∖ {[user]}
            = (V ∪ list_to_set (current :: queue)) ∖ {[user]} ∪ list_to_set pushed) as ->.
    { apply set_eq. intros x. rewrite list_to_set_app_L. 
      destruct (decide (x = user)) as [->|Hx]; [|set_solver].
      split; [set_solver|]. intros [?|Hu%elem_of_list_to_set]%elem_of_union; [set_solver|].
      apply Hpushed in Hu. set_solver. }
    rewrite (size_union (_ ∖ {[user]}) (list_to_set pushed)).
    + by rewrite size_list_to_set.
    + intros x Hx Hx'%elem_of_list_to_set. pose proof (Hnew x Hx').
      apply Hpushed in Hx'. set_solver.
  - right. split; [done|]. intros x [Hx|Hx]%elem_of_app.
    + destruct Hfront as [[_ [= _ ->]]|[_ Hparent]]; [by apply elem_of_nil in Hx|].
      destruct (Hparent x) as (r & Hr & Hrx); [by right|]. exists r. set_solver.
    + exists current. apply Hpushed in Hx. set_solver.
Qed.

(** In a store that satisfies the invariant both traversals return, and
    the count of the first is the size of the set of the second. *)
Lemma total_count_reach_size (s : Network) (user : string) :
  store_inv s →
  ∃ n R s1 s2,
    get_total_referral_count iter user s = Some (n, s1)
    ∧ _get_reachable_users iter user s = Some (R, s2)
    ∧ n = size R.
Proof.
  intros Hinv. unfold get_total_referral_count, _get_reachable_users.
  destruct (decide (user ∈ users s)); [|by exists 0, ∅, s, s].
  destruct (count_loop_term (reverse_referrals s) user) as [[n rev1] Hcount].
  destruct (reach_loop_term (reverse_referrals s) user) as [[R rev2] Hreach].
  rewrite Hcount, Hreach. simpl. eexists _, _, _, _. split_and!; [done..|].
  refine (iterate_rel (count_body iter) (reach_body iter)
    (λ st1 st2, st2 = st1.1 ∧ count_inv (reverse_referrals s) user st1)
    (λ r1 r2, r1.1 = size (r2.1 ∖ {[user]}))
    _ _ _ _ _ (n, rev1) (R, rev2) _ Hcount Hreach).
  - intros st1 st2 [-> Hst].
    pose proof (count_body_inv (reverse_referrals s) user st1) as Hstep.
    destruct (count_body iter st1) as [st'|[n' rv']], (reach_body iter st1.1) as [st2|[R' rv2']];
      apply Hstep; try done.
    all: by destruct (store_inv_forest s Hinv) as (_ & ? & _).
  - split; [done|]. split_and!; [done | apply NoDup_singleton | | | by left].
    + intros x _. apply not_elem_of_empty.
    + symmetry. apply size_empty_iff. set_solver.
Qed.

(** ** Reads leave an equivalent store *)

Lemma store_equiv_refl s : store_equiv s s.
Proof. done. Qed.

Lemma store_equiv_trans s1 s2 s3 : store_equiv s1 s2 → store_equiv s2 s3 → store_equiv s1 s3.
Proof.
  intros (? & ? & H12) (? & ? & H23). split_and!; [congruence..|].
  intros k. by rewrite H12.
Qed.

Lemma store_equiv_set_reverse s rev :
  (∀ k, children rev k = children (reverse_referrals s) k) → store_equiv s (set_reverse rev s).
Proof. intros Hch. by split_and!. Qed.

(** [get_total_referral_count] returns on every store, leaves an
    equivalent store, and counts the same on equivalent stores. *)
Lemma total_count_spec (s : Network) (user : string) :
  ∃ n s1, get_total_referral_count iter user s = Some (n, s1) ∧ store_equiv s s1.
Proof.
  unfold get_total_referral_count.
  destruct (decide (user ∈ users s)); [|by exists 0, s].
  destruct (count_loop_term (reverse_referrals s) user) as [[n rev1] Hcount].
  rewrite Hcount. simpl. exists n, (set_reverse rev1 s). split; [done|].
  apply store_equiv_set_reverse.
  refine (iterate_inv (count_body iter)
    (λ '(rv, _, _, _), ∀ k, children rv k = children (reverse_referrals s) k)
    (λ '(_, rv), ∀ k, children rv k = children (reverse_referrals s) k)
    _ _ _ (n, rev1) _ Hcount); [|done].
  intros [[[rv V] queue] c] Hch. simpl.
  destruct queue as [|current queue]; [done|].
  destruct (decide (current ∈ V)); [done|].
  destruct (dd_get rv current) as [cs rv'] eqn:Hget. rewrite count_push.
  intros k. rewrite <-Hch. by rewrite <-(dd_get_children rv current), Hget.
Qed.

Lemma count_body_equiv (st1 st2 : count_state) :
  st1.1.1.2 = st2.1.1.2 ∧ st1.1.2 = st2.1.2 ∧ st1.2 = st2.2
  ∧ (∀ k, children st1.1.1.1 k = children st2.1.1.1 k) →
  match count_body iter st1, count_body iter st2 with
  | inl a, inl b =>
      a.1.1.2 = b.1.1.2 ∧ a.1.2 = b.1.2 ∧ a.2 = b.2
      ∧ (∀ k, children a.1.1.1 k = children b.1.1.1 k)
  | inr a, inr b => a.1 = b.1
  | _, _ => False
  end.
Proof.
  destruct st1 as [[[rv1 V] queue] n], st2 as [[[rv2 V2] queue2] n2]. simpl.
  intros (<- & <- & <- & Hch).
  destruct queue as [|current queue]; [done|].
  destruct (decide (current ∈ V)); [done|].
  destruct (dd_get rv1 current) as [cs1 rv1'] eqn:Hget1.
  destruct (dd_get rv2 current) as [cs2 rv2'] eqn:Hget2.
  apply dd_get_eq in Hget1 as [-> Hch1], Hget2 as [-> Hch2].
  rewrite Hch, !count_push. simpl. split_and!; [done..|].
  intros k. by rewrite Hch1, Hch2.
Qed.

Lemma total_count_equiv (s s' : Network) (user : string) :
  store_equiv s s' → total_reach iter s user = total_reach iter s' user.
Proof.
  intros (_ & Husers & Hch). unfold total_reach, get_total_referral_count.
  rewrite <-Husers. destruct (decide (user ∈ users s)); [|done].
  destruct (count_loop_term (reverse_referrals s) user) as [[n rev1] Hcount].
  destruct (count_loop_term (reverse_referrals s') user) as [[n' rev1'] Hcount'].
  rewrite Hcount, Hcount'. simpl.
  refine (iterate_rel (count_body iter) (count_body iter)
    (λ st1 st2, st1.1.1.2 = st2.1.1.2 ∧ st1.1.2 = st2.1.2 ∧ st1.2 = st2.2
                ∧ (∀ k, children st1.1.1.1 k = children st2.1.1.1 k))
    (λ r1 r2, r1.1 = r2.1)
    count_body_equiv _ _ _ _ (n, rev1) (n', rev1') _ Hcount Hcount').
  by split_and!.
Qed.

(** ** [get_top_referrers] *)

Lemma collect_counts_spec (us : list string) (acc : list (string * nat)) (s s0 : Network) :
  store_equiv s s0 →
  ∃ s', collect_counts iter us acc s0 =
          Some (acc ++ omap (λ user, if decide (0 < total_reach iter s user)
                                     then Some (user, total_reach iter s user) else None) us,
                s')
        ∧ store_equiv s s'.
Proof.
  revert acc s0. induction us as [|user us IH]; intros acc s0 Hequiv; simpl.
  - exists s0. by rewrite app_nil_r.
  - destruct (total_count_spec s0 user) as (n & s1 & Hcount & Hequiv1).
    assert (n = total_reach iter s user) as Hn.
    { rewrite (total_count_equiv s s0 user Hequiv). unfold total_reach. by rewrite Hcount. }
    rewrite Hcount. simpl. subst n.
    destruct (IH (if decide (0 < total_reach iter s user)
                  then acc ++ [(user, total_reach iter s user)] else acc) s1)
      as (s' & -> & Hequiv'); [by eapply store_equiv_trans|].
    exists s'. split; [|done]. destruct (decide _); [|done].
    by rewrite <-app_assoc.
Qed.

Lemma top_referrers_spec (k : Z) (s : Network) :
  ∃ s', get_top_referrers iter k s =
          Some (slice_to k (sort_desc snd (positive_counts iter s)), s')
        ∧ store_equiv s s'.
Proof.
  unfold get_top_referrers.
  destruct (collect_counts_spec (iter (users s)) [] s s) as (s' & -> & Hequiv); [done|].
  by exists s'.
Qed.

Lemma elem_of_positive_counts (s : Network) (user : string) (n : nat) :
  (user, n) ∈ positive_counts iter s ↔
  user ∈ users s ∧ n = total_reach iter s user ∧ 0 < n.
Proof.
  unfold positive_counts. rewrite list_elem_of_omap. split.
  - intros (u & Hu%iter_elem & Hsome). destruct (decide _); [|done].
    injection Hsome as <- <-. done.
  - intros (Hu & -> & Hpos). exists user. split; [by apply iter_elem|].
    by rewrite decide_True.
Qed.

Lemma positive_counts_NoDup (s : Network) : NoDup (positive_counts iter s).*1.
Proof.
  unfold positive_counts. generalize (iter_NoDup (users s)).
  induction 1 as [|u us Hu Hus IH]; simpl; [constructor|].
  destruct (decide _); [|done]. simpl. constructor; [|done].
  intros ((u' & n) & -> & (u'' & Hin & Hsome)%list_elem_of_omap)%list_elem_of_fmap.
  destruct (decide _); [|done]. injection Hsome as <- <-. done.
Qed.

(** ** [_compute_shortest_paths] *)

Lemma elem_of_targets rev x y : child rev x y → y ∈ targets rev.
Proof.
  unfold child, children, targets. rewrite lookup_total_alt.
  destruct (rev !! x) as [cs|] eqn:Hx; simpl; [|set_solver].
  intros Hy. apply elem_of_union_list. exists cs. split; [|done].
  apply list_elem_of_fmap. exists (x, cs). split; [done|]. by apply elem_of_map_to_list.
Qed.

(** The inner loop: every candidate ends up with a distance, and the
    queue grows by the candidates that had none. *)
Lemma paths_push (v : nat) (l : list string) (d : gmap string nat) (q : list string) :
  ∀ d' q',
    foldl (λ '(distances, queue) candidate,
             if decide (candidate ∈ dom distances) then (distances, queue)
             else (<[candidate := v]> distances, queue ++ [candidate])) (d, q) l = (d', q') →
    dom d' = dom d ∪ list_to_set l
    ∧ length q' + size (dom d) = length q + size (dom d')
    ∧ (∀ x, x ∈ q' → x ∈ q ∨ x ∈ l).
Proof.
  revert d q. induction l as [|c l IH]; intros d q d' q'; simpl.
  - intros [= <- <-]. split_and!; [set_solver | done | by left].
  - destruct (decide (c ∈ dom d)) as [Hc|Hc]; intros Hfold.
    + destruct (IH _ _ _ _ Hfold) as (Hdom & Hlen & Hq). split_and!; [set_solver | done |].
      intros x Hx. destruct (Hq x Hx); [by left | right; by right].
    + destruct (IH _ _ _ _ Hfold) as (Hdom & Hlen & Hq).
      rewrite dom_insert_L in Hdom, Hlen. rewrite length_app in Hlen. simpl in Hlen.
      rewrite size_union in Hlen by set_solver. rewrite size_singleton in Hlen.
      split_and!; [set_solver | lia |].
      intros x Hx. destruct (Hq x Hx) as [[?| ->%list_elem_of_singleton]%elem_of_app|?];
        [by left | right; by left | right; by right].
Qed.

Lemma paths_loop_spec rev start :
  ∃ d rev',
    iterate (paths_body iter) (2 * size ({[start]} ∪ targets rev) + 2)
      (rev, {[start := 0]}, [start]) = Some (Ok d, rev')
    ∧ ∀ k, children rev' k = children rev k.
Proof.
  set (U := {[start]} ∪ targets rev).
  set (I := λ st : paths_state,
         (∀ k, children st.1.1 k = children rev k)
         ∧ dom st.1.2 ⊆ U ∧ ∀ x, x ∈ st.2 → x ∈ dom st.1.2).
  assert (∀ st, I st →
    match paths_body iter st with
    | inl st' => I st' ∧ 2 * (size U - size (dom st'.1.2)) + length st'.2
                         < 2 * (size U - size (dom st.1.2)) + length st.2
    | inr (Ok _, rv) => ∀ k, children rv k = children rev k
    | inr (Raise _, _) => False
    end) as Hbody.
  { intros [[rv d] queue] (Hch & Hdom & Hq). simpl in *.
    destruct queue as [|current queue]; [done|].
    assert (current ∈ dom d) as [cd Hcd]%elem_of_dom by (apply Hq; by left). rewrite Hcd.
    destruct (dd_get rv current) as [cs rv'] eqn:Hget.
    apply dd_get_eq in Hget as [-> Hch']. rewrite Hch.
    destruct (foldl _ _ _) as [d' q'] eqn:Hfold.
    apply paths_push in Hfold as (Hdom' & Hlen & Hq').
    assert (dom d' ⊆ U) as HU.
    { rewrite Hdom'. apply union_least; [done|]. intros y Hy%elem_of_list_to_set%iter_elem.
      apply elem_of_union_r. by eapply elem_of_targets. }
    pose proof (subseteq_size _ _ HU). pose proof (subseteq_size _ _ Hdom).
    assert (size (dom d) ≤ size (dom d')) by (apply subseteq_size; set_solver).
    split; [split_and!; simpl|simpl in *; lia].
    - intros k. by rewrite Hch'.
    - done.
    - intros x Hx. rewrite Hdom'. destruct (Hq' x Hx) as [?|?%iter_elem].
      + apply elem_of_union_l, Hq. by right.
      + apply elem_of_union_r, elem_of_list_to_set. by apply iter_elem. }
  assert (I (rev, {[start := 0]}, [start])) as Hinit.
  { split_and!; simpl; [done | | ].
    - rewrite dom_singleton_L. set_solver.
    - intros x ->%list_elem_of_singleton. rewrite dom_singleton_L. set_solver. }
  destruct (iterate_term (paths_body iter) I
              (λ st, 2 * (size U - size (dom st.1.2)) + length st.2))
    with (fuel := 2 * size U + 2) (s := (rev, ({[start := 0]} : gmap string nat), [start]))
    as [[r rev'] Hrun].
  { intros st Hst. specialize (Hbody st Hst). by destruct (paths_body iter st) as [?|[[?|?] ?]]. }
  { done. }
  { simpl. lia. }
  assert (match r with Ok _ => ∀ k, children rev' k = children rev k | Raise _ => False end)
    as Hres.
  { refine (iterate_inv (paths_body iter) I
      (λ r, match r.1 with Ok _ => ∀ k, children r.2 k = children rev k | Raise _ => False end)
      _ _ _ (r, rev') Hinit Hrun).
    intros st Hst. specialize (Hbody st Hst).
    destruct (paths_body iter st) as [?|[[?|?] ?]]; [by destruct Hbody | done | done]. }
  destruct r as [d|e]; [|done]. by exists d, rev'.
Qed.

Lemma shortest_paths_spec (s : Network) (start : string) :
  ∃ s1, _compute_shortest_paths iter start s = Some (Ok (distances_from iter s start), s1)
        ∧ store_equiv s s1.
Proof.
  unfold distances_from, _compute_shortest_paths.
  destruct (paths_loop_spec (reverse_referrals s) start) as (d & rev' & -> & Hch).
  simpl. exists (set_reverse rev' s). split; [done|]. by apply store_equiv_set_reverse.
Qed.

Lemma paths_body_equiv (st1 st2 : paths_state) :
  st1.1.2 = st2.1.2 ∧ st1.2 = st2.2 ∧ (∀ k, children st1.1.1 k = children st2.1.1 k) →
  match paths_body iter st1, paths_body iter st2 with
  | inl a, inl b => a.1.2 = b.1.2 ∧ a.2 = b.2 ∧ (∀ k, children a.1.1 k = children b.1.1 k)
  | inr a, inr b => a.1 = b.1
  | _, _ => False
  end.
Proof.
  destruct st1 as [[rv1 d] queue], st2 as [[rv2 d2] queue2]. simpl.
  intros (<- & <- & Hch).
  destruct queue as [|current queue]; [done|].
  destruct (d !! current) as [cd|]; [|done].
  destruct (dd_get rv1 current) as [cs1 rv1'] eqn:Hget1.
  destruct (dd_get rv2 current) as [cs2 rv2'] eqn:Hget2.
  apply dd_get_eq in Hget1 as [-> Hch1], Hget2 as [-> Hch2]. rewrite Hch.
  destruct (foldl _ _ _) as [d' q']. simpl. split_and!; [done..|].
  intros k. by rewrite Hch1, Hch2.
Qed.

Lemma distances_from_equiv (s s' : Network) (start : string) :
  store_equiv s s' → distances_from iter s start = distances_from iter s' start.
Proof.
  intros (_ & _ & Hch). unfold distances_from, _compute_shortest_paths.
  destruct (paths_loop_spec (reverse_referrals s) start) as (d & rev1 & Hrun & _).
  destruct (paths_loop_spec (reverse_referrals s') start) as (d' & rev1' & Hrun' & _).
  rewrite Hrun, Hrun'. simpl.
  enough (Ok d = Ok d') as [= ->] by done.
  refine (iterate_rel (paths_body iter) (paths_body iter)
    (λ st1 st2, st1.1.2 = st2.1.2 ∧ st1.2 = st2.2
                ∧ (∀ k, children st1.1.1 k = children st2.1.1 k))
    (λ r1 r2, r1.1 = r2.1)
    paths_body_equiv _ _ _ _ (Ok d, rev1) (Ok d', rev1') _ Hrun Hrun').
  by split_and!.
Qed.

(** The loop that fills [all_distances] stores the table of every user. *)
Lemma all_pairs_distances_spec (us : list string) (acc : gmap string (gmap string nat))
    (s s0 : Network) :
  store_equiv s s0 →
  ∃ all_distances s',
    all_pairs_distances iter us acc s0 = Some (Ok all_distances, s')
    ∧ store_equiv s s'
    ∧ ∀ u, all_distances !! u =
           if decide (u ∈ us) then Some (distances_from iter s u) else acc !! u.
Proof.
  revert acc s0. induction us as [|user us IH]; intros acc s0 Hequiv; cbn [all_pairs_distances].
  - exists acc, s0. split_and!; [done..|]. intros u. by rewrite decide_False by apply not_elem_of_nil.
  - destruct (shortest_paths_spec s0 user) as (s1 & -> & Hequiv1). cbn [mbind option_bind].
    rewrite <-(distances_from_equiv s s0 user Hequiv).
    destruct (IH (<[user := distances_from iter s user]> acc) s1)
      as (ad & s' & -> & Hequiv' & Hlookup); [by eapply store_equiv_trans|].
    exists ad, s'. split_and!; [done..|]. intros u. rewrite Hlookup.
    destruct (decide (u ∈ us)) as [Hu|Hu].
    + rewrite decide_True; [done | by right].
    + rewrite lookup_insert. destruct (decide (user = u)) as [->|Hne].
      * rewrite decide_True; [done | by left].
      * rewrite decide_False; [done|]. by intros [?|?]%elem_of_cons.
Qed.

(** ** [get_flow_centrality] *)

(** The test the loops make on a triple is [on_shortest_path]. *)
(** The table of the search: every entry is the length of a path from the
    start, and every user reachable from the start has an entry. *)
Lemma paths_loop_sound rev start fuel d rev' :
  iterate (paths_body iter) fuel (rev, {[start := 0]}, [start]) = Some (Ok d, rev') →
  (∀ x n, d !! x = Some n → nsteps (child rev) n start x)
  ∧ (∀ x, rtc (child rev) start x → x ∈ dom d).
Proof.
  set (I := λ st : paths_state,
         (∀ k, children st.1.1 k = children rev k)
         ∧ start ∈ dom st.1.2
         ∧ (∀ x n, st.1.2 !! x = Some n → nsteps (child rev) n start x)
         ∧ (∀ x, x ∈ dom st.1.2 → (x ∉ st.2) → ∀ y, child rev x y → y ∈ dom st.1.2)).
  set (Q := λ r : result (gmap string nat) * gmap string (gset string),
         match r.1 with
         | Ok d => start ∈ dom d
                   ∧ (∀ x n, d !! x = Some n → nsteps (child rev) n start x)
                   ∧ (∀ x y, x ∈ dom d → child rev x y → y ∈ dom d)
         | Raise _ => True
         end).
  intros Hrun.
  assert (Q (Ok d, rev')) as (Hstart & Hsound & Hclosed).
  { refine (iterate_inv (paths_body iter) I Q _ _ _ _ _ Hrun).
    - intros [[rv ds] queue] (Hch & Hst & Hsound & Hclosed). simpl in *.
      destruct queue as [|current queue].
      { unfold Q. simpl. split_and!; [done..|].
        intros x y Hx. apply Hclosed; [done|]. by intros ?%elem_of_nil. }
      destruct (ds !! current) as [cd|] eqn:Hcd; [|done].
      destruct (dd_get rv current) as [cs rv1] eqn:Hget.
      apply dd_get_eq in Hget as [-> Hch']. rewrite Hch.
      destruct (foldl _ _ _) as [d' q'] eqn:Hfold.
      pose proof (paths_push _ _ _ _ _ _ Hfold) as (Hdom' & _ & _).
      apply paths_push_lookup in Hfold as (Hnew & Hold & Hq & Hqueued).
      assert (∀ x, x ∈ dom ds → x ∈ dom d') as Hsub.
      { intros x [n Hn]%elem_of_dom. apply elem_of_dom. eauto. }
      split_and!; simpl.
      + intros k. by rewrite Hch'.
      + by apply Hsub.
      + intros x n Hx. destruct (Hnew x n Hx) as [?|[Hin ->]]; [by apply Hsound|].
        rewrite Nat.add_1_r. eapply nsteps_r; [by apply Hsound|]. by apply iter_elem in Hin.
      + intros x Hx Hnq y Hy. destruct (Hqueued x Hx) as [Hd|?]; [|done].
        destruct (decide (x = current)) as [->|Hne].
        * rewrite Hdom'. apply elem_of_union_r, elem_of_list_to_set. by apply iter_elem.
        * apply Hsub. apply (Hclosed x Hd); [|done].
          intros [?|?]%elem_of_cons; [done|]. apply Hnq. by apply Hq.
    - split_and!; simpl.
      + done.
      + rewrite dom_singleton_L. set_solver.
      + intros x n [<- <-]%lookup_singleton_Some. constructor.
      + intros x Hx Hnq. rewrite dom_singleton_L in Hx. apply elem_of_singleton in Hx as ->.
        destruct Hnq. by left. }
  split; [done|]. apply (rtc_ind_r (λ x, x ∈ dom d) start); [done|].
  intros y z _ Hyz Hy. by eapply Hclosed.
Qed.

(** In a store that satisfies the invariant, the table of the search from [u]
    holds the distance from [u] to every user reachable from [u], and no
    other entry. *)
Lemma distances_from_distance (s : Network) (u t : string) (n : nat) :
  store_inv s → distances_from iter s u !! t = Some n ↔ distance s u t n.
Proof.
  intros Hinv. rewrite distance_nsteps by done.
  unfold distances_from, _compute_shortest_paths.
  destruct (paths_loop_spec (reverse_referrals s) u) as (d & rev' & Hrun & _).
  rewrite Hrun. simpl. apply paths_loop_sound in Hrun as [Hsound Hreach]. split; [by apply Hsound|].
  intros Hn. assert (t ∈ dom d) as [m Hm]%elem_of_dom by (by eapply Hreach, rtc_nsteps_2).
  rewrite Hm. f_equal. eapply nsteps_child_unique; [done | by apply Hsound | done].
Qed.

Lemma on_shortest_path_lies_between (s : Network) (v : string) (ab : string * string) :
  store_inv s → on_shortest_path iter s v ab ↔ lies_between s v ab.
Proof.
  intros Hinv. unfold on_shortest_path, lies_between.
  do 3 (apply and_iff_compat_l). split.
  - destruct (distances_from iter s ab.1 !! ab.2) as [d_ab|] eqn:Hab; [|done].
    destruct (distances_from iter s ab.1 !! v) as [d_av|] eqn:Hav; [|done].
    destruct (distances_from iter s v !! ab.2) as [d_vb|] eqn:Hvb; [|done].
    intros Hsum. exists d_ab, d_av, d_vb.
    by rewrite <-!distances_from_distance.
  - intros (d_ab & d_av & d_vb & Hab & Hav & Hvb & Hsum).
    apply distances_from_distance in Hab, Hav, Hvb; [|done..].
    by rewrite Hab, Hav, Hvb.
Qed.

Lemma flow_score_counts_pairs (s : Network) (v : string) :
  store_inv s → counts_pairs s v (flow_score iter s v).
Proof.
  intros Hinv. exists (filter (on_shortest_path iter s v) (cprod (users s) (users s))).
  split; [|done]. intros [a b]. rewrite elem_of_filter, elem_of_gset_cprod.
  rewrite on_shortest_path_lies_between by done. simpl. tauto.
Qed.

Lemma is_on_shortest_path_iff (s : Network) (u1 u2 v : string) :
  u2 ∈ dom (distances_from iter s u1) ∧ ¬ (v = u1 ∨ v = u2)
  ∧ _is_on_shortest_path u1 u2 v (distances_from iter s u1) (distances_from iter s v) = true
  ↔ on_shortest_path iter s v (u1, u2).
Proof.
  unfold _is_on_shortest_path, on_shortest_path. simpl.
  rewrite !elem_of_dom.
  destruct (decide (u1 = u2 ∨ u1 = v ∨ u2 = v)) as [Heq|Hne].
  { split; [by intros (_ & _ & ?)|]. intros (? & ? & ? & _). exfalso. naive_solver. }
  destruct (decide (u2 ∉ dom (distances_from iter s u1))) as [H1|H1];
    [|apply dec_stable in H1];
    rewrite elem_of_dom in H1.
  { split; [by intros (_ & _ & ?)|]. intros (_ & _ & _ & Hm). exfalso. apply H1.
    by destruct (distances_from iter s u1 !! u2). }
  destruct (decide (v ∉ dom (distances_from iter s u1))) as [H2|H2];
    [|apply dec_stable in H2];
    rewrite elem_of_dom in H2.
  { split; [by intros (_ & _ & ?)|]. intros (_ & _ & _ & Hm). exfalso. apply H2.
    destruct (distances_from iter s u1 !! u2); [|done].
    by destruct (distances_from iter s u1 !! v). }
  destruct (decide (u2 ∉ dom (distances_from iter s v))) as [H3|H3];
    [|apply dec_stable in H3];
    rewrite elem_of_dom in H3.
  { split; [by intros (_ & _ & ?)|]. intros (_ & _ & _ & Hm). exfalso. apply H3.
    destruct (distances_from iter s u1 !! u2); [|done].
    destruct (distances_from iter s u1 !! v); [|done].
    by destruct (distances_from iter s v !! u2). }
  destruct H1 as [d12 ->], H2 as [d1v ->], H3 as [dv2 ->].
  rewrite bool_decide_eq_true. naive_solver.
Qed.

Section scores.
Variable s : Network.
Variable us : list string.
Variable all_distances : gmap string (gmap string nat).
Hypothesis us_NoDup : NoDup us.
Hypothesis all_distances_lookup :
  ∀ u, u ∈ us → all_distances !! u = Some (distances_from iter s u).

Lemma score_pair_adds (u1 u2 : string) :
  u1 ∈ us →
  adds (list_to_set us) (score_pair us all_distances u1 u2)
    (λ v, if decide (v ∈ us ∧ on_shortest_path iter s v (u1, u2)) then 1 else 0).
Proof.
  intros Hu1. unfold score_pair, find. rewrite (all_distances_lookup u1 Hu1).
  destruct (decide (u2 ∈ dom (distances_from iter s u1))) as [Hu2|Hu2].
  - eapply adds_ext; [|apply (for_each_adds _ _ _
      (λ x v, if decide (v = x ∧ (¬ (x = u1 ∨ x = u2)
                ∧ _is_on_shortest_path u1 u2 x (distances_from iter s u1)
                    (distances_from iter s x) = true)) then 1 else 0))].
    + intros v. simpl. rewrite sum_indicator_NoDup by done.
      pose proof (is_on_shortest_path_iff s u1 u2 v) as Hiff.
      destruct (decide (v ∈ us ∧ _)) as [[? ?]|Hno], (decide (v ∈ us ∧ _)) as [[? ?]|Hno'];
        try done; exfalso; tauto.
    + intros x Hx sc Hsc. simpl.
      destruct (decide (x = u1 ∨ x = u2)) as [Heq|Hne].
      { exists sc. split_and!; [done..|]. intros v. rewrite decide_False; [lia | tauto]. }
      rewrite (all_distances_lookup x Hx).
      destruct (_is_on_shortest_path _ _ _ _ _) eqn:Hpath.
      * assert (x ∈ dom sc) as [c Hc]%elem_of_dom.
        { apply Hsc, elem_of_list_to_set, Hx. }
        rewrite Hc. eexists. split_and!; [done | |].
        -- rewrite dom_insert_L. apply (elem_of_dom_2 (D := gset string)) in Hc. set_solver.
        -- intros v. destruct (decide (v = x)) as [->|Hv].
           ++ rewrite lookup_total_insert_eq, decide_True by done.
              by rewrite (lookup_total_correct _ _ _ Hc).
           ++ rewrite lookup_total_insert_ne by done. rewrite decide_False; [lia | tauto].
      * exists sc. split_and!; [done..|]. intros v. rewrite decide_False; [lia|].
        intros (_ & _ & ?). congruence.
  - eapply adds_ext; [|apply adds_skip]. intros v. simpl.
    rewrite decide_False; [done|]. intros [_ Hosp%is_on_shortest_path_iff]. tauto.
Qed.

Lemma score_all_adds :
  adds (list_to_set us) (score_all us all_distances)
    (λ v, length (filter (λ ab, v ∈ us ∧ on_shortest_path iter s v ab) (cprod us us))).
Proof.
  unfold score_all.
  eapply adds_ext; [|apply (for_each_adds _ _ _
    (λ x v, sum_list_with
              (λ u2, if decide (v ∈ us ∧ on_shortest_path iter s v (x.2, u2)) then 1 else 0)
              us))].
  - intros v. simpl.
    rewrite <-(sum_indicator_filter (λ ab, v ∈ us ∧ on_shortest_path iter s v ab)).
    rewrite <-(sum_list_with_cprod
      (λ ab, if decide (v ∈ us ∧ on_shortest_path iter s v ab) then 1 else 0)).
    etrans; [|apply sum_list_with_enumerate]. done.
  - intros [i u1] [i' [u1' [[= <- <-] Hi]]]%elem_of_lookup_imap. simpl.
    eapply adds_ext; [|apply (for_each_adds _ _ _
      (λ x v, if decide (v ∈ us ∧ on_shortest_path iter s v (u1, x.2)) then 1 else 0))].
    + intros v. simpl. etrans; [|apply sum_list_with_enumerate]. done.
    + intros [j u2] [j' [u2' [[= <- <-] Hj]]]%elem_of_lookup_imap. simpl.
      destruct (decide (i = j)) as [->|Hij].
      * eapply adds_ext; [|apply adds_skip]. intros v. simpl.
        rewrite decide_False; [done|]. intros [_ (Hne & _)]. simpl in Hne. congruence.
      * apply score_pair_adds. by eapply list_elem_of_lookup_2.
Qed.

End scores.

Lemma items_total (us : list string) (sc : gmap string nat) :
  list_to_set us ⊆ dom sc → items us sc = (λ u, (u, sc !!! u)) <$> us.
Proof.
  intros Hdom. unfold items. induction us as [|u us IH]; [done|].
  simpl. assert (u ∈ dom sc) as [c Hc]%elem_of_dom by set_solver.
  rewrite Hc. simpl. rewrite (lookup_total_correct _ _ _ Hc). f_equal. apply IH. set_solver.
Qed.

(** The count over the list of users is the count over the set. *)
Lemma flow_score_length (s : Network) (v : string) :
  length (filter (on_shortest_path iter s v) (cprod (iter (users s)) (iter (users s)))) =
  flow_score iter s v.
Proof.
  unfold flow_score, size, set_size. simpl. apply Permutation_length.
  apply NoDup_Permutation.
  - apply NoDup_filter, NoDup_list_cprod; apply iter_NoDup.
  - apply NoDup_elements.
  - intros [a b]. rewrite elem_of_elements, elem_of_filter, list_elem_of_filter.
    rewrite list_elem_of_cprod, elem_of_gset_cprod, !iter_elem. done.
Qed.

Lemma flow_centrality_spec (s : Network) :
  ∃ l s', get_flow_centrality iter s = Some (Ok l, s')
    ∧ (size (users s) < 3 → l = [])
    ∧ (3 ≤ size (users s) → l ≡ₚ (λ v, (v, flow_score iter s v)) <$> elements (users s))
    ∧ StronglySorted (λ a b, b.2 ≤ a.2) l.
Proof.
  unfold get_flow_centrality. destruct (decide (size (users s) < 3)) as [Hlt|Hge].
  { exists [], s. split_and!; [done | done | lia | constructor]. }
  destruct (all_pairs_distances_spec (iter (users s)) ∅ s s) as (ad & s' & -> & _ & Had); [done|].
  cbn [mbind option_bind].
  set (sc0 := list_to_map ((λ user, (user, 0)) <$> iter (users s)) : gmap string nat).
  assert (dom sc0 = list_to_set (iter (users s))) as Hdom0.
  { unfold sc0. rewrite dom_list_to_map_L, <-list_fmap_compose. by rewrite list_fmap_id. }
  assert (∀ v, sc0 !!! v = 0) as Hzero.
  { intros v. rewrite lookup_total_alt. destruct (sc0 !! v) as [c|] eqn:Hc; [|done].
    apply elem_of_list_to_map_2 in Hc.
    by apply list_elem_of_fmap in Hc as (u & [= _ ->] & _). }
  destruct (score_all_adds s (iter (users s)) ad (iter_NoDup _)
              (λ u Hu, eq_trans (Had u) (decide_True _ _ Hu)) sc0) as (sc & -> & Hdom & Hsc).
  { by rewrite Hdom0. }
  eexists _, s'. split; [done|]. split_and!; [done | | apply sort_desc_sorted].
  intros _. rewrite sort_desc_perm, items_total by (by rewrite Hdom, Hdom0).
  rewrite <-(iter_perm (users s)).
  erewrite list_fmap_ext; [done|].
  intros i v Hv%list_elem_of_lookup_2. simpl. rewrite Hsc, Hzero. simpl. f_equal.
  rewrite <-flow_score_length. f_equal. apply list_filter_iff. intros ab. tauto.
Qed.

Lemma positive_counts_length (s : Network) :
  length (positive_counts iter s) =
  size (filter (λ user, 0 < total_reach iter s user) (users s)).
Proof.
  rewrite <-(length_fmap fst). unfold size, set_size. simpl. apply Permutation_length.
  apply NoDup_Permutation; [apply positive_counts_NoDup | apply NoDup_elements |].
  intros user. rewrite elem_of_elements, elem_of_filter, list_elem_of_fmap. split.
  - intros ([u n] & -> & (? & -> & ?)%elem_of_positive_counts). done.
  - intros [Hpos Hu]. exists (user, total_reach iter s user). split; [done|].
    by apply elem_of_positive_counts.
Qed.

(** C3. In every store that a sequence of [add_referral] calls leaves,
    and for every user, known or not, [get_total_referral_count] and
    [_get_reachable_users] both return, and the count is the number of
    elements of the set. *)
Theorem total_reach_is_reachable_size (calls : list (string * string)) (user : string) :
  ∃ s n R s1 s2,
    run iter calls empty_network = Some s
    ∧ get_total_referral_count iter user s = Some (n, s1)
    ∧ _get_reachable_users iter user s = Some (R, s2)
    ∧ n = size R.
Proof.
  destruct (run_spec calls empty_network store_inv_empty) as (s & Hrun & Hinv).
  destruct (total_count_reach_size s user Hinv) as (n & R & s1 & s2 & ? & ? & ?).
  by exists s, n, R, s1, s2.
Qed.

(** X21. What [get_top_referrers] returns.  On every store and for every
    [k] the call returns; every entry pairs a user of positive total
    reach with that reach, and the entries are in descending order of
    reach; [k = 0] gives the empty list; a [k] at least the number of
    users of positive total reach gives each of them exactly once. *)
Theorem top_referrers_ranking (s : Network) (k : Z) :
  ∃ l s', get_top_referrers iter k s = Some (l, s')
    ∧ (k = 0%Z → l = [])
    ∧ (∀ user n, (user, n) ∈ l →
         user ∈ users s ∧ n = total_reach iter s user ∧ 0 < n)
    ∧ StronglySorted (λ a b, b.2 ≤ a.2) l
    ∧ ((Z.of_nat (size (filter (λ user, (0 < total_reach iter s user)%nat) (users s))) ≤ k)%Z →
         NoDup l.*1
         ∧ ∀ user n, (user, n) ∈ l ↔
             user ∈ users s ∧ n = total_reach iter s user ∧ 0 < n).
Proof.
  destruct (top_referrers_spec k s) as (s' & Htop & _).
  eexists _, s'. split; [exact Htop|]. split_and!.
  - by intros ->.
  - intros user n Hin. apply elem_of_positive_counts.
    rewrite <-(sort_desc_perm snd). by eapply slice_to_subseteq.
  - apply slice_to_sorted, sort_desc_sorted.
  - intros Hk. rewrite slice_to_all.
    + split.
      * rewrite sort_desc_perm. apply positive_counts_NoDup.
      * intros user n. rewrite sort_desc_perm. apply elem_of_positive_counts.
    + by rewrite (Permutation_length (sort_desc_perm snd _)), positive_counts_length.
Qed.

End graph_facts.

(** ** Stores on which the order of iteration plays no part *)

Section small_fanout.
Variable iter : gset string → list string.
Hypothesis iter_perm : ∀ X, iter X ≡ₚ elements X.

Lemma iter_small (X : gset string) : size X ≤ 1 → iter X = elements X.
Proof.
  intros Hsize. pose proof (iter_perm X) as Hperm.
  unfold size, set_size in Hsize. simpl in Hsize.
  destruct (elements X) as [|x [|y l]]; [| |simpl in Hsize; lia].
  - by apply Permutation_nil_r.
  - by apply Permutation_singleton_r.
Qed.

Lemma small_fanout_Forall (rev : gmap string (gset string)) :
  map_Forall (λ _ cs, size cs ≤ 1) rev → small_fanout rev.
Proof.
  intros Hall k. unfold children. rewrite lookup_total_alt.
  destruct (rev !! k) as [cs|] eqn:Hk; simpl; [by eapply Hall |].
  change (size (∅ : gset string) ≤ 1). rewrite size_empty. lia.
Qed.

Lemma cycle_small_ext rev referrer fuel candidate :
  small_fanout rev →
  iterate (cycle_body iter referrer) fuel (rev, ∅, [candidate]) =
  iterate (cycle_body elements referrer) fuel (rev, ∅, [candidate]).
Proof.
  intros Hsmall.
  apply (iterate_ext_inv _ _ (λ st, ∀ k, children st.1.1 k = children rev k)); [| |done].
  - intros [[rv V] stack] Hch. simpl in *. destruct stack as [|current stack]; [done|].
    destruct (decide _); [done|]. destruct (decide _); [done|].
    destruct (dd_get rv current) as [cs rv'] eqn:Hget. apply dd_get_eq in Hget as [-> _].
    rewrite iter_small; [done|]. rewrite Hch. apply Hsmall.
  - intros [[rv V] stack] Hch. simpl in *. destruct stack as [|current stack]; [done|].
    destruct (decide _); [done|]. destruct (decide _); [done|].
    destruct (dd_get rv current) as [cs rv'] eqn:Hget. apply dd_get_eq in Hget as [-> Hch'].
    simpl. intros k. by rewrite Hch'.
Qed.

Lemma add_referral_small_ext (s : Network) (referrer candidate : string) :
  small_fanout (reverse_referrals s) →
  add_referral iter referrer candidate s = add_referral elements referrer candidate s.
Proof.
  intros Hsmall. unfold add_referral, _would_create_cycle.
  by rewrite cycle_small_ext.
Qed.

Lemma paths_small_ext (s : Network) (start : string) :
  small_fanout (reverse_referrals s) →
  distances_from iter s start = distances_from elements s start.
Proof.
  intros Hsmall. unfold distances_from, _compute_shortest_paths.
  rewrite (iterate_ext_inv (paths_body iter) (paths_body elements)
    (λ st, ∀ k, children st.1.1 k = children (reverse_referrals s) k)); [done| | |done].
  - intros [[rv d] queue] Hch. simpl in *. destruct queue as [|current queue]; [done|].
    destruct (d !! current); [|done].
    destruct (dd_get rv current) as [cs rv'] eqn:Hget. apply dd_get_eq in Hget as [-> _].
    rewrite iter_small; [done|]. rewrite Hch. apply Hsmall.
  - intros [[rv d] queue] Hch. simpl in *. destruct queue as [|current queue]; [done|].
    destruct (d !! current); [|done].
    destruct (dd_get rv current) as [cs rv'] eqn:Hget. apply dd_get_eq in Hget as [-> Hch'].
    destruct (foldl _ _ _). simpl. intros k. by rewrite Hch'.
Qed.

Lemma flow_score_small_ext (s : Network) (v : string) :
  small_fanout (reverse_referrals s) → flow_score iter s v = flow_score elements s v.
Proof.
  intros Hsmall. unfold flow_score. f_equal. apply set_eq. intros ab.
  rewrite !elem_of_filter. unfold on_shortest_path.
  by rewrite !paths_small_ext.
Qed.

(** The chain is built the same way whatever the order of iteration. *)
Lemma run_chain_ABC : run iter [("A", "B"); ("B", "C")] empty_network = Some chain_ABC.
Proof.
  cbn [run]. rewrite add_referral_small_ext.
  - destruct (add_referral elements "A" "B" empty_network) as [[r s1]|] eqn:Hadd;
      [|by vm_compute in Hadd].
    cbn [mbind option_bind]. rewrite add_referral_small_ext.
    + assert (run elements [("A", "B"); ("B", "C")] empty_network
              = (add_referral elements "B" "C" s1 ≫= λ '(_, s), Some s)) as Hrun.
      { cbn [run]. by rewrite Hadd. }
      assert (run elements [("A", "B"); ("B", "C")] empty_network = Some chain_ABC) as Hs2.
      { unfold chain_ABC.
        destruct (run elements [("A", "B"); ("B", "C")] empty_network) eqn:E; [done|].
        by vm_compute in E. }
      rewrite <-Hs2, Hrun. done.
    + assert (s1 = (default (Ok true, empty_network)
                      (add_referral elements "A" "B" empty_network)).2) as ->
        by (by rewrite Hadd).
      apply small_fanout_Forall. apply (bool_decide_unpack _). by vm_compute.
  - apply small_fanout_Forall. apply (bool_decide_unpack _). by vm_compute.
Qed.

Lemma chain_ABC_small : small_fanout (reverse_referrals chain_ABC).
Proof. apply small_fanout_Forall. apply (bool_decide_unpack _). by vm_compute. Qed.

End small_fanout.

(** C6. In every store that a sequence of [add_referral] calls leaves,
    [get_flow_centrality] returns the empty list when there are fewer than
    three users; otherwise it returns every user exactly once, paired with
    the number of ordered pairs of users [(a, b)], [a ≠ b], both different
    from that user [v], such that [b] and [v] are reachable from [a], [b] is
    reachable from [v], and [d(a,v) + d(v,b) = d(a,b)], where [d] is the
    least number of links of a path; the list is sorted by score, highest
    first.  On the chain A, B, C the score of B is 1 and the scores of A and
    C are 0. *)
Theorem flow_centrality_scores (iter : gset string → list string)
    (calls : list (string * string)) :
  (∀ X, iter X ≡ₚ elements X) →
  (∃ s l s',
     run iter calls empty_network = Some s
     ∧ get_flow_centrality iter s = Some (Ok l, s')
     ∧ (size (users s) < 3 → l = [])
     ∧ (3 ≤ size (users s) →
          l.*1 ≡ₚ elements (users s) ∧ ∀ v n, (v, n) ∈ l → counts_pairs s v n)
     ∧ StronglySorted (λ a b, b.2 ≤ a.2) l)
  ∧ (∃ s l s',
       run iter [("A", "B"); ("B", "C")] empty_network = Some s
       ∧ get_flow_centrality iter s = Some (Ok l, s')
       ∧ l ≡ₚ [("B", 1); ("A", 0); ("C", 0)]).
Proof.
  intros Hperm. split.
  - destruct (run_spec iter Hperm calls empty_network store_inv_empty) as (s & Hrun & Hinv).
    destruct (flow_centrality_spec iter Hperm s) as (l & s' & Hflow & Hfew & Hall & Hsorted).
    exists s, l, s'. split_and!; [done..| |done].
    intros Hsize. specialize (Hall Hsize). split.
    + rewrite Hall, <-list_fmap_compose. by rewrite (list_fmap_id (elements (users s))).
    + intros v n Hvn. rewrite Hall in Hvn.
      apply list_elem_of_fmap in Hvn as (u & [= -> ->] & _).
      by apply flow_score_counts_pairs.
  - destruct (flow_centrality_spec iter Hperm chain_ABC) as (l & s' & Hflow & _ & Hall & _).
    exists chain_ABC, l, s'. split_and!; [by apply run_chain_ABC | done |].
    rewrite Hall by (vm_compute; lia).
    erewrite list_fmap_ext;
      [|intros i v _; rewrite (flow_score_small_ext iter Hperm chain_ABC v chain_ABC_small);
        reflexivity].
    assert ((λ v, (v, flow_score elements chain_ABC v)) <$> elements (users chain_ABC)
            = [("C", 0); ("A", 0); ("B", 1)]) as -> by (vm_compute; reflexivity).
    etrans; [apply Permutation_swap|]. etrans; [apply perm_skip, Permutation_swap|].
    apply Permutation_swap.
Qed.

Lemma elements_iter_perm (X : gset string) : elements X ≡ₚ elements X.
Proof. done. Qed.

Lemma add_referral_keeps_forest_witness :
  ∃ s, run elements [("A", "B"); ("B", "C")] empty_network = Some s
       ∧ forest s
       ∧ ∀ referrer candidate,
           referrer = candidate ∨ candidate ∈ dom (referrals s)
           ∨ rtc (edge s) referrer candidate →
           ∃ e, add_referral elements referrer candidate s = Some (Raise e, s).
Proof.
  exact (add_referral_keeps_forest elements elements_iter_perm [("A", "B"); ("B", "C")]).
Defined.

Lemma add_referral_atomic_witness :
  store_inv empty_network
  ∧ ∃ res s', add_referral elements "A" "B" empty_network = Some (res, s')
    ∧ match res with
      | Raise _ => s' = empty_network
      | Ok _ =>
          referrals s' = <["B" := "A"]> (referrals empty_network)
          ∧ (∀ k, children (reverse_referrals s') k =
                  if decide ("A" = k)
                  then children (reverse_referrals empty_network) k ∪ {["B"]}
                  else children (reverse_referrals empty_network) k)
          ∧ users s' = users empty_network ∪ {["A"]} ∪ {["B"]}
      end.
Proof.
  split; [exact store_inv_empty|].
  exact (add_referral_atomic elements elements_iter_perm empty_network "A" "B" store_inv_empty).
Defined.

Lemma total_reach_is_reachable_size_witness :
  ∃ s n R s1 s2,
    run elements [("A", "B"); ("B", "C")] empty_network = Some s
    ∧ get_total_referral_count elements "A" s = Some (n, s1)
    ∧ _get_reachable_users elements "A" s = Some (R, s2)
    ∧ n = size R.
Proof.
  exact (total_reach_is_reachable_size elements elements_iter_perm [("A", "B"); ("B", "C")] "A").
Defined.

Lemma flow_centrality_scores_witness :
  (∃ s l s',
     run elements [("A", "B"); ("B", "C"); ("A", "D")] empty_network = Some s
     ∧ get_flow_centrality elements s = Some (Ok l, s')
     ∧ (size (users s) < 3 → l = [])
     ∧ (3 ≤ size (users s) →
          l.*1 ≡ₚ elements (users s) ∧ ∀ v n, (v, n) ∈ l → counts_pairs s v n)
     ∧ StronglySorted (λ a b, b.2 ≤ a.2) l)
  ∧ (∃ s l s',
       run elements [("A", "B"); ("B", "C")] empty_network = Some s
       ∧ get_flow_centrality elements s = Some (Ok l, s')
       ∧ l ≡ₚ [("B", 1); ("A", 0); ("C", 0)]).
Proof.
  exact (flow_centrality_scores elements [("A", "B"); ("B", "C"); ("A", "D")]
           elements_iter_perm).
Defined.

(** C7. On the chain alice, bob, charlie the ranking is alice with a
    reach of 2, then bob with a reach of 1, and [k = 0] gives the empty
    list; for [k = -1] the claim asks for the empty list too, and
    [get_top_referrers] returns alice with her reach: the slice
    [referrer_counts[:k]] drops the last entry instead. *)
Theorem top_referrers_negative_k :
  fst <$> get_top_referrers elements 2 chain_store = Some [("alice", 2); ("bob", 1)]
  ∧ fst <$> get_top_referrers elements 0 chain_store = Some []
  ∧ fst <$> get_top_referrers elements (-1) chain_store = Some [("alice", 2)].
Proof. split_and!; vm_compute; reflexivity. Qed.

Lemma top_referrers_ranking_witness :
  ∃ l s', get_top_referrers elements 5 chain_store = Some (l, s')
    ∧ (5 = 0 → l = [])%Z
    ∧ (∀ user n, (user, n) ∈ l →
         user ∈ users chain_store ∧ n = total_reach elements chain_store user ∧ 0 < n)
    ∧ StronglySorted (λ a b, b.2 ≤ a.2) l
    ∧ ((Z.of_nat (size (filter (λ user, (0 < total_reach elements chain_store user)%nat)
                          (users chain_store))) ≤ 5)%Z →
         NoDup l.*1
         ∧ ∀ user n, (user, n) ∈ l ↔
             user ∈ users chain_store ∧ n = total_reach elements chain_store user ∧ 0 < n).
Proof. exact (top_referrers_ranking elements elements_iter_perm chain_store 5). Defined.
(** * Further facts about the referral graph *)

(** ** Insertion-ordered dictionaries *)

Lemma odict_set_fresh {V} (k : string) (v : V) (d : list (string * V)) :
  k ∉ d.*1 → odict_set k v d = d ++ [(k, v)].
Proof.
  induction d as [|[k' v'] d IH]; intros Hk; simpl; [done|].
  rewrite fmap_cons, not_elem_of_cons in Hk. destruct Hk as [Hne Hk].
  destruct (decide (k = k')); [done|]. by rewrite IH.
Qed.

Lemma odict_get_elem {V} (k : string) (v : V) (d : list (string * V)) :
  NoDup d.*1 → (k, v) ∈ d → odict_get k d = Some v.
Proof.
  induction d as [|[k' v'] d IH]; intros Hnd Hin; [by apply elem_of_nil in Hin|].
  rewrite fmap_cons in Hnd. apply NoDup_cons in Hnd as [Hfresh Hnd]. simpl in *.
  apply elem_of_cons in Hin as [[= <- <-]|Hin]; [by rewrite decide_True|].
  destruct (decide (k = k')) as [<-|Hne]; [|by apply IH].
  destruct Hfresh. apply list_elem_of_fmap. by exists (k, v).
Qed.

Lemma odict_del_elem {V} (k : string) (d : list (string * V)) (kv : string * V) :
  NoDup d.*1 → kv ∈ odict_del k d ↔ kv ∈ d ∧ kv.1 ≠ k.
Proof.
  induction d as [|[k' v'] d IH]; intros Hnd; simpl.
  { split; [intros []%elem_of_nil | intros [[]%elem_of_nil _]]. }
  rewrite fmap_cons in Hnd. apply NoDup_cons in Hnd as [Hfresh Hnd]. simpl in *.
  destruct (decide (k = k')) as [<-|Hne]; rewrite ?elem_of_cons.
  - split.
    + intros Hin. split; [by right|]. intros Heq. apply Hfresh.
      apply list_elem_of_fmap. by exists kv.
    + intros [[->|Hin] Hk]; [done | done].
  - rewrite IH by done. split.
    + intros [->|[? ?]]; [split; [by left | by intros <-] | split; [by right | done]].
    + intros [[->|Hin] Hk]; [by left | by right].
Qed.

Lemma odict_del_keys {V} (k : string) (d : list (string * V)) (k' : string) :
  k' ∈ (odict_del k d).*1 → k' ∈ d.*1.
Proof.
  induction d as [|[k0 v0] d IH]; simpl; [done|].
  destruct (decide (k = k0)); rewrite ?fmap_cons, ?elem_of_cons; [by right|].
  intros [->|?]; [by left | right; by apply IH].
Qed.

Lemma odict_del_NoDup {V} (k : string) (d : list (string * V)) :
  NoDup d.*1 → NoDup (odict_del k d).*1.
Proof.
  induction d as [|[k0 v0] d IH]; simpl; [done|].
  intros [Hfresh Hnd]%NoDup_cons.
  destruct (decide (k = k0)); [done|]. simpl. apply NoDup_cons. split; [|by apply IH].
  intros Hin. by apply Hfresh, (odict_del_keys k).
Qed.

Lemma odict_del_fresh {V} (k : string) (d : list (string * V)) :
  NoDup d.*1 → k ∉ (odict_del k d).*1.
Proof.
  intros Hnd [kv [-> Hin]]%list_elem_of_fmap. by apply odict_del_elem in Hin as [_ ?].
Qed.

Lemma odict_del_length {V} (k : string) (d : list (string * V)) :
  k ∈ d.*1 → S (length (odict_del k d)) = length d.
Proof.
  induction d as [|[k0 v0] d IH]; simpl; [by intros ?%elem_of_nil|].
  destruct (decide (k = k0)); [done|]. rewrite elem_of_cons. intros [?|Hin]; [done|].
  simpl. by rewrite IH.
Qed.

(** ** The greedy choice *)

Lemma best_coverage_spec (ur : list (string * gset string)) (rem : gset string) :
  (∀ u r, (u, r) ∈ ur → size (r ∩ rem) ≤ (best_coverage ur rem).2)
  ∧ match (best_coverage ur rem).1 with
    | None => (best_coverage ur rem).2 = 0
    | Some u => 0 < (best_coverage ur rem).2
                ∧ ∃ r, (u, r) ∈ ur ∧ (best_coverage ur rem).2 = size (r ∩ rem)
    end.
Proof.
  unfold best_coverage. induction ur as [|[u r] ur IH] using rev_ind; simpl.
  { split; [by intros ?? ?%elem_of_nil | done]. }
  rewrite foldl_app. simpl.
  destruct (foldl _ _ ur) as [bu bc] eqn:Hfold. simpl in IH. destruct IH as [Hmax Hbest].
  destruct (decide (bc < size (r ∩ rem))) as [Hlt|Hge]; simpl.
  - split.
    + intros u' r' [Hin|[= -> ->]%list_elem_of_singleton]%elem_of_app; [|done].
      specialize (Hmax u' r' Hin). lia.
    + split; [lia|]. exists r. split; [|done]. apply elem_of_app. right. by left.
  - split.
    + intros u' r' [Hin|[= -> ->]%list_elem_of_singleton]%elem_of_app; [by apply (Hmax u') | lia].
    + destruct bu as [b|]; [|done]. destruct Hbest as (Hpos & r' & Hin & Heq).
      split; [done|]. exists r'. split; [|done]. apply elem_of_app. by left.
Qed.

Lemma size_difference_inter (X Y : gset string) : size (X ∖ Y) + size (Y ∩ X) = size X.
Proof.
  rewrite <-size_union by set_solver. f_equal. apply set_eq. intros x.
  destruct (decide (x ∈ Y)); set_solver.
Qed.

(** One round of the greedy loop keeps the invariant and removes an entry;
    the loop only leaves when everything is covered. *)
Lemma expansion_body_inv ur0 (st : expansion_state) :
  expansion_inv ur0 st →
  match expansion_body st with
  | inl st' => expansion_inv ur0 st' ∧ length st'.1.1 < length st.1.1
  | inr (Ok sel) => expansion_post ur0 sel
  | inr (Raise _) => False
  end.
Proof.
  destruct st as [[ur rem] sel]. intros (Hnd & Hsub & Hcover & Hsum & Hsel & Hdisj & Hpos).
  unfold expansion_body.
  assert (rem = ∅ → expansion_post ur0 sel) as Hdone.
  { intros ->. rewrite size_empty, Nat.add_0_r in Hsum. done. }
  destruct (decide (rem = ∅ ∨ ur = [])) as [[->| ->]|Hgo]; [by apply Hdone | |].
  { apply Hdone. simpl in Hcover. set_solver. }
  pose proof (best_coverage_spec ur rem) as [Hmax Hbest].
  destruct (best_coverage ur rem) as [bu bc]. simpl in Hmax, Hbest.
  assert (0 < bc) as Hbc.
  { destruct (set_choose_L rem) as [x Hx]; [tauto|].
    pose proof (Hcover x Hx) as (r & Hr & Hxr)%elem_of_union_list.
    apply list_elem_of_fmap in Hr as ([u r'] & -> & Hin). simpl in Hxr.
    specialize (Hmax u r' Hin).
    assert (size (r' ∩ rem) ≠ 0); [|lia]. intros Hz%size_empty_inv. set_solver. }
  destruct bu as [u|]; [|lia]. destruct Hbest as (_ & r & Hin & ->).
  destruct (decide (size (r ∩ rem) = 0)) as [|_]; [lia|].
  rewrite (odict_get_elem u r ur Hnd Hin).
  assert (u ∈ ur.*1) as Hu by (apply list_elem_of_fmap; by exists (u, r)).
  split; [|simpl; rewrite <-(odict_del_length u ur Hu); lia].
  split_and!.
  - by apply odict_del_NoDup.
  - intros kv [? _]%odict_del_elem; [|done]. by apply Hsub.
  - intros x [Hx Hxr]%elem_of_difference.
    pose proof (Hcover x Hx) as (r' & Hr' & Hxr')%elem_of_union_list.
    apply list_elem_of_fmap in Hr' as ([u' r''] & -> & Hin'). simpl in Hxr'.
    apply elem_of_union_list. exists r''. split; [|done].
    apply list_elem_of_fmap. exists (u', r''). split; [done|].
    apply odict_del_elem; [done|]. split; [done|]. simpl. intros ->.
    assert (r'' = r) as ->; [|done].
    pose proof (odict_get_elem u r ur Hnd Hin) as H1.
    pose proof (odict_get_elem u r'' ur Hnd Hin') as H2. congruence.
  - rewrite sum_list_with_app. simpl.
    pose proof (size_difference_inter rem r). lia.
  - rewrite fmap_app. apply NoDup_app. split_and!; [done | | apply NoDup_singleton].
    intros k Hk ->%list_elem_of_singleton. by apply (Hdisj u).
  - intros k. rewrite fmap_app, elem_of_app. intros [Hk| ->%list_elem_of_singleton].
    + intros Hk'%odict_del_keys. by apply (Hdisj k).
    + by apply odict_del_fresh.
  - intros k n [Hk|[= -> ->]%list_elem_of_singleton]%elem_of_app; [by apply Hpos|].
    split; [lia|]. exists r. split; [by apply Hsub|]. apply subseteq_size. set_solver.
Qed.

Lemma expansion_loop_spec (ur0 : list (string * gset string)) :
  NoDup ur0.*1 →
  ∃ sel, iterate expansion_body (S (length ur0)) (ur0, ⋃ ur0.*2, []) = Some (Ok sel)
         ∧ expansion_post ur0 sel.
Proof.
  intros Hnd.
  assert (expansion_inv ur0 (ur0, ⋃ ur0.*2, [])) as Hinit.
  { split_and!; simpl; [done | done | done | lia | constructor | by intros ? ?%elem_of_nil |].
    by intros ?? ?%elem_of_nil. }
  destruct (iterate_term expansion_body (expansion_inv ur0) (λ st, length st.1.1))
    with (fuel := S (length ur0)) (s := (ur0, ⋃ ur0.*2, [] : list (string * nat)))
    as [r Hrun].
  { intros st Hst. pose proof (expansion_body_inv ur0 st Hst) as Hbody.
    by destruct (expansion_body st). }
  { done. }
  { simpl. lia. }
  assert (match r with Ok sel => expansion_post ur0 sel | Raise _ => False end) as Hres.
  { refine (iterate_inv expansion_body (expansion_inv ur0)
      (λ r, match r with Ok sel => expansion_post ur0 sel | Raise _ => False end)
      _ _ _ r Hinit Hrun).
    intros st Hst. pose proof (expansion_body_inv ur0 st Hst) as Hbody.
    destruct (expansion_body st) as [?|[?|?]]; [by destruct Hbody | done | done]. }
  destruct r as [sel|]; [by exists sel | done].
Qed.

(** ** Products of finite sets *)

Lemma length_list_cprod {A B} (l : list A) (k : list B) :
  length (cprod l k) = length l * length k.
Proof.
  induction l as [|a l IH]; [done|].
  change (cprod (a :: l) k) with ((pair a <$> k) ++ cprod l k).
  rewrite length_app, length_fmap, IH. simpl. lia.
Qed.

Lemma size_gset_cprod (X Y : gset string) :
  size (cprod X Y : gset (string * string)) = size X * size Y.
Proof.
  unfold size, set_size. simpl. rewrite <-length_list_cprod. apply Permutation_length.
  apply NoDup_Permutation;
    [apply NoDup_elements | apply NoDup_list_cprod; apply NoDup_elements |].
  intros [a b]. rewrite elem_of_elements, elem_of_gset_cprod, list_elem_of_cprod.
  by rewrite !elem_of_elements.
Qed.

Section graph_query_facts.
Variable iter : gset string → list string.
Hypothesis iter_perm : ∀ X, iter X ≡ₚ elements X.

Lemma iter_elem_of x X : x ∈ iter X ↔ x ∈ X.
Proof. by apply iter_elem. Qed.

(** ** What the traversal from a user reaches *)

Lemma reach_loop_sound rev user fuel R rev' :
  iterate (reach_body iter) fuel (rev, ∅, [user]) = Some (R, rev') →
  (∀ k, children rev' k = children rev k) ∧ ∀ x, x ∈ R ↔ rtc (child rev) user x.
Proof.
  set (I := λ st : reach_state,
         (∀ k, children st.1.1 k = children rev k)
         ∧ (∀ x, x ∈ st.1.2 → rtc (child rev) user x)
         ∧ (∀ x, x ∈ st.2 → rtc (child rev) user x)
         ∧ (∀ x y, x ∈ st.1.2 → child rev x y → y ∈ st.1.2 ∨ y ∈ st.2)
         ∧ (user ∈ st.1.2 ∨ user ∈ st.2)).
  set (Q := λ r : gset string * gmap string (gset string),
         (∀ k, children r.2 k = children rev k) ∧ ∀ x, x ∈ r.1 ↔ rtc (child rev) user x).
  intros Hrun. refine (iterate_inv (reach_body iter) I Q _ _ _ (R, rev') _ Hrun).
  - intros [[rv V] queue] (Hch & HV & Hq & Hclosed & Huser). simpl in *.
    destruct queue as [|current queue].
    { split; [done|]. simpl. intros x. split; [apply HV|].
      destruct Huser as [Huser|Huser]; [|by apply elem_of_nil in Huser].
      revert x. apply (rtc_ind_r (λ x, x ∈ V) user); [done|].
      intros y z _ Hyz Hy.
      destruct (Hclosed y z Hy Hyz) as [?|Hz]; [done | by apply elem_of_nil in Hz]. }
    destruct (decide (current ∈ V)) as [Hcur|Hcur].
    { split_and!; simpl; [done | done | | |].
      - intros x Hx. apply Hq. by right.
      - intros x y Hx Hxy. destruct (Hclosed x y Hx Hxy) as [?|[->|?]%elem_of_cons];
          [by left | by left | by right].
      - destruct Huser as [?|[->|?]%elem_of_cons]; [by left | by left | by right]. }
    destruct (dd_get rv current) as [cs rv1] eqn:Hget.
    apply dd_get_eq in Hget as [-> Hch']. rewrite Hch, reach_push.
    assert (rtc (child rev) user current) as Hreach by (apply Hq; by left).
    split_and!; simpl.
    + intros k. by rewrite Hch'.
    + intros x [?| ->%elem_of_singleton]%elem_of_union; [by apply HV | done].
    + intros x [?|[_ Hx%iter_elem_of]%list_elem_of_filter]%elem_of_app;
        [apply Hq; by right | by eapply rtc_r]; done.
    + intros x y [Hx| ->%elem_of_singleton]%elem_of_union Hxy.
      * destruct (Hclosed x y Hx Hxy) as [?|[->|?]%elem_of_cons].
        -- left. set_solver.
        -- left. set_solver.
        -- right. apply elem_of_app. by left.
      * destruct (decide (y ∈ V ∪ {[current]})) as [?|Hy]; [by left|].
        right. apply elem_of_app. right. apply list_elem_of_filter. split; [done|].
        by apply iter_elem_of.
    + destruct Huser as [?|[->|?]%elem_of_cons].
      * left. set_solver.
      * left. set_solver.
      * right. apply elem_of_app. by left.
  - split_and!; simpl; [done | set_solver | | set_solver | right; by left].
    by intros x ->%list_elem_of_singleton.
Qed.

Lemma reachable_users_spec (s : Network) (user : string) :
  ∃ R s',
    _get_reachable_users iter user s = Some (R, s')
    ∧ store_equiv s s'
    ∧ (user ∉ users s → R = ∅ ∧ s' = s)
    ∧ (user ∈ users s → ∀ x, x ∈ R ↔ descendant s user x).
Proof.
  unfold _get_reachable_users. destruct (decide (user ∈ users s)) as [Hu|Hu].
  - destruct (reach_loop_term iter iter_perm (reverse_referrals s) user) as [[R rev'] Hrun].
    rewrite Hrun. simpl. apply reach_loop_sound in Hrun as [Hch HR].
    eexists _, _. split_and!; [done | by apply store_equiv_set_reverse | done |].
    intros _ x. unfold descendant. rewrite elem_of_difference, HR, elem_of_singleton. tauto.
  - eexists _, _. split_and!; [done | apply store_equiv_refl | done | done].
Qed.

(** ** The stores that [add_referral] builds *)

Lemma users_closed_empty : users_closed empty_network.
Proof.
  intros u. unfold edge. simpl. rewrite dom_empty_L. split; [set_solver|].
  intros [?|[c Hc]]; [set_solver|]. by rewrite lookup_empty in Hc.
Qed.

Lemma rooted_empty : rooted empty_network.
Proof. intros u Hu. simpl in Hu. set_solver. Qed.

Lemma add_referral_closed referrer candidate s res s' :
  store_inv s → users_closed s → rooted s →
  add_referral iter referrer candidate s = Some (res, s') →
  users_closed s' ∧ rooted s'.
Proof.
  intros Hinv Hclosed Hrooted Hadd.
  destruct (add_referral_spec iter iter_perm referrer candidate s Hinv)
    as (res' & s'' & Hadd' & _ & Hspec).
  rewrite Hadd in Hadd'. injection Hadd' as <- <-.
  destruct res as [ok|e]; [|by destruct Hspec as [-> _]].
  destruct Hspec as (Hne & Hfresh & Hcycle & Href & _ & Husers).
  assert (∀ a b, edge s a b → edge s' a b) as Hold.
  { intros a b Hab. unfold edge in *. rewrite Href, lookup_insert_ne; [done|].
    intros <-. apply Hfresh. by apply elem_of_dom. }
  assert (∀ a b, rtc (edge s) a b → rtc (edge s') a b) as Holds.
  { intros a b. induction 1; [done|]. eapply rtc_l; [by apply Hold | done]. }
  assert (edge s' candidate referrer) as Hnew.
  { unfold edge. by rewrite Href, lookup_insert_eq. }
  assert (dom (referrals s') = dom (referrals s) ∪ {[candidate]}) as Hdom.
  { rewrite Href, dom_insert_L. set_solver. }
  split.
  - intros u. rewrite Husers, Hdom, !elem_of_union, !elem_of_singleton, (Hclosed u). split.
    + intros [[[?|[c Hc]]| ->]| ->]; [by left; left | right; exists c; by apply Hold
                                     | right; by exists candidate | left; by right].
    + intros [[?| ->]|[c Hc]]; [by left; left; left | by right |].
      unfold edge in Hc. rewrite Href in Hc.
      apply lookup_insert_Some in Hc as [[<- <-]|[_ Hc]]; [left; by right|].
      left. left. right. by exists c.
  - assert (∃ ρ, rtc (edge s') referrer ρ ∧ (ρ ∉ dom (referrals s'))) as (ρ & Hρ & Hroot).
    { destruct (decide (referrer ∈ users s)) as [Hr|Hr].
      - destruct (Hrooted referrer Hr) as (ρ & Hρ & Hroot). exists ρ.
        split; [by apply Holds|]. rewrite Hdom. intros [?| ->%elem_of_singleton]%elem_of_union;
          [done | by apply Hcycle].
      - exists referrer. split; [done|]. rewrite Hdom.
        intros [Hd| ->%elem_of_singleton]%elem_of_union; [|done].
        apply Hr, Hclosed. by left. }
    intros u. rewrite Husers, !elem_of_union, !elem_of_singleton.
    intros [[Hu| ->]| ->].
    + destruct (Hrooted u Hu) as (ρu & Hρu & Hrootu).
      destruct (decide (ρu = candidate)) as [->|Hneq].
      * exists ρ. split; [|done]. etrans; [by apply Holds|]. by eapply rtc_l.
      * exists ρu. split; [by apply Holds|]. rewrite Hdom. set_solver.
    + by exists ρ.
    + exists ρ. split; [by eapply rtc_l | done].
Qed.

Lemma run_closed calls s :
  store_inv s → users_closed s → rooted s →
  ∃ s', run iter calls s = Some s' ∧ store_inv s' ∧ users_closed s' ∧ rooted s'.
Proof.
  revert s. induction calls as [|[referrer candidate] calls IH]; intros s Hinv Hclosed Hrooted.
  - by exists s.
  - simpl.
    destruct (add_referral_spec iter iter_perm referrer candidate s Hinv)
      as (res & s1 & Hadd & Hinv1 & _).
    rewrite Hadd. simpl.
    destruct (add_referral_closed _ _ _ _ _ Hinv Hclosed Hrooted Hadd) as [? ?].
    by apply IH.
Qed.

Lemma run_from_empty calls :
  ∃ s, run iter calls empty_network = Some s ∧ store_inv s ∧ users_closed s ∧ rooted s.
Proof. apply run_closed; [apply store_inv_empty | apply users_closed_empty | apply rooted_empty]. Qed.

(** ** The total count is the number of descendants *)

Lemma total_count_descendants (s : Network) (user : string) :
  store_inv s →
  ∃ n s' (D : gset string),
    get_total_referral_count iter user s = Some (n, s')
    ∧ store_equiv s s'
    ∧ (∀ x, x ∈ D ↔ user ∈ users s ∧ descendant s user x)
    ∧ n = size D.
Proof.
  intros Hinv.
  destruct (total_count_reach_size iter iter_perm s user Hinv)
    as (n & R & s1 & s2 & Hcount & Hreach & ->).
  destruct (total_count_spec iter iter_perm s user) as (n' & s1' & Hcount' & Hequiv).
  rewrite Hcount in Hcount'. injection Hcount' as <- <-.
  destruct (reachable_users_spec s user) as (R' & s2' & Hreach' & _ & Hout & Hin).
  rewrite Hreach in Hreach'. injection Hreach' as <- <-.
  exists (size R), s1, R. split_and!; [done | done | | done].
  intros x. destruct (decide (user ∈ users s)) as [Hu|Hu].
  - rewrite (Hin Hu). tauto.
  - destruct (Hout Hu) as [-> _]. set_solver.
Qed.

Lemma total_reach_descendants (s : Network) (user : string) (D : gset string) :
  store_inv s →
  (∀ x, x ∈ D ↔ user ∈ users s ∧ descendant s user x) →
  total_reach iter s user = size D.
Proof.
  intros Hinv HD.
  destruct (total_count_descendants s user Hinv) as (n & s' & D' & Hcount & _ & HD' & ->).
  unfold total_reach. rewrite Hcount. f_equal. apply set_eq. intros x. by rewrite HD, HD'.
Qed.

Lemma child_irrefl (s : Network) (x : string) :
  store_inv s → ¬ child (reverse_referrals s) x x.
Proof.
  intros [Hindex _ Hacyclic] Hx. apply (Hacyclic x), tc_once. by apply Hindex.
Qed.

Lemma child_rtc_back (s : Network) (x y : string) :
  store_inv s → child (reverse_referrals s) x y → ¬ rtc (child (reverse_referrals s)) y x.
Proof.
  intros Hinv Hxy Hyx. pose proof Hinv as [Hindex _ Hacyclic].
  apply (Hacyclic x). apply (tc_child_edge s x x Hindex).
  eapply tc_rtc_r; [by apply tc_once | done].
Qed.

(** A user has a positive count exactly when it has a direct referral. *)
Lemma total_reach_positive (s : Network) (user : string) :
  store_inv s → user ∈ users s →
  0 < total_reach iter s user ↔ ∃ c, edge s c user.
Proof.
  intros Hinv Hu. pose proof Hinv as [Hindex _ _].
  destruct (total_count_descendants s user Hinv) as (n & s' & D & Hcount & _ & HD & ->).
  unfold total_reach. rewrite Hcount. split.
  - intros Hpos. destruct (set_choose_L D) as [x Hx].
    { intros ->. rewrite size_empty in Hpos. lia. }
    apply HD in Hx as (_ & Hne & Hx). apply rtc_inv in Hx as [->|(c & Hc & _)]; [done|].
    exists c. by apply Hindex.
  - intros [c Hc%Hindex]. assert (c ∈ D) as Hin.
    { apply HD. split; [done|]. split; [|by apply rtc_once].
      intros ->. by eapply child_irrefl. }
    assert (size D ≠ 0); [|lia]. intros Hz%size_empty_inv. set_solver.
Qed.

(** A referrer's count exceeds the count of each user it referred. *)
Lemma total_reach_edge (s : Network) (c r : string) :
  store_inv s → r ∈ users s → edge s c r →
  total_reach iter s c < total_reach iter s r.
Proof.
  intros Hinv Hr Hedge. pose proof Hinv as [Hindex _ _]. apply Hindex in Hedge.
  destruct (total_count_descendants s c Hinv) as (nc & sc & Dc & Hc & _ & HDc & ->).
  destruct (total_count_descendants s r Hinv) as (nr & sr & Dr & Hcr & _ & HDr & ->).
  unfold total_reach. rewrite Hc, Hcr.
  assert (c ∉ Dc) as Hfresh by (intros (_ & ? & _)%HDc; done).
  assert ({[c]} ∪ Dc ⊆ Dr) as Hsub.
  { intros x [->%elem_of_singleton|(_ & Hne & Hx)%HDc]%elem_of_union; apply HDr.
    - split; [done|]. split; [|by apply rtc_once]. intros ->. by eapply child_irrefl.
    - split; [done|]. split; [|by eapply rtc_l]. intros ->. by eapply child_rtc_back. }
  apply subseteq_size in Hsub. rewrite size_union, size_singleton in Hsub by set_solver. lia.
Qed.

(** ** [get_direct_referrals] *)

Lemma direct_referrals_children (s : Network) (user : string) :
  get_direct_referrals iter user s = iter (children (reverse_referrals s) user).
Proof. unfold get_direct_referrals, children. by rewrite lookup_total_alt. Qed.

Lemma direct_referrals_elem (s : Network) (user x : string) :
  x ∈ get_direct_referrals iter user s ↔ child (reverse_referrals s) user x.
Proof. by rewrite direct_referrals_children, iter_elem_of. Qed.

(** ** [get_network_stats] *)

Lemma active_users_spec (us acc : list string) (s s0 : Network) :
  store_equiv s s0 →
  ∃ s', active_users iter us acc s0 =
          Some (acc ++ filter (λ u, 0 < total_reach iter s u) us, s')
        ∧ store_equiv s s'.
Proof.
  revert acc s0. induction us as [|u us IH]; intros acc s0 Hequiv; simpl.
  - exists s0. by rewrite app_nil_r.
  - destruct (total_count_spec iter iter_perm s0 u) as (n & s1 & Hcount & Hequiv1).
    rewrite Hcount. simpl.
    assert (n = total_reach iter s u) as ->.
    { rewrite (total_count_equiv iter iter_perm s s0 u Hequiv). unfold total_reach.
      by rewrite Hcount. }
    destruct (IH (if decide (0 < total_reach iter s u) then acc ++ [u] else acc) s1)
      as (s' & -> & Hequiv'); [by eapply store_equiv_trans|].
    exists s'. split; [|done]. f_equal. f_equal. rewrite filter_cons.
    destruct (decide (0 < total_reach iter s u)); [by rewrite <-app_assoc | done].
Qed.

Lemma size_list_to_set_le (l : list string) : size (list_to_set l : gset string) ≤ length l.
Proof.
  induction l as [|x l IH].
  - change (size (∅ : gset string) ≤ 0). by rewrite size_empty.
  - change (size ({[x]} ∪ list_to_set l : gset string) ≤ S (length l)).
    rewrite size_union_alt, size_singleton.
    assert (size (list_to_set l ∖ {[x]} : gset string) ≤ size (list_to_set l : gset string))
      by (apply subseteq_size; set_solver).
    lia.
Qed.

Lemma length_filter_iter (P : string → Prop) `{!∀ x, Decision (P x)} (X : gset string) :
  length (filter P (iter X)) = size (filter P X).
Proof.
  unfold size at 1, set_size. simpl. apply Permutation_length.
  apply NoDup_Permutation; [apply NoDup_filter, iter_NoDup, iter_perm | apply NoDup_elements |].
  intros x. by rewrite elem_of_elements, elem_of_filter, list_elem_of_filter, iter_elem_of.
Qed.

Lemma root_exists (s : Network) :
  users_closed s → rooted s → users s ≠ ∅ →
  ∃ r, r ∈ users s ∧ r ∉ dom (referrals s).
Proof.
  intros Hclosed Hrooted [u Hu]%set_choose_L.
  destruct (Hrooted u Hu) as (r & Hr & Hroot). exists r. split; [|done].
  apply rtc_inv_r in Hr as [<-|(y & _ & Hy)]; [done|]. apply Hclosed. right. by exists y.
Qed.

Lemma referrers_le_referrals (s : Network) (A : gset string) :
  (∀ u, u ∈ A → ∃ c, edge s c u) → size A ≤ size (dom (referrals s)).
Proof.
  intros HA. rewrite size_dom.
  trans (size (list_to_set (map_to_list (referrals s)).*2 : gset string)).
  - apply subseteq_size. intros u [c Hc]%HA. apply elem_of_list_to_set, list_elem_of_fmap.
    exists (c, u). split; [done|]. by apply elem_of_map_to_list.
  - etrans; [apply size_list_to_set_le|]. by rewrite length_fmap, length_map_to_list.
Qed.

(** X12. The three numbers of [get_network_stats]: the users, the users that
    were referred, and the users that referred somebody.  In a store that
    [add_referral] built there are no more referrers than referrals, and
    fewer referrals than users. *)
Theorem network_stats_counts (calls : list (string * string)) :
  ∃ s stats s' (A : gset string),
    run iter calls empty_network = Some s
    ∧ get_network_stats iter s = Some (stats, s')
    ∧ store_equiv s s'
    ∧ dom stats = {["total_users"; "total_referrals"; "active_referrers"]}
    ∧ stats !! "total_users" = Some (size (users s))
    ∧ stats !! "total_referrals" = Some (size (dom (referrals s)))
    ∧ (∀ u, u ∈ A ↔ ∃ c, referrals s !! c = Some u)
    ∧ stats !! "active_referrers" = Some (size A)
    ∧ size A ≤ size (dom (referrals s))
    ∧ (users s ≠ ∅ → size (dom (referrals s)) < size (users s)).
Proof.
  destruct (run_from_empty calls) as (s & Hrun & Hinv & Hclosed & Hrooted).
  unfold get_network_stats.
  destruct (active_users_spec (iter (users s)) [] s s (store_equiv_refl s))
    as (s' & Hactive & Hequiv).
  set (A := filter (λ u, 0 < total_reach iter s u) (users s)).
  assert (∀ u, u ∈ A ↔ ∃ c, referrals s !! c = Some u) as HA.
  { intros u. unfold A. rewrite elem_of_filter. split.
    - intros [Hpos Hu]. by apply total_reach_positive in Hpos.
    - intros [c Hc]. assert (u ∈ users s) as Hu by (apply Hclosed; right; by exists c).
      split; [|done]. apply total_reach_positive; [done..|]. by exists c. }
  eexists s, _, s', A.
  split_and!; [done | by rewrite Hactive | done | | | | done | | |].
  - rewrite !dom_insert_L, dom_empty_L. set_solver.
  - by rewrite lookup_insert_eq.
  - rewrite lookup_insert_ne, lookup_insert_eq by done. by rewrite size_dom.
  - rewrite !lookup_insert_ne, lookup_insert_eq by done. f_equal. apply length_filter_iter.
  - apply referrers_le_referrals. intros u Hu. by apply HA.
  - intros Hne. destruct (root_exists s Hclosed Hrooted Hne) as (r & Hr & Hroot).
    apply subset_size. split.
    + intros c Hc. apply Hclosed. by left.
    + intros Hsub. by apply Hroot, Hsub.
Qed.

(** ** [get_unique_reach_expansion] *)

Lemma reachable_users_reach_set (s : Network) (user : string) :
  ∃ s', _get_reachable_users iter user s = Some (reach_set iter s user, s')
        ∧ store_equiv s s'.
Proof.
  destruct (reachable_users_spec s user) as (R & s' & Hrun & Hequiv & _).
  exists s'. unfold reach_set. by rewrite Hrun.
Qed.

Lemma elem_of_reach_set (s : Network) (user x : string) :
  x ∈ reach_set iter s user ↔ user ∈ users s ∧ descendant s user x.
Proof.
  destruct (reachable_users_spec s user) as (R & s' & Hrun & _ & Hout & Hin).
  unfold reach_set. rewrite Hrun. destruct (decide (user ∈ users s)) as [Hu|Hu].
  - rewrite (Hin Hu). tauto.
  - destruct (Hout Hu) as [-> _]. set_solver.
Qed.

Lemma rtc_child_equiv (rev rev' : gmap string (gset string)) (x y : string) :
  (∀ k, children rev k = children rev' k) → rtc (child rev) x y → rtc (child rev') x y.
Proof.
  intros Hch. apply rtc_subrel. intros a b. unfold child. by rewrite Hch.
Qed.

Lemma reach_set_equiv (s s' : Network) (user : string) :
  store_equiv s s' → reach_set iter s user = reach_set iter s' user.
Proof.
  intros (_ & Husers & Hch). apply set_eq. intros x.
  rewrite !elem_of_reach_set. unfold descendant. rewrite Husers.
  split; intros (? & ? & Hx); split_and!; try done;
    eapply rtc_child_equiv; [| exact Hx | | exact Hx]; done.
Qed.

Lemma total_reach_reach_set (s : Network) (user : string) :
  store_inv s → total_reach iter s user = size (reach_set iter s user).
Proof. intros Hinv. apply total_reach_descendants; [done|]. apply elem_of_reach_set. Qed.

Lemma collect_reaches_spec (us : list string) (acc : list (string * gset string))
    (s s0 : Network) :
  store_equiv s s0 → NoDup us → (∀ u, u ∈ us → u ∉ acc.*1) →
  ∃ s', collect_reaches iter us acc s0 =
          Some (acc ++ omap (λ u, if decide (reach_set iter s u ≠ ∅)
                                  then Some (u, reach_set iter s u) else None) us, s')
        ∧ store_equiv s s'.
Proof.
  revert acc s0. induction us as [|u us IH]; intros acc s0 Hequiv Hnd Hfresh; simpl.
  - exists s0. by rewrite app_nil_r.
  - apply NoDup_cons in Hnd as [Hu Hnd].
    destruct (reachable_users_reach_set s0 u) as (s1 & -> & Hequiv1). simpl.
    rewrite <-(reach_set_equiv s s0 u Hequiv).
    destruct (decide (reach_set iter s u ≠ ∅)) as [Hne|He].
    + rewrite odict_set_fresh by (apply Hfresh; by left).
      destruct (IH (acc ++ [(u, reach_set iter s u)]) s1) as (s' & -> & Hequiv');
        [by eapply store_equiv_trans | done | |].
      { intros u' Hu'. rewrite fmap_app, elem_of_app. simpl.
        intros [?| ->%list_elem_of_singleton]; [|done]. by apply (Hfresh u'); [right|]. }
      exists s'. by rewrite <-app_assoc.
    + destruct (IH acc s1) as (s' & -> & Hequiv'); [by eapply store_equiv_trans | done | |].
      { intros u' Hu'. apply Hfresh. by right. }
      by exists s'.
Qed.

Lemma elem_of_reaches_of (s : Network) (u : string) (r : gset string) :
  (u, r) ∈ reaches_of iter s ↔ u ∈ users s ∧ r = reach_set iter s u ∧ r ≠ ∅.
Proof.
  unfold reaches_of. rewrite list_elem_of_omap. split.
  - intros (u' & Hu'%iter_elem_of & Hsome).
    destruct (decide (reach_set iter s u' ≠ ∅)); [|done]. by injection Hsome as <- <-.
  - intros (Hu & -> & Hne). exists u. split; [by apply iter_elem_of|]. by rewrite decide_True.
Qed.

Lemma reaches_of_NoDup (s : Network) : NoDup (reaches_of iter s).*1.
Proof.
  unfold reaches_of. pose proof (iter_NoDup iter iter_perm (users s)) as Hnd.
  induction (iter (users s)) as [|u us IH]; simpl; [constructor|].
  apply NoDup_cons in Hnd as [Hu Hnd].
  destruct (decide (reach_set iter s u ≠ ∅)); [|by apply IH]. simpl.
  apply NoDup_cons. split; [|by apply IH].
  intros ([u' r] & -> & (u'' & ? & Hsome)%list_elem_of_omap)%list_elem_of_fmap.
  destruct (decide (reach_set iter s u'' ≠ ∅)); [|done]. by injection Hsome as <- <-.
Qed.

Lemma elem_of_reaches_union (s : Network) (x : string) :
  x ∈ ⋃ (reaches_of iter s).*2 ↔ ∃ u, x ∈ reach_set iter s u.
Proof.
  rewrite elem_of_union_list. split.
  - intros (r & ([u r'] & -> & (_ & -> & _)%elem_of_reaches_of)%list_elem_of_fmap & Hx).
    by exists u.
  - intros [u Hx]. exists (reach_set iter s u). split; [|done].
    apply list_elem_of_fmap. exists (u, reach_set iter s u). split; [done|].
    apply elem_of_reaches_of. split_and!; [|done|set_solver].
    by apply elem_of_reach_set in Hx as [? _].
Qed.

(** ** The shape of a forest *)

Section forest_facts.
Variable s : Network.
Hypothesis Hinv : store_inv s.
Hypothesis Hclosed : users_closed s.

(** Two users that reach the same user lie on one chain of referrals. *)
Lemma ancestors_comparable (u v x : string) :
  rtc (child (reverse_referrals s)) u x → rtc (child (reverse_referrals s)) v x → rtc (child (reverse_referrals s)) u v ∨ rtc (child (reverse_referrals s)) v u.
Proof.
  intros Hu. revert v. revert x Hu.
  apply (rtc_ind_r (λ x, ∀ v, rtc (child (reverse_referrals s)) v x →
                           rtc (child (reverse_referrals s)) u v
                           ∨ rtc (child (reverse_referrals s)) v u) u).
  - intros v Hv. by right.
  - intros y z Huy Hyz IH v Hv. apply rtc_inv_r in Hv as [->|(y' & Hvy' & Hy'z)].
    + left. by eapply rtc_r.
    + assert (y' = y) as ->; [|by apply IH].
      destruct Hinv as [Hindex _ _]. apply Hindex in Hyz, Hy'z. unfold edge in *. congruence.
Qed.

Lemma descendant_has_referrer (u x : string) :
  descendant s u x → x ∈ dom (referrals s).
Proof.
  intros [Hne Hx]. apply rtc_inv_r in Hx as [->|(y & _ & Hy)]; [done|].
  destruct Hinv as [Hindex _ _]. apply Hindex in Hy. by apply elem_of_dom_2 in Hy.
Qed.

Lemma descendant_trans (u v x : string) :
  descendant s u v → descendant s v x → descendant s u x.
Proof.
  intros [Hne Huv] [Hne' Hvx]. split; [|by etrans].
  intros ->. apply rtc_inv in Hvx as [->|(y & Hy & Hyx)]; [done|].
  eapply child_rtc_back; [done | exact Hy |]. by etrans.
Qed.

Lemma descendant_user (u x : string) : descendant s u x → x ∈ users s.
Proof. intros Hx%descendant_has_referrer. apply Hclosed. by left. Qed.

(** The reachable sets of a root and of a user outside its tree are
    disjoint. *)
Lemma reach_root_disjoint (u k x : string) :
  (k ∉ dom (referrals s)) → u ≠ k → ¬ descendant s k u →
  x ∈ reach_set iter s u → x ∉ reach_set iter s k.
Proof.
  intros Hroot Hne Hout (Hu & Hxu)%elem_of_reach_set (Hk & Hxk)%elem_of_reach_set.
  destruct (ancestors_comparable u k x) as [Huk|Hku]; [apply Hxu | apply Hxk | |].
  - apply Hroot, (descendant_has_referrer u). split; [by intros -> | done].
  - apply Hout. by split.
Qed.

Lemma reach_set_descendant (u v : string) :
  v ∈ reach_set iter s u → reach_set iter s v ⊆ reach_set iter s u.
Proof.
  intros (Hu & Huv)%elem_of_reach_set x (Hv & Hvx)%elem_of_reach_set.
  apply elem_of_reach_set. split; [done|]. by eapply descendant_trans.
Qed.

Lemma reach_set_edge (c p : string) :
  edge s c p → size (reach_set iter s c) < size (reach_set iter s p).
Proof.
  intros Hedge. rewrite <-!total_reach_reach_set by done.
  apply total_reach_edge; [done | | done]. apply Hclosed. right. by exists c.
Qed.

(** In a forest every round of the greedy loop selects a root, with all
    that it reaches; at the end every root that reaches somebody has been
    selected. *)
Lemma expansion_forest_body (st : expansion_state) :
  expansion_inv (reaches_of iter s) st → expansion_forest_inv iter s st →
  match expansion_body st with
  | inl st' => expansion_forest_inv iter s st'
  | inr (Ok sel) =>
      (∀ k n, (k, n) ∈ sel → (k ∉ dom (referrals s)) ∧ n = size (reach_set iter s k))
      ∧ (∀ u, (u ∉ dom (referrals s)) → reach_set iter s u ≠ ∅ → u ∈ sel.*1)
  | inr (Raise _) => True
  end.
Proof.
  destruct st as [[ur rem] sel]. intros Hgen (Hroots & Hleft & Hrem).
  pose proof (expansion_body_inv _ _ Hgen) as Hbody.
  destruct Hgen as (Hnd & _ & _ & Hsum & _ & _ & Hpos).
  assert (∀ k, k ∈ sel.*1 → k ∉ dom (referrals s)) as Hsel_root.
  { intros k ([k' n] & -> & Hin)%list_elem_of_fmap. by apply (Hroots k' n). }
  assert (expansion_post (reaches_of iter s) sel →
          (∀ k n, (k, n) ∈ sel → (k ∉ dom (referrals s)) ∧ n = size (reach_set iter s k))
          ∧ (∀ u, (u ∉ dom (referrals s)) → reach_set iter s u ≠ ∅ → u ∈ sel.*1)) as Hexit.
  { intros (Hsum' & _). split; [done|]. intros u Hroot [x Hx]%set_choose_L.
    destruct (decide (u ∈ sel.*1)) as [|Hu]; [done|]. exfalso.
    assert (x ∈ rem) as Hin; [|rewrite Hsum' in Hsum;
      assert (size rem = 0) as ->%size_empty_inv%leibniz_equiv by lia; set_solver].
    apply Hrem. split; [apply elem_of_reaches_union; by exists u|].
    intros k Hk. apply (reach_root_disjoint u k x); [by apply Hsel_root | by intros -> | | done].
    intros Hd%descendant_has_referrer. done. }
  unfold expansion_body in *.
  destruct (decide (rem = ∅ ∨ ur = [])) as [|_]; [by apply Hexit|].
  pose proof (best_coverage_spec ur rem) as [Hmax Hbest].
  destruct (best_coverage ur rem) as [[u|] bc]; [|by apply Hexit]. simpl in Hmax, Hbest.
  destruct (decide (bc = 0)) as [|_]; [by apply Hexit|].
  destruct Hbest as (Hbc & r & Hin & ->).
  rewrite (odict_get_elem u r ur Hnd Hin). rewrite (odict_get_elem u r ur Hnd Hin) in Hbody.
  pose proof Hin as [(Hu & -> & Hne)%elem_of_reaches_of Hfresh]%Hleft. simpl in Hfresh.
  assert (∀ v, v ∉ sel.*1 → (∀ k, k ∈ sel.*1 → ¬ descendant s k v) →
               reach_set iter s v ∩ rem = reach_set iter s v) as Hfull.
  { intros v Hv Hout. apply set_eq. intros x. rewrite elem_of_intersection, Hrem. split; [tauto|].
    intros Hx. split_and!; [done | apply elem_of_reaches_union; by exists v |].
    intros k Hk. apply (reach_root_disjoint v k x); [by apply Hsel_root | | by apply Hout | done].
    by intros ->. }
  assert (∀ k, k ∈ sel.*1 → ¬ descendant s k u) as Hout.
  { intros k Hk Hd.
    assert (k ∈ users s) as Hku.
    { apply list_elem_of_fmap in Hk as ([k' m] & -> & Hkm).
      destruct (Hpos k' m Hkm) as (_ & r & (? & _)%elem_of_reaches_of & _). done. }
    assert (reach_set iter s u ∩ rem = ∅) as Hempty; [|rewrite Hempty, size_empty in Hbc; lia].
    apply set_eq. intros x. rewrite elem_of_intersection, Hrem. split; [|set_solver].
    intros (Hx & _ & Hnot). destruct (Hnot k Hk).
    apply (reach_set_descendant k u); [|done]. by apply elem_of_reach_set. }
  rewrite (Hfull u Hfresh Hout) in *.
  assert (u ∉ dom (referrals s)) as Hroot.
  { intros [p Hp]%elem_of_dom.
    assert (p ∈ users s) as Hpu by (apply Hclosed; right; by exists u).
    assert (child (reverse_referrals s) p u) as Hpc by (destruct Hinv as [Hindex _ _]; by apply Hindex).
    assert (descendant s p u) as Hdesc.
    { split; [|by apply rtc_once]. intros ->. by eapply child_irrefl. }
    assert (p ∉ sel.*1) as Hp_fresh.
    { intros Hsel. by apply (Hout p). }
    assert ((p, reach_set iter s p) ∈ ur) as Hp_in.
    { apply Hleft. split; [|done]. apply elem_of_reaches_of. split_and!; [done..|].
      assert (u ∈ reach_set iter s p) by (by apply elem_of_reach_set). set_solver. }
    pose proof (Hmax p _ Hp_in) as Hle. rewrite Hfull in Hle; [| done |].
    - pose proof (reach_set_edge u p Hp). lia.
    - intros k Hk Hd. apply (Hout k Hk). by eapply descendant_trans. }
  split_and!.
  - intros k n [?|[= -> ->]%list_elem_of_singleton]%elem_of_app; [by apply Hroots | done].
  - intros kv. rewrite odict_del_elem, Hleft, fmap_app, elem_of_app by done. simpl.
    rewrite list_elem_of_singleton. tauto.
  - intros x. rewrite elem_of_difference, Hrem. split.
    + intros [[Hx Hnot] Hxu]. split; [done|]. intros k.
      rewrite fmap_app, elem_of_app. simpl. rewrite list_elem_of_singleton.
      intros [?| ->]; [by apply Hnot | done].
    + intros [Hx Hnot]. split_and!; [done | |].
      * intros k Hk. apply Hnot. rewrite fmap_app, elem_of_app. by left.
      * apply Hnot. rewrite fmap_app, elem_of_app. right. by left.
Qed.

Lemma reaches_union_dom : ⋃ (reaches_of iter s).*2 = dom (referrals s).
Proof.
  apply set_eq. intros x. rewrite elem_of_reaches_union. split.
  - intros [u (_ & Hx)%elem_of_reach_set]. by eapply descendant_has_referrer.
  - intros [p Hp]%elem_of_dom. exists p. apply elem_of_reach_set.
    split; [apply Hclosed; right; by exists x|].
    assert (child (reverse_referrals s) p x) as Hpx by (destruct Hinv as [Hindex _ _]; by apply Hindex).
    split; [|by apply rtc_once]. intros ->. by eapply child_irrefl.
Qed.

Lemma expansion_forest_loop :
  ∃ sel,
    iterate expansion_body (S (length (reaches_of iter s)))
      (reaches_of iter s, ⋃ (reaches_of iter s).*2, []) = Some (Ok sel)
    ∧ NoDup sel.*1
    ∧ sum_list_with snd sel = size (dom (referrals s))
    ∧ ∀ u n, (u, n) ∈ sel ↔
        u ∈ users s ∧ (u ∉ dom (referrals s)) ∧ n = total_reach iter s u ∧ 0 < n.
Proof.
  destruct (expansion_loop_spec (reaches_of iter s) (reaches_of_NoDup s))
    as (sel & Hrun & Hsum & Hnd & Hpos).
  exists sel. split; [done|]. split; [done|]. split; [by rewrite Hsum, reaches_union_dom|].
  assert ((∀ k n, (k, n) ∈ sel → (k ∉ dom (referrals s)) ∧ n = size (reach_set iter s k))
          ∧ (∀ u, (u ∉ dom (referrals s)) → reach_set iter s u ≠ ∅ → u ∈ sel.*1))
    as [Hroots Hall].
  { refine (iterate_inv expansion_body
      (λ st, expansion_inv (reaches_of iter s) st ∧ expansion_forest_inv iter s st)
      (λ r, match r with
            | Ok sel =>
                (∀ k n, (k, n) ∈ sel →
                   (k ∉ dom (referrals s)) ∧ n = size (reach_set iter s k))
                ∧ (∀ u, (u ∉ dom (referrals s)) → reach_set iter s u ≠ ∅ → u ∈ sel.*1)
            | Raise _ => True
            end) _ _ _ (Ok sel) _ Hrun).
    - intros st [Hgen Hforest].
      pose proof (expansion_body_inv _ _ Hgen) as Hbody.
      pose proof (expansion_forest_body _ Hgen Hforest) as Hbody'.
      destruct (expansion_body st) as [st'|[?|?]]; [|done..]. by destruct Hbody.
    - split.
      + split_and!; simpl; [apply reaches_of_NoDup | done | done | lia | constructor
                            | by intros ? ?%elem_of_nil | by intros ?? ?%elem_of_nil].
      + split_and!; simpl.
        * by intros ?? ?%elem_of_nil.
        * intros kv. split; [intros ?; split; [done | by intros ?%elem_of_nil] | by intros [? _]].
        * intros x. split; [intros ?; split; [done | by intros ? ?%elem_of_nil] | by intros [? _]]. }
  intros u n. rewrite total_reach_reach_set by done. split.
  - intros Hin. destruct (Hroots u n Hin) as [Hroot ->].
    destruct (Hpos u _ Hin) as (Hp & r & (Hu & _)%elem_of_reaches_of & _). done.
  - intros (Hu & Hroot & -> & Hp).
    assert (reach_set iter s u ≠ ∅) as Hne.
    { intros He. rewrite He, size_empty in Hp. lia. }
    apply (Hall u Hroot) in Hne as ([u' n] & -> & Hin)%list_elem_of_fmap.
    simpl. destruct (Hroots u' n Hin) as [_ Heq]. by rewrite <-Heq.
Qed.

End forest_facts.

(** X9. In a store that [add_referral] built, [get_unique_reach_expansion]
    returns the roots of the forest that referred somebody (the users
    without a referrer and with a positive total count), each once and with
    its total count, highest count first; the counts add up to the number of
    referred users. *)
Theorem unique_reach_expansion_roots (calls : list (string * string)) :
  ∃ s l s',
    run iter calls empty_network = Some s
    ∧ get_unique_reach_expansion iter s = Some (Ok l, s')
    ∧ store_equiv s s'
    ∧ NoDup l.*1
    ∧ StronglySorted (λ a b, b.2 ≤ a.2) l
    ∧ (∀ u n, (u, n) ∈ l ↔
         u ∈ users s ∧ (u ∉ dom (referrals s)) ∧ n = total_reach iter s u ∧ 0 < n)
    ∧ sum_list_with snd l = size (dom (referrals s)).
Proof.
  destruct (run_from_empty calls) as (s & Hrun & Hinv & Hclosed & _).
  destruct (expansion_forest_loop s Hinv Hclosed) as (sel & Hloop & Hnd & Hsum & Hsel).
  exists s. unfold get_unique_reach_expansion.
  destruct (decide (users s = ∅)) as [Hempty|Hne].
  { exists [], s. split_and!; [done | done | apply store_equiv_refl | constructor | constructor | |].
    - intros u n. rewrite Hempty. set_solver.
    - simpl. assert (dom (referrals s) = ∅) as ->; [|by rewrite size_empty].
      apply set_eq. intros c. split; [|set_solver]. intros Hc. rewrite <-Hempty.
      apply Hclosed. by left. }
  destruct (collect_reaches_spec (iter (users s)) [] s s (store_equiv_refl s))
    as (s' & Hcollect & Hequiv); [by apply iter_NoDup | by intros ?? ?%elem_of_nil|].
  change (collect_reaches iter (iter (users s)) [] s = Some (reaches_of iter s, s'))
    in Hcollect.
  rewrite Hcollect. cbn [mbind option_bind].
  destruct (decide (reaches_of iter s = [])) as [Hnil|Hcons].
  { exists [], s'. rewrite Hnil in Hloop. simpl in Hloop.
    change (⋃ []) with (∅ : gset string) in Hloop.
    rewrite decide_True in Hloop by (by left). injection Hloop as <-.
    split_and!; [done | done | done | constructor | constructor | done | done]. }
  rewrite Hloop. cbn [mbind option_bind]. exists (sort_desc snd sel), s'.
  split_and!; [done | done | done | | apply sort_desc_sorted | |].
  - by rewrite sort_desc_perm.
  - intros u n. by rewrite sort_desc_perm.
  - by rewrite sort_desc_perm.
Qed.

(** ** [add_referral] and the reads *)

(** X1. Which of the four errors [add_referral] raises, in the order of its
    tests, and when it accepts: exactly when both names are non-empty and
    different, the candidate has no referrer yet, and the referrer is not
    reachable from the candidate. *)
Theorem add_referral_outcome (s : Network) (referrer candidate : string) :
  ∃ res s',
    add_referral iter referrer candidate s = Some (res, s')
    ∧ (res = Raise InvalidInput ↔ referrer = "" ∨ candidate = "")
    ∧ (res = Raise SelfReferral ↔ referrer ≠ "" ∧ referrer = candidate)
    ∧ (res = Raise DuplicateReferrer ↔
         referrer ≠ "" ∧ candidate ≠ "" ∧ referrer ≠ candidate
         ∧ candidate ∈ dom (referrals s))
    ∧ (res = Raise CycleDetected ↔
         referrer ≠ "" ∧ candidate ≠ "" ∧ referrer ≠ candidate
         ∧ (candidate ∉ dom (referrals s))
         ∧ rtc (child (reverse_referrals s)) candidate referrer)
    ∧ (res = Ok true ↔
         referrer ≠ "" ∧ candidate ≠ "" ∧ referrer ≠ candidate
         ∧ (candidate ∉ dom (referrals s))
         ∧ ¬ rtc (child (reverse_referrals s)) candidate referrer)
    ∧ (is_raise res ∨ res = Ok true).
Proof.
  unfold add_referral.
  destruct (decide (referrer = "" ∨ candidate = "")) as [Hempty|Hempty].
  { eexists _, _. split; [done|]. split_and!; [naive_solver..|by left]. }
  destruct (decide (referrer = candidate)) as [Heq|Hne].
  { eexists _, _. split; [done|]. split_and!; [naive_solver..|by left]. }
  destruct (decide (candidate ∈ dom (referrals s))) as [Hdup|Hfresh].
  { eexists _, _. split; [done|]. split_and!; [naive_solver..|by left]. }
  destruct (would_create_cycle_spec iter iter_perm referrer candidate s)
    as (b & rev' & -> & _ & _ & _ & Hb & _).
  cbn [mbind option_bind]. destruct b.
  - assert (rtc (child (reverse_referrals s)) candidate referrer) by (by apply Hb).
    eexists _, _. split; [done|]. split_and!; [naive_solver..|by left].
  - assert (¬ rtc (child (reverse_referrals s)) candidate referrer).
    { intros Hr%Hb. done. }
    destruct (dd_get _ referrer) as [cs rv].
    eexists _, _. split; [done|]. split_and!; [naive_solver..|by right].
Qed.

(** X2. [_would_create_cycle] answers whether the referrer is reachable from
    the candidate, in no step or more, and leaves the edges and the users
    of the store as they were. *)
Theorem would_create_cycle_reachable (s : Network) (referrer candidate : string) :
  ∃ b s',
    _would_create_cycle iter referrer candidate s = Some (b, s')
    ∧ store_equiv s s'
    ∧ (b = true ↔ rtc (child (reverse_referrals s)) candidate referrer).
Proof.
  destruct (would_create_cycle_spec iter iter_perm referrer candidate s)
    as (b & rev' & -> & Hch & _ & _ & Hb & _).
  exists b, (set_reverse rev' s). split_and!; [done | by apply store_equiv_set_reverse | done].
Qed.

(** X3. In a store that satisfies the invariant, [get_direct_referrals] lists
    without repetition the users whose referrer is [user]; and after an
    accepted [add_referral] the new candidate is listed under its referrer,
    every other list being as before. *)
Theorem direct_referrals_index (s : Network) (referrer candidate : string) :
  store_inv s →
  (∀ user, NoDup (get_direct_referrals iter user s)
           ∧ ∀ x, x ∈ get_direct_referrals iter user s ↔ referrals s !! x = Some user)
  ∧ ∃ res s',
      add_referral iter referrer candidate s = Some (res, s')
      ∧ match res with
        | Ok _ =>
            ∀ user x, x ∈ get_direct_referrals iter user s' ↔
                      x ∈ get_direct_referrals iter user s ∨ (user = referrer ∧ x = candidate)
        | Raise _ => ∀ user, get_direct_referrals iter user s' = get_direct_referrals iter user s
        end.
Proof.
  intros Hinv. split.
  - intros user. split; [rewrite direct_referrals_children; by apply iter_NoDup|].
    intros x. rewrite direct_referrals_elem. destruct Hinv as [Hindex _ _].
    symmetry. apply Hindex.
  - destruct (add_referral_spec iter iter_perm referrer candidate s Hinv)
      as (res & s' & Hadd & _ & Hspec).
    exists res, s'. split; [done|]. destruct res as [ok|e].
    + destruct Hspec as (_ & _ & _ & _ & Hch & _). intros user x.
      rewrite !direct_referrals_elem. unfold child. rewrite Hch.
      destruct (decide (referrer = user)) as [->|Hne]; set_solver.
    + by destruct Hspec as [-> _].
Qed.

(** ** What the traversals compute *)

(** X4. [_get_reachable_users] returns the users reachable from [user] in one
    link or more; for a name that is no user it returns the empty set and
    does not touch the store. *)
Theorem reachable_users_descendants (s : Network) (user : string) :
  ∃ R s',
    _get_reachable_users iter user s = Some (R, s')
    ∧ store_equiv s s'
    ∧ (user ∉ R)
    ∧ (user ∉ users s → R = ∅ ∧ s' = s)
    ∧ (user ∈ users s →
         ∀ x, x ∈ R ↔ x ≠ user ∧ rtc (child (reverse_referrals s)) user x).
Proof.
  destruct (reachable_users_spec s user) as (R & s' & Hrun & Hequiv & Hout & Hin).
  exists R, s'. split_and!; [done..| | done | done].
  destruct (decide (user ∈ users s)) as [Hu|Hu].
  - by intros (? & _)%(Hin Hu).
  - destruct (Hout Hu) as [-> _]. set_solver.
Qed.

(** X5. In a store that satisfies the invariant, [get_total_referral_count]
    returns the number of users reachable from [user] in one link or more,
    and 0 for a name that is no user. *)
Theorem total_count_is_descendant_count (s : Network) (user : string) :
  store_inv s →
  ∃ n s' (D : gset string),
    get_total_referral_count iter user s = Some (n, s')
    ∧ store_equiv s s'
    ∧ (∀ x, x ∈ D ↔ user ∈ users s ∧ x ≠ user
                    ∧ rtc (child (reverse_referrals s)) user x)
    ∧ n = size D
    ∧ (user ∉ users s → n = 0).
Proof.
  intros Hinv.
  destruct (total_count_descendants s user Hinv) as (n & s' & D & Hcount & Hequiv & HD & ->).
  exists (size D), s', D. split_and!; [done..|].
  intros Hu. assert (D = ∅) as ->; [|by rewrite size_empty].
  apply set_eq. intros x. rewrite HD. set_solver.
Qed.

(** X6. In a store that [add_referral] built, the total count of a referrer
    exceeds the total count of every user it referred. *)
Theorem referrer_count_exceeds_candidate (calls : list (string * string)) :
  ∃ s,
    run iter calls empty_network = Some s
    ∧ ∀ c r, referrals s !! c = Some r →
        ∃ n_c n_r s1 s2,
          get_total_referral_count iter c s = Some (n_c, s1)
          ∧ get_total_referral_count iter r s = Some (n_r, s2)
          ∧ n_c < n_r.
Proof.
  destruct (run_from_empty calls) as (s & Hrun & Hinv & Hclosed & _).
  exists s. split; [done|]. intros c r Hedge.
  destruct (total_count_spec iter iter_perm s c) as (n_c & s1 & Hc & _).
  destruct (total_count_spec iter iter_perm s r) as (n_r & s2 & Hr & _).
  exists n_c, n_r, s1, s2. split_and!; [done..|].
  assert (r ∈ users s) as Hru by (apply Hclosed; right; by exists c).
  pose proof (total_reach_edge s c r Hinv Hru Hedge) as Hlt.
  unfold total_reach in Hlt. by rewrite Hc, Hr in Hlt.
Qed.

(** X10. In a store that satisfies the invariant, [_compute_shortest_paths]
    never meets a missing key; its table maps [start] to 0 and has an entry
    for exactly the users reachable from [start], each with its distance. *)
Theorem shortest_paths_table (s : Network) (start : string) :
  store_inv s →
  ∃ d s',
    _compute_shortest_paths iter start s = Some (Ok d, s')
    ∧ store_equiv s s'
    ∧ d !! start = Some 0
    ∧ (∀ t, t ∈ dom d ↔ rtc (child (reverse_referrals s)) start t)
    ∧ (∀ t n, d !! t = Some n ↔ distance s start t n).
Proof.
  intros Hinv.
  destruct (shortest_paths_spec iter iter_perm s start) as (s' & Hrun & Hequiv).
  exists (distances_from iter s start), s'.
  assert (∀ t n, distances_from iter s start !! t = Some n ↔ distance s start t n) as Hd.
  { intros t n. by apply distances_from_distance. }
  split_and!; [done | done | | | done].
  - apply Hd. split; [constructor|]. intros m _. lia.
  - intros t. rewrite elem_of_dom. split.
    + intros [n [Hn _]%Hd]. by eapply rtc_nsteps_2.
    + intros [n Hn]%rtc_nsteps_1. exists n. apply Hd. by apply distance_nsteps.
Qed.

(** X8. A read changes nothing that a later read sees: after
    [get_top_referrers] the edges, the users, every list of direct
    referrals and every total count are as before, and the same call
    returns the same list again. *)
Theorem reads_do_not_interfere (s : Network) (k : Z) :
  ∃ l s' s'',
    get_top_referrers iter k s = Some (l, s')
    ∧ get_top_referrers iter k s' = Some (l, s'')
    ∧ referrals s' = referrals s
    ∧ users s' = users s
    ∧ (∀ user, get_direct_referrals iter user s' = get_direct_referrals iter user s)
    ∧ (∀ user, fst <$> get_total_referral_count iter user s'
               = fst <$> get_total_referral_count iter user s).
Proof.
  destruct (top_referrers_spec iter iter_perm k s) as (s' & Htop & Hequiv).
  destruct (top_referrers_spec iter iter_perm k s') as (s'' & Htop' & _).
  pose proof Hequiv as (Href & Husers & Hch).
  assert (∀ user, total_reach iter s' user = total_reach iter s user) as Hreach.
  { intros user. symmetry. by apply total_count_equiv. }
  assert (positive_counts iter s' = positive_counts iter s) as Hpos.
  { unfold positive_counts. rewrite <-Husers. apply list_omap_ext, Forall2_same_length_lookup_2.
    { done. }
    intros i u u' Hu Hu'. assert (u = u') as <- by congruence. by rewrite Hreach. }
  eexists _, s', s''. split_and!; [done | by rewrite Htop', Hpos | done | done | |].
  - intros user. rewrite !direct_referrals_children. by rewrite Hch.
  - intros user. specialize (Hreach user). unfold total_reach in Hreach.
    destruct (total_count_spec iter iter_perm s user) as (n & s1 & Hn & _).
    destruct (total_count_spec iter iter_perm s' user) as (n' & s1' & Hn' & _).
    rewrite Hn, Hn' in *. simpl. by rewrite Hreach.
Qed.

(** ** Ancestors, descendants and the ranking *)

Lemma lies_between_descendants (s : Network) (v a b : string) :
  store_inv s → lies_between s v (a, b) ↔ descendant s a v ∧ descendant s v b.
Proof.
  intros Hinv. unfold lies_between. simpl. split.
  - intros (Hab & Hva & Hvb & d_ab & d_av & d_vb & _ & [Hav _] & [Hvb' _] & _).
    split; (split; [done | by eapply rtc_nsteps_2]).
  - intros [[Hva Hav] [Hbv Hvb]].
    assert (a ≠ b) as Hab.
    { intros ->. by destruct (descendant_trans s Hinv b v b). }
    split_and!; [done | done | by intros -> |].
    apply rtc_nsteps_1 in Hav as [n Hn], Hvb as [m Hm].
    exists (n + m), n, m. rewrite !distance_nsteps by done.
    split_and!; [by eapply nsteps_trans | done | done | done].
Qed.

Lemma descendant_referrer_user (s : Network) (a v : string) :
  store_inv s → users_closed s → descendant s a v → a ∈ users s.
Proof.
  intros [Hindex _ _] Hclosed [Hne Hav].
  apply rtc_inv in Hav as [->|(c & Hc & _)]; [done|].
  apply Hclosed. right. exists c. by apply Hindex.
Qed.

(** In a forest the pairs that have [v] on their path are the pairs of an
    ancestor and a descendant of [v]. *)
Lemma flow_score_product (s : Network) (v : string) :
  store_inv s → users_closed s → v ∈ users s →
  flow_score iter s v
  = size (filter (λ a, v ∈ reach_set iter s a) (users s)) * size (reach_set iter s v).
Proof.
  intros Hinv Hclosed Hv. rewrite <-size_gset_cprod. unfold flow_score. f_equal.
  apply set_eq. intros [a b].
  rewrite elem_of_filter, !elem_of_gset_cprod, elem_of_filter. simpl.
  rewrite on_shortest_path_lies_between by done.
  rewrite lies_between_descendants by done. rewrite !elem_of_reach_set. split.
  - intros ([Hav Hvb] & Ha & Hb). done.
  - intros ([[_ Hav] Ha] & _ & Hvb). split_and!; [done..|].
    by eapply descendant_user.
Qed.

(** X11. In a store that [add_referral] built, the flow centrality of a user
    is the number of its ancestors times the number of its descendants;
    so it is 0 for a user without a referrer and for a user that referred
    nobody. *)
Theorem flow_centrality_product (calls : list (string * string)) :
  ∃ s l s',
    run iter calls empty_network = Some s
    ∧ get_flow_centrality iter s = Some (Ok l, s')
    ∧ ∀ v n, (v, n) ∈ l →
        ∃ ancestors descendants : gset string,
          (∀ x, x ∈ ancestors ↔ x ≠ v ∧ rtc (child (reverse_referrals s)) x v)
          ∧ (∀ x, x ∈ descendants ↔ x ≠ v ∧ rtc (child (reverse_referrals s)) v x)
          ∧ n = size ancestors * size descendants
          ∧ ((v ∉ dom (referrals s)) → n = 0)
          ∧ ((∀ c, referrals s !! c ≠ Some v) → n = 0).
Proof.
  destruct (run_from_empty calls) as (s & Hrun & Hinv & Hclosed & _).
  destruct (flow_centrality_spec iter iter_perm s) as (l & s' & Hflow & Hfew & Hall & _).
  exists s, l, s'. split; [done|]. split; [done|]. intros v n Hin.
  destruct (decide (size (users s) < 3)) as [Hlt|Hge].
  { rewrite (Hfew Hlt) in Hin. by apply elem_of_nil in Hin. }
  rewrite Hall in Hin by lia.
  apply list_elem_of_fmap in Hin as (u & [= -> ->] & Hu%elem_of_elements).
  set (A := filter (λ a, u ∈ reach_set iter s a) (users s)).
  assert (∀ x, x ∈ A ↔ x ≠ u ∧ rtc (child (reverse_referrals s)) x u) as HA.
  { intros x. unfold A. rewrite elem_of_filter, elem_of_reach_set. unfold descendant. split.
    - intros [(_ & Hne & Hx) _]. split; [by intros -> | done].
    - intros [Hne Hx]. assert (descendant s x u) as Hd by (split; [by intros -> | done]).
      pose proof (descendant_referrer_user s x u Hinv Hclosed Hd). done. }
  assert (∀ x, x ∈ reach_set iter s u ↔ x ≠ u ∧ rtc (child (reverse_referrals s)) u x) as HD.
  { intros x. rewrite elem_of_reach_set. unfold descendant. tauto. }
  exists A, (reach_set iter s u).
  assert (flow_score iter s u = size A * size (reach_set iter s u)) as Hscore
    by (by apply flow_score_product).
  split_and!; [done | done | done | |].
  - intros Hroot. rewrite Hscore. assert (A = ∅) as ->; [|by rewrite size_empty].
    apply set_eq. intros x. rewrite HA. split; [|set_solver]. intros [Hne Hx]. exfalso.
    apply Hroot, (descendant_has_referrer s Hinv x). by split.
  - intros Hleaf. rewrite Hscore.
    assert (reach_set iter s u = ∅) as ->; [|rewrite size_empty; lia].
    apply set_eq. intros x. rewrite HD. split; [|set_solver]. intros [Hne Hx]. exfalso.
    apply rtc_inv in Hx as [->|(c & Hc & _)]; [done|].
    apply (Hleaf c). destruct Hinv as [Hindex _ _]. by apply Hindex.
Qed.

(** X7. In a store that [add_referral] built, the first of the top referrers
    has no referrer itself, and nobody has a larger total count. *)
Theorem top_referrer_is_root (calls : list (string * string)) (k : Z) :
  (1 ≤ k)%Z →
  ∃ s l s',
    run iter calls empty_network = Some s
    ∧ get_top_referrers iter k s = Some (l, s')
    ∧ ∀ u n, head l = Some (u, n) →
        (u ∉ dom (referrals s))
        ∧ ∀ u' n' s1, get_total_referral_count iter u' s = Some (n', s1) → n' ≤ n.
Proof.
  intros Hk. destruct (run_from_empty calls) as (s & Hrun & Hinv & Hclosed & _).
  destruct (top_referrers_spec iter iter_perm k s) as (s' & Htop & _).
  eexists s, _, s'. split; [done|]. split; [done|]. intros u n Hhead.
  pose proof (sort_desc_sorted snd (positive_counts iter s)) as Hsorted.
  pose proof (sort_desc_perm snd (positive_counts iter s)) as Hperm.
  unfold slice_to in Hhead. rewrite decide_True in Hhead by lia.
  destruct (sort_desc snd (positive_counts iter s)) as [|[u0 n0] L] eqn:HL.
  { by rewrite take_nil in Hhead. }
  assert (Z.to_nat k = S (Z.to_nat (k - 1))) as Hsucc by lia.
  rewrite Hsucc in Hhead. simpl in Hhead. injection Hhead as -> ->.
  apply StronglySorted_inv in Hsorted as [_ Hle]. rewrite Forall_forall in Hle.
  assert ((u, n) ∈ positive_counts iter s) as Hin by (rewrite <-Hperm; by left).
  apply elem_of_positive_counts in Hin as (Hu & Hn & Hpos); [|done].
  assert (∀ u', total_reach iter s u' ≤ n) as Hmax.
  { intros u'. destruct (decide (0 < total_reach iter s u')) as [Hp|]; [|lia].
    destruct (decide (u' ∈ users s)) as [Hu'|Hu'].
    - assert ((u', total_reach iter s u') ∈ positive_counts iter s) as Hin'
        by (by apply elem_of_positive_counts).
      rewrite <-Hperm in Hin'. apply elem_of_cons in Hin' as [[= _ <-]|Hin']; [done|].
      apply (Hle _ Hin').
    - unfold total_reach, get_total_referral_count in Hp.
      rewrite decide_False in Hp by done. lia. }
  split.
  - intros [r Hr]%elem_of_dom.
    assert (r ∈ users s) as Hru by (apply Hclosed; right; by exists u).
    pose proof (total_reach_edge s u r Hinv Hru Hr) as Hlt.
    specialize (Hmax r). lia.
  - intros u' n' s1 Hcount. specialize (Hmax u'). unfold total_reach in Hmax.
    by rewrite Hcount in Hmax.
Qed.

End graph_query_facts.

(** ** The theorems on concrete stores *)

Lemma two_trees_run :
  run elements [("alice", "bob"); ("alice", "charlie"); ("bob", "david"); ("eve", "frank")]
    empty_network = Some two_trees.
Proof.
  unfold two_trees.
  destruct (run elements _ empty_network) as [s|] eqn:Hrun; [done|].
  by vm_compute in Hrun.
Qed.

Lemma two_trees_inv : store_inv two_trees.
Proof.
  destruct (run_spec elements elements_iter_perm
              [("alice", "bob"); ("alice", "charlie"); ("bob", "david"); ("eve", "frank")]
              empty_network store_inv_empty) as (s & Hrun & Hinv).
  rewrite two_trees_run in Hrun. by injection Hrun as <-.
Qed.

Lemma network_stats_counts_witness :
  ∃ s stats s' (A : gset string),
    run elements [("alice", "bob"); ("alice", "charlie"); ("bob", "david"); ("eve", "frank")]
      empty_network = Some s
    ∧ get_network_stats elements s = Some (stats, s')
    ∧ store_equiv s s'
    ∧ dom stats = {["total_users"; "total_referrals"; "active_referrers"]}
    ∧ stats !! "total_users" = Some (size (users s))
    ∧ stats !! "total_referrals" = Some (size (dom (referrals s)))
    ∧ (∀ u, u ∈ A ↔ ∃ c, referrals s !! c = Some u)
    ∧ stats !! "active_referrers" = Some (size A)
    ∧ size A ≤ size (dom (referrals s))
    ∧ (users s ≠ ∅ → size (dom (referrals s)) < size (users s)).
Proof.
  exact (network_stats_counts elements elements_iter_perm
           [("alice", "bob"); ("alice", "charlie"); ("bob", "david"); ("eve", "frank")]).
Defined.

Lemma unique_reach_expansion_roots_witness :
  ∃ s l s',
    run elements [("alice", "bob"); ("alice", "charlie"); ("bob", "david"); ("eve", "frank")]
      empty_network = Some s
    ∧ get_unique_reach_expansion elements s = Some (Ok l, s')
    ∧ store_equiv s s'
    ∧ NoDup l.*1
    ∧ StronglySorted (λ a b, b.2 ≤ a.2) l
    ∧ (∀ u n, (u, n) ∈ l ↔
         u ∈ users s ∧ (u ∉ dom (referrals s)) ∧ n = total_reach elements s u ∧ 0 < n)
    ∧ sum_list_with snd l = size (dom (referrals s)).
Proof.
  exact (unique_reach_expansion_roots elements elements_iter_perm
           [("alice", "bob"); ("alice", "charlie"); ("bob", "david"); ("eve", "frank")]).
Defined.

Lemma add_referral_outcome_witness :
  ∃ res s',
    add_referral elements "david" "alice" two_trees = Some (res, s')
    ∧ (res = Raise InvalidInput ↔ "david" = "" ∨ "alice" = "")
    ∧ (res = Raise SelfReferral ↔ "david" ≠ "" ∧ "david" = "alice")
    ∧ (res = Raise DuplicateReferrer ↔
         "david" ≠ "" ∧ "alice" ≠ "" ∧ "david" ≠ "alice"
         ∧ "alice" ∈ dom (referrals two_trees))
    ∧ (res = Raise CycleDetected ↔
         "david" ≠ "" ∧ "alice" ≠ "" ∧ "david" ≠ "alice"
         ∧ ("alice" ∉ dom (referrals two_trees))
         ∧ rtc (child (reverse_referrals two_trees)) "alice" "david")
    ∧ (res = Ok true ↔
         "david" ≠ "" ∧ "alice" ≠ "" ∧ "david" ≠ "alice"
         ∧ ("alice" ∉ dom (referrals two_trees))
         ∧ ¬ rtc (child (reverse_referrals two_trees)) "alice" "david")
    ∧ (is_raise res ∨ res = Ok true).
Proof.
  exact (add_referral_outcome elements elements_iter_perm two_trees "david" "alice").
Defined.

Lemma would_create_cycle_reachable_witness :
  ∃ b s',
    _would_create_cycle elements "david" "alice" two_trees = Some (b, s')
    ∧ store_equiv two_trees s'
    ∧ (b = true ↔ rtc (child (reverse_referrals two_trees)) "alice" "david").
Proof.
  exact (would_create_cycle_reachable elements elements_iter_perm two_trees "david" "alice").
Defined.

Lemma direct_referrals_index_witness :
  store_inv two_trees
  ∧ (∀ user, NoDup (get_direct_referrals elements user two_trees)
             ∧ ∀ x, x ∈ get_direct_referrals elements user two_trees
                    ↔ referrals two_trees !! x = Some user)
  ∧ ∃ res s',
      add_referral elements "eve" "grace" two_trees = Some (res, s')
      ∧ match res with
        | Ok _ =>
            ∀ user x, x ∈ get_direct_referrals elements user s' ↔
                      x ∈ get_direct_referrals elements user two_trees
                      ∨ (user = "eve" ∧ x = "grace")
        | Raise _ =>
            ∀ user, get_direct_referrals elements user s'
                    = get_direct_referrals elements user two_trees
        end.
Proof.
  split; [exact two_trees_inv|].
  exact (direct_referrals_index elements elements_iter_perm two_trees "eve" "grace"
           two_trees_inv).
Defined.

Lemma reachable_users_descendants_witness :
  ∃ R s',
    _get_reachable_users elements "alice" two_trees = Some (R, s')
    ∧ store_equiv two_trees s'
    ∧ ("alice" ∉ R)
    ∧ ("alice" ∉ users two_trees → R = ∅ ∧ s' = two_trees)
    ∧ ("alice" ∈ users two_trees →
         ∀ x, x ∈ R ↔ x ≠ "alice" ∧ rtc (child (reverse_referrals two_trees)) "alice" x).
Proof.
  exact (reachable_users_descendants elements elements_iter_perm two_trees "alice").
Defined.

Lemma total_count_is_descendant_count_witness :
  store_inv two_trees
  ∧ ∃ n s' (D : gset string),
      get_total_referral_count elements "alice" two_trees = Some (n, s')
      ∧ store_equiv two_trees s'
      ∧ (∀ x, x ∈ D ↔ "alice" ∈ users two_trees ∧ x ≠ "alice"
                      ∧ rtc (child (reverse_referrals two_trees)) "alice" x)
      ∧ n = size D
      ∧ ("alice" ∉ users two_trees → n = 0).
Proof.
  split; [exact two_trees_inv|].
  exact (total_count_is_descendant_count elements elements_iter_perm two_trees "alice"
           two_trees_inv).
Defined.

Lemma referrer_count_exceeds_candidate_witness :
  ∃ s,
    run elements [("alice", "bob"); ("alice", "charlie"); ("bob", "david"); ("eve", "frank")]
      empty_network = Some s
    ∧ ∀ c r, referrals s !! c = Some r →
        ∃ n_c n_r s1 s2,
          get_total_referral_count elements c s = Some (n_c, s1)
          ∧ get_total_referral_count elements r s = Some (n_r, s2)
          ∧ n_c < n_r.
Proof.
  exact (referrer_count_exceeds_candidate elements elements_iter_perm
           [("alice", "bob"); ("alice", "charlie"); ("bob", "david"); ("eve", "frank")]).
Defined.

Lemma shortest_paths_table_witness :
  store_inv two_trees
  ∧ ∃ d s',
      _compute_shortest_paths elements "alice" two_trees = Some (Ok d, s')
      ∧ store_equiv two_trees s'
      ∧ d !! "alice" = Some 0
      ∧ (∀ t, t ∈ dom d ↔ rtc (child (reverse_referrals two_trees)) "alice" t)
      ∧ (∀ t n, d !! t = Some n ↔ distance two_trees "alice" t n).
Proof.
  split; [exact two_trees_inv|].
  exact (shortest_paths_table elements elements_iter_perm two_trees "alice" two_trees_inv).
Defined.

Lemma reads_do_not_interfere_witness :
  ∃ l s' s'',
    get_top_referrers elements 2 two_trees = Some (l, s')
    ∧ get_top_referrers elements 2 s' = Some (l, s'')
    ∧ referrals s' = referrals two_trees
    ∧ users s' = users two_trees
    ∧ (∀ user, get_direct_referrals elements user s'
               = get_direct_referrals elements user two_trees)
    ∧ (∀ user, fst <$> get_total_referral_count elements user s'
               = fst <$> get_total_referral_count elements user two_trees).
Proof.
  exact (reads_do_not_interfere elements elements_iter_perm two_trees 2).
Defined.

Lemma flow_centrality_product_witness :
  ∃ s l s',
    run elements [("alice", "bob"); ("alice", "charlie"); ("bob", "david"); ("eve", "frank")]
      empty_network = Some s
    ∧ get_flow_centrality elements s = Some (Ok l, s')
    ∧ ∀ v n, (v, n) ∈ l →
        ∃ ancestors descendants : gset string,
          (∀ x, x ∈ ancestors ↔ x ≠ v ∧ rtc (child (reverse_referrals s)) x v)
          ∧ (∀ x, x ∈ descendants ↔ x ≠ v ∧ rtc (child (reverse_referrals s)) v x)
          ∧ n = size ancestors * size descendants
          ∧ ((v ∉ dom (referrals s)) → n = 0)
          ∧ ((∀ c, referrals s !! c ≠ Some v) → n = 0).
Proof.
  exact (flow_centrality_product elements elements_iter_perm
           [("alice", "bob"); ("alice", "charlie"); ("bob", "david"); ("eve", "frank")]).
Defined.

Lemma top_referrer_is_root_witness :
  ∃ s l s',
    run elements [("alice", "bob"); ("alice", "charlie"); ("bob", "david"); ("eve", "frank")]
      empty_network = Some s
    ∧ get_top_referrers elements 2 s = Some (l, s')
    ∧ ∀ u n, head l = Some (u, n) →
        (u ∉ dom (referrals s))
        ∧ ∀ u' n' s1, get_total_referral_count elements u' s = Some (n', s1) → n' ≤ n.
Proof.
  apply (top_referrer_is_root elements elements_iter_perm
           [("alice", "bob"); ("alice", "charlie"); ("bob", "david"); ("eve", "frank")] 2).
  lia.
Defined.

(** * Facts about the simulation and the optimiser *)

Section simulation_facts.
Context {F : Type} `{Arith F}.

(** ** What [simulate_expected] returns *)

Lemma simulate_expected_valid (p : F) (days : Z) :
  valid_probability p = true → (0 ≤ days)%Z → ∃ l, simulate_expected p days = Ok l.
Proof.
  intros Hp Hdays. unfold simulate_expected. rewrite Hp. simpl.
  destruct (decide (days < 0)%Z); [lia|]. destruct (decide (days = 0)%Z); eauto.
Qed.

Lemma simulate_expected_raise (p : F) (days : Z) e :
  simulate_expected p days = Raise e →
  (valid_probability p = false ∧ e = InvalidProbability) ∨ ((days < 0)%Z ∧ e = InvalidDuration).
Proof.
  unfold simulate_expected. destruct (valid_probability p); simpl; [|naive_solver].
  destruct (decide (days < 0)%Z); [naive_solver|]. by destruct (decide (days = 0)%Z).
Qed.

(** ** The binary search over the bonus *)

Lemma bonus_mid (left_ right_ : Z) :
  (left_ < right_)%Z → (left_ `mod` 10 = 0)%Z → (right_ `mod` 10 = 0)%Z →
  let mid := (((left_ + right_) `div` 2) `div` 10 * 10)%Z in
  (left_ ≤ mid)%Z ∧ (mid + 10 ≤ right_)%Z ∧ (mid `mod` 10 = 0)%Z ∧ ((mid + 10) `mod` 10 = 0)%Z.
Proof.
  intros Hlt Hl Hr. simpl. Z.div_mod_to_equations. lia.
Qed.

Lemma bonus_body_inv (days target_hires : Z) (adoption_prob : Z → F) (st : Z * Z) :
  (0 ≤ days)%Z → (∀ bonus, valid_probability (adoption_prob bonus) = true) →
  bonus_inv st →
  match bonus_body days target_hires adoption_prob st with
  | inl st' => bonus_inv st' ∧ Z.to_nat (st'.2 - st'.1) < Z.to_nat (st.2 - st.1)
  | inr (Ok b) => (b `mod` 10 = 0)%Z ∧ (0 ≤ b ≤ max_bonus)%Z
  | inr (Raise _) => False
  end.
Proof.
  destruct st as [left_ right_]. intros Hdays Hprob (Hlr & Hmax & Hl & Hr). unfold bonus_body.
  destruct (decide (left_ < right_)%Z) as [Hlt|Hge]; [|split; [done | lia]].
  pose proof (bonus_mid left_ right_ Hlt Hl Hr) as (Hm1 & Hm2 & Hm3 & Hm4). simpl in *.
  rewrite Hprob. simpl.
  destruct (simulate_expected_valid (adoption_prob ((((left_ + right_) `div` 2) `div` 10) * 10)%Z) days)
    as [l ->]; [done..|].
  destruct (last l) as [x|]; [destruct (ge_int x target_hires)|];
    (split; [unfold bonus_inv; split_and!; (done || lia) | simpl; lia]).
Qed.

Lemma bonus_loop_spec (days target_hires : Z) (adoption_prob : Z → F) :
  (0 ≤ days)%Z → (∀ bonus, valid_probability (adoption_prob bonus) = true) →
  ∃ b, iterate (bonus_body days target_hires adoption_prob)
         (Z.to_nat (max_bonus + 1)) (0%Z, max_bonus) = Some (Ok b)
       ∧ (b `mod` 10 = 0)%Z ∧ (0 ≤ b ≤ max_bonus)%Z.
Proof.
  intros Hdays Hprob.
  assert (bonus_inv (0%Z, max_bonus)) as Hinit by (unfold bonus_inv, max_bonus; done).
  destruct (iterate_term (bonus_body days target_hires adoption_prob) bonus_inv
              (λ st, Z.to_nat (st.2 - st.1))) with (fuel := Z.to_nat (max_bonus + 1))
              (s := (0%Z, max_bonus)) as [r Hr].
  { intros st Hst.
    pose proof (bonus_body_inv days target_hires adoption_prob st Hdays Hprob Hst) as Hb.
    by destruct (bonus_body _ _ _ st). }
  { done. }
  { unfold max_bonus. simpl. lia. }
  assert (match r with Ok b => (b `mod` 10 = 0)%Z ∧ (0 ≤ b ≤ max_bonus)%Z | Raise _ => False end)
    as Hres.
  { refine (iterate_inv (bonus_body days target_hires adoption_prob) bonus_inv
              (λ r, match r with
                    | Ok b => (b `mod` 10 = 0)%Z ∧ (0 ≤ b ≤ max_bonus)%Z
                    | Raise _ => False
                    end) _ _ _ r Hinit Hr).
    intros st Hst.
    pose proof (bonus_body_inv days target_hires adoption_prob st Hdays Hprob Hst) as Hb.
    destruct (bonus_body _ _ _ st) as [st'|[b|e]]; [by destruct Hb | done | done]. }
  destruct r as [b|e]; [|done]. by exists b.
Qed.

(** ** [min_bonus_for_target] *)

(** C8, as the code has it.  A call with [days ≤ 0] or [target_hires ≤ 0]
    returns [None] ("impossible") whatever [eps] is, because that test
    comes first; a call with positive [days] and [target_hires] and with
    [eps ≤ 0] raises the tolerance error. *)
Theorem min_bonus_preconditions (days target_hires : Z) (adoption_prob : Z → F) (eps : F) :
  ((days ≤ 0 ∨ target_hires ≤ 0)%Z →
     min_bonus_for_target days target_hires adoption_prob eps = Some (Ok None))
  ∧ ((0 < days)%Z → (0 < target_hires)%Z → leb eps zero = true →
     min_bonus_for_target days target_hires adoption_prob eps = Some (Raise InvalidTolerance)).
Proof.
  unfold min_bonus_for_target. split.
  - intros Hpre. by destruct (decide _).
  - intros Hdays Htarget Heps. destruct (decide _) as [?|_]; [lia|]. by rewrite Heps.
Qed.

(** C5. With positive [days] and [target_hires], a positive [eps] and an
    [adoption_prob] whose values all are probabilities, the call returns
    (it neither raises nor runs for ever), and a bonus it returns is a
    multiple of the $10 increment, lies between 0 and the maximal bonus,
    and fed back through [adoption_prob] into [simulate_expected] gives a
    final value that meets [target_hires]. *)
Theorem min_bonus_sound (days target_hires : Z) (adoption_prob : Z → F) (eps : F) :
  (0 < days)%Z → (0 < target_hires)%Z → leb eps zero = false →
  (∀ bonus, valid_probability (adoption_prob bonus) = true) →
  ∃ r, min_bonus_for_target days target_hires adoption_prob eps = Some (Ok r)
       ∧ ∀ b, r = Some b →
           (b `mod` min_bonus = 0)%Z ∧ (0 ≤ b ≤ max_bonus)%Z
           ∧ meets (adoption_prob b) days target_hires.
Proof.
  intros Hdays Htarget Heps Hprob. unfold min_bonus_for_target.
  destruct (decide _) as [?|_]; [lia|]. rewrite Heps, !Hprob. cbn [negb].
  destruct (simulate_expected_valid (adoption_prob max_bonus) days) as [lmax ->];
    [done | lia |].
  destruct (match last lmax with Some final => lt_int final target_hires | None => true end).
  { eexists. split; [done|]. done. }
  destruct (bonus_loop_spec days target_hires adoption_prob) as (b & -> & Hmod & Hrange);
    [lia | done |].
  cbn [mbind option_bind]. destruct (decide _) as [_|?]; [|lia].
  rewrite Hprob. cbn [negb].
  destruct (simulate_expected_valid (adoption_prob b) days) as [l Hsim]; [done | lia |].
  rewrite Hsim.
  destruct (last l) as [x|] eqn:Hlast; [|by eexists].
  destruct (ge_int x target_hires) eqn:Hge; [|by eexists].
  eexists. split; [done|]. intros ? [= <-]. split_and!; [done | lia | lia |].
  by exists l, x.
Qed.

End simulation_facts.

(** ** Dictionaries *)

Lemma dict_get_app_fresh {V} (k : Z) (pre suf : list (Z * V)) :
  k ∉ pre.*1 → dict_get k (pre ++ suf) = dict_get k suf.
Proof.
  induction pre as [|[k' v'] pre IH]; intros Hk; simpl; [done|].
  rewrite fmap_cons, not_elem_of_cons in Hk. destruct Hk as [Hne Hk].
  destruct (decide (k = k')); [done|]. by apply IH.
Qed.

Lemma dict_set_app_fresh {V} (k : Z) (v : V) (pre suf : list (Z * V)) :
  k ∉ pre.*1 → dict_set k v (pre ++ suf) = pre ++ dict_set k v suf.
Proof.
  induction pre as [|[k' v'] pre IH]; intros Hk; simpl; [done|].
  rewrite fmap_cons, not_elem_of_cons in Hk. destruct Hk as [Hne Hk].
  destruct (decide (k = k')); [done|]. by rewrite IH.
Qed.

Lemma dict_set_keys {V} (k : Z) (v : V) (d : list (Z * V)) :
  k ∈ d.*1 → (dict_set k v d).*1 = d.*1.
Proof.
  induction d as [|[k' v'] d IH]; intros Hk; simpl; [by apply elem_of_nil in Hk|].
  destruct (decide (k = k')) as [->|Hne]; [done|]. simpl. f_equal. apply IH.
  rewrite fmap_cons, elem_of_cons in Hk. by destruct Hk.
Qed.

Lemma dict_get_is_Some {V} (k : Z) (d : list (Z * V)) :
  k ∈ d.*1 → is_Some (dict_get k d).
Proof.
  induction d as [|[k' v'] d IH]; intros Hk; simpl; [by apply elem_of_nil in Hk|].
  destruct (decide (k = k')); [by eexists|]. apply IH.
  rewrite fmap_cons, elem_of_cons in Hk. by destruct Hk.
Qed.

(** ** Loops that may raise *)

Lemma for_each_app {A St} (l1 l2 : list A) (body : St → A → result St) (st : St) :
  for_each (l1 ++ l2) body st =
  match for_each l1 body st with
  | Ok st' => for_each l2 body st'
  | Raise e => Raise e
  end.
Proof.
  revert st. induction l1 as [|x l1 IH]; intros st; simpl; [done|].
  destruct (body st x); [apply IH | done].
Qed.

Lemma for_each_inv {A St} (I : St → Prop) (l : list A) (body : St → A → result St) (st : St) :
  (∀ st x, x ∈ l → I st → ∃ st', body st x = Ok st' ∧ I st') →
  I st → ∃ st', for_each l body st = Ok st' ∧ I st'.
Proof.
  revert st. induction l as [|x l IH]; intros st Hbody Hst; simpl; [by exists st|].
  destruct (Hbody st x) as (st' & -> & Hst'); [by left | done |].
  apply IH; [|done]. intros ???. apply Hbody. by right.
Qed.

(** ** The stochastic simulation when every trial succeeds *)

Section all_trials_succeed.
Context {F : Type} `{Arith F}.
Variable draws : nat → F.
Variable p : F.
Hypothesis draws_succeed : ∀ i, ltb (draws i) p = true.

(** One pass over the keys: every referrer below capacity gains one. *)
Lemma simulate_referrers_succeed (c : Z) (suf pre : list (Z * Z)) daily deact pos :
  (c < max_referrals_per_referrer)%Z →
  NoDup (pre ++ suf).*1 → Forall (λ kv, kv.2 = c) suf →
  for_each suf.*1 (simulate_referrer draws p) (pre ++ suf, daily, deact, pos) =
  Ok (pre ++ ((λ kv, (kv.1, (c + 1)%Z)) <$> suf), (daily + Z.of_nat (length suf))%Z,
      deact ++ (if decide (max_referrals_per_referrer ≤ c + 1)%Z then suf.*1 else []),
      pos + length suf).
Proof.
  intros Hc. revert pre daily deact pos.
  induction suf as [|[k v] suf IH]; intros pre daily deact pos Hdup Hall.
  - simpl. rewrite Z.add_0_r, Nat.add_0_r. by destruct (decide _); rewrite !app_nil_r.
  - apply Forall_cons in Hall as [Hv Hall]. simpl in Hv. subst v.
    assert (k ∉ pre.*1) as Hk.
    { rewrite fmap_app in Hdup. apply NoDup_app in Hdup as (_ & Hdisj & _).
      intros Hin. apply (Hdisj k Hin). simpl. by left. }
    simpl. rewrite dict_get_app_fresh by done. simpl.
    destruct (decide (k = k)) as [_|?]; [|done].
    destruct (decide (max_referrals_per_referrer ≤ c)%Z) as [?|_]; [lia|].
    rewrite draws_succeed, dict_set_app_fresh by done. simpl.
    destruct (decide (k = k)) as [_|?]; [|done].
    rewrite (cons_middle (k, (c + 1)%Z) pre suf), app_assoc.
    rewrite IH; [| |done].
    + rewrite <-app_assoc. simpl. do 3 f_equal; [f_equal; lia | | lia].
      destruct (decide _); [by rewrite <-app_assoc | by rewrite !app_nil_r].
    + rewrite <-app_assoc. simpl. by rewrite !fmap_app in *.
Qed.

Lemma range_NoDup (n : nat) : NoDup (range n).
Proof. unfold range. apply NoDup_fmap; [apply _ | apply NoDup_seq]. Qed.

Lemma length_range (n : nat) : length (range n) = n.
Proof. unfold range. by rewrite length_fmap, length_seq. Qed.

(** One day from the state reached after [k] days. *)
Lemma saturating_simulate_step (k : nat) (cum : list Z) (pos day : nat) :
  k ≤ 10 →
  ∃ pos', simulate_day draws p (saturating_simulate k, cum, pos) day =
          Ok (saturating_simulate (min (S k) 10),
              cum ++ [(100 * Z.of_nat (min (S k) 10))%Z], pos').
Proof.
  intros Hk. unfold simulate_day, saturating_simulate.
  destruct (decide (k < 10)) as [Hlt|Hge].
  - pose proof (simulate_referrers_succeed (Z.of_nat k)
      ((λ i, (i, Z.of_nat k)) <$> range initial_active_referrers) [] 0%Z [] pos) as Hloop.
    rewrite !app_nil_l in Hloop. rewrite Hloop; clear Hloop.
    + eexists. rewrite <-!list_fmap_compose. unfold compose. simpl fst.
      replace (min (S k) 10) with (S k) by lia.
      destruct (decide (S k < 10)) as [Hlt'|Hge'].
      * destruct (decide (max_referrals_per_referrer ≤ Z.of_nat k + 1)%Z) as [Hcap|_];
          [unfold max_referrals_per_referrer in Hcap; lia|].
        simpl deactivate. rewrite !length_fmap.
        replace (Z.of_nat k + 1)%Z with (Z.of_nat (S k)) by lia.
        rewrite length_range. unfold initial_active_referrers.
        repeat f_equal; lia.
      * assert (k = 9) as -> by lia. vm_compute. reflexivity.
    + unfold max_referrals_per_referrer. lia.
    + rewrite <-list_fmap_compose.
      apply NoDup_fmap_2; [by intros x y Hxy | apply range_NoDup].
    + apply Forall_fmap, Forall_true. done.
  - assert (k = 10) as -> by lia. by eexists.
Qed.

Lemma simulate_days_succeed (n pos : nat) :
  ∃ pos', for_each (seq 0 n) (simulate_day draws p) (simulate_init pos) =
          Ok (saturating_simulate (min n 10), totals n, pos').
Proof.
  induction n as [|n [pos' IH]]; [by eexists|].
  rewrite seq_S, for_each_app, IH. cbn [for_each].
  destruct (saturating_simulate_step (min n 10) (totals n) pos' (0 + n)) as [pos'' ->]; [lia|].
  exists pos''. unfold totals. rewrite seq_S, fmap_app. cbn [fmap list_fmap].
  replace (min (S (min n 10)) 10) with (min (S n) 10) by lia.
  repeat f_equal. lia.
Qed.

Lemma simulate_succeed (pos : nat) (days : Z) :
  valid_probability p = true → (0 ≤ days)%Z →
  ∃ pos', simulate draws pos p days = Ok (totals (Z.to_nat days), pos').
Proof.
  intros Hp Hdays. unfold simulate. rewrite Hp. simpl negb. cbn match.
  destruct (decide (days < 0)%Z); [lia|].
  destruct (decide (days = 0)%Z) as [->|]; [by eexists|].
  destruct (simulate_days_succeed (Z.to_nat days) pos) as [pos' ->].
  by exists pos'.
Qed.

End all_trials_succeed.

(** ** The days of [simulate_expected] *)

(** A day appends its total to the list and looks at nothing else of it. *)
Lemma expected_day_cum {F : Type} `{Arith F} (p : F) (st : gmap Z F * nat * F) (cum : list F) :
  expected_day p (st, cum) =
  ((expected_day p (st, [])).1, cum ++ (expected_day p (st, [])).2).
Proof.
  destruct st as [[d a] t]. unfold expected_day.
  by destruct (foldl _ _ _) as [[d' daily] deact].
Qed.

Lemma expected_day_total {F : Type} `{Arith F} (p : F) (st : gmap Z F * nat * F) :
  (expected_day p (st, [])).2 = [(expected_day p (st, [])).1.2].
Proof.
  destruct st as [[d a] t]. unfold expected_day.
  by destruct (foldl _ _ _) as [[d' daily] deact].
Qed.

(** ** Probability 1 on binary64 numbers *)

Lemma saturating_expected_step (k : nat) :
  k ≤ 10 →
  expected_day (one : float) (saturating_expected k, []) =
  (saturating_expected (min (S k) 10), [float_of_int (100 * Z.of_nat (min (S k) 10))]).
Proof.
  intros Hk.
  do 11 (destruct k as [|k]; [vm_compute; reflexivity|]). lia.
Qed.

Lemma expected_days_one (n : nat) :
  Nat.iter n (expected_day (one : float)) expected_init =
  (saturating_expected (min n 10), float_of_int <$> totals n).
Proof.
  induction n as [|n IH]; [vm_compute; reflexivity|].
  cbn [Nat.iter nat_rect]. change (nat_rect _ _ _ n) with (Nat.iter n (expected_day (one : float)) expected_init).
  rewrite IH, expected_day_cum, saturating_expected_step by lia.
  cbn [fst snd]. unfold totals. rewrite seq_S, !fmap_app. cbn [fmap list_fmap].
  replace (min (S (min n 10)) 10) with (min (S n) 10) by lia.
  repeat f_equal. lia.
Qed.

Lemma simulate_expected_one (days : Z) :
  (0 ≤ days)%Z →
  simulate_expected (one : float) days = Ok (float_of_int <$> totals (Z.to_nat days)).
Proof.
  intros Hdays. unfold simulate_expected.
  change (valid_probability (one : float)) with true. cbn [negb].
  destruct (decide (days < 0)%Z); [lia|].
  destruct (decide (days = 0)%Z) as [->|]; [done|].
  by rewrite expected_days_one.
Qed.

Lemma totals_exact (n : nat) :
  Forall (λ t, eq_int (float_of_int t) t = true) (totals n).
Proof.
  unfold totals. apply Forall_fmap, Forall_forall. intros k _. simpl.
  assert (∃ j, j ≤ 10 ∧ Z.min (Z.of_nat (S k)) 10 = Z.of_nat j) as (j & Hj & ->).
  { exists (min (S k) 10). lia. }
  do 11 (destruct j as [|j]; [vm_compute; reflexivity|]). lia.
Qed.

(** C10. At probability 1.0 every draw from [0,1) succeeds, and for
    every number of days and every sequence of draws the stochastic
    [simulate] returns the integers of which the deterministic
    [simulate_expected] returns the binary64 images: the two lists have
    the same length and are equal entry by entry under Python's [==]. *)
Theorem simulate_certain_equals_expected (draws : nat → float) (pos : nat) (days : Z) :
  (0 ≤ days)%Z →
  (∀ i, leb zero (draws i) = true ∧ ltb (draws i) one = true) →
  ∃ l pos', simulate draws pos one days = Ok (l, pos')
    ∧ simulate_expected (one : float) days = Ok (float_of_int <$> l)
    ∧ Forall2 (λ n x, eq_int x n = true) l (float_of_int <$> l).
Proof.
  intros Hdays Hdraws.
  destruct (simulate_succeed draws one (λ i, proj2 (Hdraws i)) pos days) as [pos' Hsim];
    [done | done |].
  exists (totals (Z.to_nat days)), pos'. split_and!; [done | by apply simulate_expected_one |].
  apply Forall2_fmap_r, Forall_Forall2_diag, totals_exact.
Qed.

(** ** Cumulative totals never decrease *)

Lemma nondecreasing_snoc {A} (R : A → A → Prop) (l : list A) (t : A) :
  nondecreasing R l → (∀ x, x ∈ l → R x t) → R t t → nondecreasing R (l ++ [t]).
Proof.
  intros Hl Hbelow Hrefl i j x y Hij Hi Hj.
  destruct (decide (j < length l)) as [Hjl|Hjl].
  - rewrite lookup_app_l in Hi, Hj by lia. exact (Hl i j x y Hij Hi Hj).
  - assert (y = t) as ->.
    { rewrite lookup_app_r in Hj by lia. by apply list_lookup_singleton_Some in Hj as [_ ->]. }
    destruct (decide (i < length l)) as [Hil|Hil].
    + rewrite lookup_app_l in Hi by lia. apply Hbelow. by eapply list_elem_of_lookup_2.
    + rewrite lookup_app_r in Hi by lia.
      by apply list_lookup_singleton_Some in Hi as [_ ->].
Qed.

Lemma nondecreasing_nil {A} (R : A → A → Prop) : nondecreasing R [].
Proof. by intros i j x y _ Hi. Qed.

Section stochastic_monotone.
Context {F : Type} `{Arith F}.
Variable draws : nat → F.
Variable p : F.

(** One pass over the keys counts a non-negative number of referrals
    and subscripts no missing key. *)
Lemma simulate_referrers_ok (d : list (Z * Z)) (pos : nat) :
  ∃ d' daily deact pos',
    for_each d.*1 (simulate_referrer draws p) (d, 0%Z, [], pos) = Ok (d', daily, deact, pos')
    ∧ (0 ≤ daily)%Z.
Proof.
  destruct (for_each_inv
    (λ st : list (Z * Z) * Z * list Z * nat, st.1.1.1.*1 = d.*1 ∧ (0 ≤ st.1.1.2)%Z)
    d.*1 (simulate_referrer draws p) (d, 0%Z, [], pos)) as ([[[d' daily] deact] pos'] & Hrun & _ & Hdaily).
  - intros [[[d1 daily] deact] pos1] k Hk [Hkeys Hdaily]. simpl in *.
    destruct (dict_get_is_Some k d1) as [c Hc]; [by rewrite Hkeys|].
    rewrite Hc. destruct (decide _); [by eexists|].
    destruct (ltb _ _); eexists; (split; [done|]); simpl; (split; [|lia]); [|done].
    rewrite dict_set_keys; [done | by rewrite Hkeys].
  - done.
  - by exists d', daily, deact, pos'.
Qed.

Lemma simulate_day_ok (st : simulate_state) (day : nat) :
  ∃ d a t pos, simulate_day draws p st day = Ok (d, a, t, st.1.2 ++ [t], pos)
               ∧ (st.1.1.2 ≤ t)%Z.
Proof.
  destruct st as [[[[d a] t] cum] pos]. unfold simulate_day.
  destruct (simulate_referrers_ok d pos) as (d' & daily & deact & pos' & -> & Hdaily).
  eexists _, _, _, _. split; [done|]. simpl. lia.
Qed.

Lemma simulate_days_ok (n : nat) (st : simulate_state) :
  nondecreasing Z.le st.1.2 → (∀ x, x ∈ st.1.2 → (x ≤ st.1.1.2)%Z) →
  ∃ st', for_each (seq 0 n) (simulate_day draws p) st = Ok st'
         ∧ nondecreasing Z.le st'.1.2.
Proof.
  intros Hsorted Hbelow.
  destruct (for_each_inv
    (λ st : simulate_state, nondecreasing Z.le st.1.2 ∧ ∀ x, x ∈ st.1.2 → (x ≤ st.1.1.2)%Z)
    (seq 0 n) (simulate_day draws p) st) as (st' & Hrun & Hsorted' & _); [|done|by exists st'].
  clear. intros st day _ [Hsorted Hbelow].
  destruct (simulate_day_ok st day) as (d & a & t & pos & -> & Ht).
  eexists. split; [done|]. simpl. split.
  - apply nondecreasing_snoc; [done | | lia]. intros x Hx. specialize (Hbelow x Hx). lia.
  - intros x [Hx| ->%list_elem_of_singleton]%elem_of_app; [|lia].
    specialize (Hbelow x Hx). lia.
Qed.

Lemma simulate_nondecreasing (pos : nat) (days : Z) :
  valid_probability p = true → (0 ≤ days)%Z →
  ∃ l pos', simulate draws pos p days = Ok (l, pos') ∧ nondecreasing Z.le l.
Proof.
  intros Hp Hdays. unfold simulate. rewrite Hp. cbn [negb].
  destruct (decide (days < 0)%Z); [lia|].
  destruct (decide (days = 0)%Z); [eexists _, _; split; [done | apply nondecreasing_nil]|].
  destruct (simulate_days_ok (Z.to_nat days) (simulate_init pos))
    as ([[[[d a] t] cum] pos'] & -> & Hsorted);
    [apply nondecreasing_nil | by intros x Hx; apply elem_of_nil in Hx |].
  by eexists _, _.
Qed.

End stochastic_monotone.

Section expected_monotone.
Context {F : Type} `{ArithLaws F}.
Variable p : F.
Hypothesis p_nonneg : le zero p.

Lemma le_zero_add (x y : F) : le zero x → le zero y → le zero (add x y).
Proof. intros Hx Hy. eapply leb_trans; [exact Hx | by apply leb_add]. Qed.

(** The daily tally is a sum of [p]s. *)
Lemma expected_referrers_nonneg (ids : list Z) (st : gmap Z F * F * list Z) :
  le zero st.1.2 → le zero (foldl (expected_referrer p) st ids).1.2.
Proof.
  revert st. induction ids as [|k ids IH]; intros [[d daily] deact] Hdaily; [done|].
  simpl. apply IH. destruct (d !! k) as [c|]; [|done].
  destruct (ge_int c _); [done|]. simpl. by apply le_zero_add.
Qed.

Lemma expected_day_inv (n : nat) (st : expected_state) :
  expected_inv n st →
  expected_inv (S n) (expected_day p st) ∧ ∃ t, (expected_day p st).2 = st.2 ++ [t].
Proof.
  destruct st as [[[d a] t] cum]. intros (Ht & Hsorted & Hbelow & Hlen). simpl in *.
  unfold expected_day.
  pose proof (expected_referrers_nonneg (range a) (d, zero, []) leb_zero) as Hdaily.
  destruct (foldl _ _ _) as [[d' daily] deact]. simpl in *.
  assert (le t (add t daily)) as Hstep by (by apply leb_add).
  assert (le zero (add t daily)) as Hnonneg by (by apply le_zero_add).
  split; [|by eexists]. split_and!; simpl.
  - done.
  - apply nondecreasing_snoc; [done | | by apply leb_refl_nonneg].
    intros x Hx. eapply leb_trans; [by apply Hbelow | done].
  - intros x [Hx| ->%list_elem_of_singleton]%elem_of_app; [|by apply leb_refl_nonneg].
    eapply leb_trans; [by apply Hbelow | done].
  - rewrite length_app. simpl. lia.
Qed.

Lemma expected_days_inv (n : nat) :
  expected_inv n (Nat.iter n (expected_day p) expected_init).
Proof.
  induction n as [|n IH].
  - split_and!; simpl; [apply leb_zero | apply nondecreasing_nil | | done].
    by intros x Hx; apply elem_of_nil in Hx.
  - by apply expected_day_inv.
Qed.

(** The list of [m] days starts with the list of [n ≤ m] days. *)
Lemma expected_days_prefix (n m : nat) :
  n ≤ m →
  (Nat.iter n (expected_day p) expected_init).2 `prefix_of`
  (Nat.iter m (expected_day p) expected_init).2.
Proof.
  induction 1 as [|m Hle IH]; [done|].
  etrans; [exact IH|]. cbn [Nat.iter nat_rect].
  destruct (expected_day_inv m (Nat.iter m (expected_day p) expected_init)) as [_ [t Ht]];
    [apply expected_days_inv|].
  unfold Nat.iter in Ht. rewrite Ht. by apply prefix_app_r.
Qed.

Lemma simulate_expected_days (days : Z) (l : list F) :
  simulate_expected p days = Ok l →
  l = (Nat.iter (Z.to_nat days) (expected_day p) expected_init).2.
Proof.
  unfold simulate_expected. destruct (negb _); [done|].
  destruct (decide (days < 0)%Z); [done|].
  destruct (decide (days = 0)%Z) as [->|]; by intros [= <-].
Qed.

Lemma simulate_expected_nondecreasing (days : Z) (l : list F) :
  simulate_expected p days = Ok l → nondecreasing le l ∧ length l = Z.to_nat days.
Proof.
  intros ->%simulate_expected_days.
  by destruct (expected_days_inv (Z.to_nat days)) as (_ & ? & _ & ?).
Qed.

(** The final value is monotone in the number of days. *)
Lemma simulate_expected_final_mono (days days' : Z) (l l' : list F) (x y : F) :
  (days ≤ days')%Z →
  simulate_expected p days = Ok l → simulate_expected p days' = Ok l' →
  last l = Some x → last l' = Some y → le x y.
Proof.
  intros Hdays Hl Hl' Hx Hy.
  destruct (simulate_expected_nondecreasing days' l' Hl') as [Hsorted Hlen'].
  destruct (simulate_expected_nondecreasing days l Hl) as [_ Hlen].
  apply simulate_expected_days in Hl, Hl'.
  assert (l `prefix_of` l') as Hprefix.
  { subst l l'. apply expected_days_prefix. lia. }
  rewrite last_lookup in Hx, Hy.
  apply (Hsorted (pred (length l)) (pred (length l'))); [lia | | done].
  by eapply prefix_lookup_Some.
Qed.

End expected_monotone.

(** ** Exact rationals satisfy the laws *)

#[export] Instance Q_laws : ArithLaws Q.
Proof.
  split.
  - done.
  - intros x _. apply Qle_bool_iff, Qle_refl.
  - intros x y z Hxy Hyz. apply Qle_bool_iff in Hxy, Hyz. apply Qle_bool_iff.
    by eapply Qle_trans.
  - intros x y Hx Hy. apply Qle_bool_iff in Hy. apply Qle_bool_iff. simpl.
    rewrite Qred_correct, <-(Qplus_0_r x) at 1.
    apply Qplus_le_compat; [apply Qle_refl | done].
  - intros x y n Hxy Hge. simpl in *. apply Qle_bool_iff in Hxy, Hge. apply Qle_bool_iff.
    by eapply Qle_trans.
Qed.

(** ** Binary64 numbers satisfy the laws *)

(** The laws of [ArithLaws] are proved for the kernel's binary64 numbers
    from the specification of their operations ([add_spec], [leb_spec])
    and of their format ([Prim2SF_valid]). *)

(** *** Digits and shifts *)

Lemma digits2_pos_size (m : positive) : digits2_pos m = Pos.size m.
Proof. induction m as [m IH|m IH|]; simpl; congruence. Qed.

Lemma size_log2 (m : positive) : Z.pos (Pos.size m) = (Z.log2 (Z.pos m) + 1)%Z.
Proof. destruct m; simpl; lia. Qed.

Lemma fexp_binary64 (z : Z) : fexp prec emax z = Z.max (z - 53) (-1074).
Proof. reflexivity. Qed.

Lemma size_bounds (m : positive) :
  (2 ^ (Z.pos (Pos.size m) - 1) ≤ Z.pos m < 2 ^ Z.pos (Pos.size m))%Z.
Proof.
  rewrite size_log2. replace (Z.log2 (Z.pos m) + 1 - 1)%Z with (Z.log2 (Z.pos m)) by lia.
  apply Z.log2_spec. lia.
Qed.

Lemma size_mono (m n : positive) (k : Z) :
  (0 ≤ k)%Z → (Z.pos m * 2 ^ k ≤ Z.pos n)%Z →
  (Z.pos (Pos.size m) + k ≤ Z.pos (Pos.size n))%Z.
Proof.
  intros Hk Hle. rewrite !size_log2.
  apply Z.log2_le_mono in Hle. rewrite Z.log2_mul_pow2 in Hle by lia. lia.
Qed.

Lemma shr_1_div2 (mrs : shr_record) :
  (0 ≤ shr_m mrs)%Z → shr_m (shr_1 mrs) = (shr_m mrs / 2)%Z.
Proof.
  intros Hm. rewrite <-Z.div2_div.
  destruct mrs as [[|[m|m|]|m] r s]; simpl in *; try reflexivity; lia.
Qed.

Lemma iter_shr_1_div (p : positive) (mrs : shr_record) :
  (0 ≤ shr_m mrs)%Z → shr_m (iter_pos shr_1 p mrs) = (shr_m mrs / 2 ^ Z.pos p)%Z.
Proof.
  revert mrs. induction p as [p IH|p IH|]; intros mrs Hm; simpl iter_pos.
  - assert (0 ≤ shr_m (shr_1 mrs))%Z as H1.
    { rewrite shr_1_div2 by done. apply Z.div_pos; lia. }
    assert (0 ≤ shr_m (iter_pos shr_1 p (shr_1 mrs)))%Z as H2.
    { rewrite IH by done. apply Z.div_pos; [done|]. apply Z.pow_pos_nonneg; lia. }
    rewrite IH, IH, shr_1_div2 by done.
    rewrite !Z.div_div by (try apply Z.pow_pos_nonneg; lia).
    f_equal. replace (Z.pos p~1) with (1 + Z.pos p + Z.pos p)%Z by lia.
    rewrite !Z.pow_add_r, Z.pow_1_r by lia. ring.
  - assert (0 ≤ shr_m (iter_pos shr_1 p mrs))%Z as H2.
    { rewrite IH by done. apply Z.div_pos; [done|]. apply Z.pow_pos_nonneg; lia. }
    rewrite IH, IH by done.
    rewrite !Z.div_div by (try apply Z.pow_pos_nonneg; lia).
    f_equal. replace (Z.pos p~0) with (Z.pos p + Z.pos p)%Z by lia.
    rewrite !Z.pow_add_r by lia. ring.
  - by rewrite shr_1_div2.
Qed.

(** [shr_fexp] on a positive mantissa: the exponent becomes the canonical
    one when that is larger, and the mantissa is divided accordingly. *)
Lemma shr_fexp_pos (m : positive) (e : Z) :
  ∃ mrs,
    shr_fexp prec emax (Z.pos m) e loc_Exact
    = (mrs, (e + Z.max (fexp prec emax (Z.pos (Pos.size m) + e) - e) 0)%Z)
    ∧ shr_m mrs = (Z.pos m / 2 ^ Z.max (fexp prec emax (Z.pos (Pos.size m) + e) - e) 0)%Z.
Proof.
  unfold shr_fexp, shr. cbn [Zdigits2 shr_record_of_loc]. rewrite digits2_pos_size.
  destruct (fexp prec emax (Z.pos (Pos.size m) + e) - e)%Z as [|n|n] eqn:Hn.
  - eexists. split; [by rewrite Z.add_0_r|]. simpl. by rewrite Z.div_1_r.
  - eexists. split; [by rewrite Z.max_l by lia|].
    rewrite iter_shr_1_div by (simpl; lia). by rewrite Z.max_l by lia.
  - eexists. split; [by rewrite Z.max_r, Z.add_0_r by lia|].
    rewrite Z.max_r by lia. simpl. by rewrite Z.div_1_r.
Qed.

Lemma round_nearest_even_bounds (m : Z) (l : location) :
  (m ≤ round_nearest_even m l ≤ m + 1)%Z.
Proof. destruct l as [|[]]; simpl; try lia. destruct (Z.even m); lia. Qed.

Lemma shl_align_fst (m : positive) (e e' : Z) :
  (e' ≤ e)%Z → Z.pos (shl_align m e e').1 = (Z.pos m * 2 ^ (e - e'))%Z.
Proof.
  intros He. unfold shl_align. destruct (e' - e)%Z as [|d|d] eqn:Hd; simpl.
  - replace (e - e')%Z with 0%Z by lia. lia.
  - lia.
  - replace (e - e')%Z with (Z.pos d) by lia.
    clear. induction d as [|d IH] using Pos.peano_ind.
    + simpl. lia.
    + rewrite Pos.iter_succ, Pos2Z.inj_xO, IH, Pos2Z.inj_succ, Z.pow_succ_r by lia. lia.
Qed.

(** *** Rounded addition of non-negative numbers *)

Lemma bounded_canonical (m : positive) (e : Z) :
  bounded prec emax m e = true →
  Z.max (Z.pos (Pos.size m) + e - 53) (-1074) = e.
Proof.
  unfold bounded, canonical_mantissa. rewrite digits2_pos_size, fexp_binary64.
  by intros [H%Z.eqb_eq _]%andb_true_iff.
Qed.

Lemma pow2_le_pos (m : positive) (k : Z) :
  (0 ≤ k ≤ Z.pos (Pos.size m) - 1)%Z → (1 ≤ Z.pos m / 2 ^ k)%Z.
Proof.
  intros Hk. apply Z.div_le_lower_bound; [apply Z.pow_pos_nonneg; lia|].
  rewrite Z.mul_1_r. etrans; [|apply (size_bounds m)].
  apply Z.pow_le_mono_r; lia.
Qed.

(** Rounding a sum that is at least the canonical number [mx * 2^ex]
    gives a number that is at least that one too, in the order of
    [SFcompare]: a larger exponent, or the same exponent and a mantissa
    that is not smaller. *)
Lemma binary_round_ge (mx m1 : positive) (ex e1 : Z) :
  bounded prec emax mx ex = true →
  (e1 ≤ ex)%Z →
  (Z.pos mx * 2 ^ (ex - e1) ≤ Z.pos m1)%Z →
  match binary_round prec emax false m1 e1 with
  | S754_finite false m e => (ex < e)%Z ∨ (e = ex ∧ (mx ≤ m)%positive)
  | S754_infinity false => True
  | _ => False
  end.
Proof.
  intros Hcan%bounded_canonical He Hle.
  pose proof (size_mono mx m1 (ex - e1) ltac:(lia) Hle) as Hsize.
  unfold binary_round. rewrite digits2_pos_size.
  remember (fexp prec emax (Z.pos (Pos.size m1) + e1)) as f1 eqn:Hf1.
  rewrite fexp_binary64 in Hf1.
  assert (ex ≤ f1)%Z as Hexf by lia.
  assert (shl_align m1 e1 f1 = (m1, e1)) as ->.
  { unfold shl_align. destruct (f1 - e1)%Z eqn:Hd; try done. lia. }
  unfold binary_round_aux.
  destruct (shr_fexp_pos m1 e1) as (mrs' & -> & Hm').
  rewrite fexp_binary64, <-Hf1 in Hm' |- *.
  rewrite Z.max_l in Hm' |- * by lia.
  replace (e1 + (f1 - e1))%Z with f1 by lia.
  pose proof (round_nearest_even_bounds (shr_m mrs') (loc_of_shr_record mrs')) as Hr.
  assert (1 ≤ shr_m mrs' ∧ (f1 = ex → Z.pos mx ≤ shr_m mrs'))%Z as [Hpos Hsame].
  { rewrite Hm'. destruct (decide (f1 = ex)) as [->|Hne].
    - assert (Z.pos mx ≤ Z.pos m1 / 2 ^ (ex - e1))%Z.
      { apply Z.div_le_lower_bound; [apply Z.pow_pos_nonneg; lia | lia]. }
      split; [lia | done].
    - split; [|done]. apply pow2_le_pos. lia. }
  destruct (round_nearest_even _ _) as [|q|q] eqn:Hq; [lia| |lia].
  destruct (shr_fexp_pos q f1) as (mrs'' & -> & Hm'').
  rewrite fexp_binary64 in Hm'' |- *. rewrite Hm''.
  destruct (decide (Z.max (Z.pos (Pos.size q) + f1 - 53) (-1074) - f1 ≤ 0)%Z) as [Hn|Hn].
  - rewrite Z.max_r by done. rewrite Z.pow_0_r, Z.div_1_r, Z.add_0_r.
    destruct (f1 <=? emax - prec)%Z; [|done].
    destruct (decide (f1 = ex)) as [Heq|Hne]; [right|left; lia].
    split; [done|]. specialize (Hsame Heq). lia.
  - rewrite Z.max_l by lia.
    pose proof (pow2_le_pos q (Z.max (Z.pos (Pos.size q) + f1 - 53) (-1074) - f1)
                  ltac:(lia)) as Hq1.
    destruct (Z.pos q / _)%Z as [|m''|m''] eqn:Hdiv in Hq1 |- *; [lia| |lia].
    destruct (_ <=? emax - prec)%Z; [|done]. left. lia.
Qed.

(** Adding a non-negative number to a non-negative number of the format
    gives no less, in the order of [SFleb]. *)
Lemma SFadd_ge (x y : spec_float) :
  valid_binary x = true →
  SFleb (S754_zero false) x = true → SFleb (S754_zero false) y = true →
  SFleb x (SF64add x y) = true.
Proof.
  intros Hvalid Hx Hy.
  destruct x as [sx|[|]| |[|] mx ex]; try done; destruct y as [sy|[|]| |[|] my ey]; try done;
    try (by destruct sx); try (by destruct sx, sy).
  - unfold SFleb. simpl. by rewrite Z.compare_refl, Pos.compare_cont_refl.
  - unfold SF64add, SFadd. cbn [cond_Zopp]. rewrite <-Pos2Z.inj_add. cbn [binary_normalize].
    pose proof (shl_align_fst mx ex (Z.min ex ey) ltac:(lia)) as Ha.
    pose proof (binary_round_ge mx ((shl_align mx ex (ex `min` ey)).1
                                     + (shl_align my ey (ex `min` ey)).1) ex (Z.min ex ey)
                  Hvalid ltac:(lia) ltac:(lia)) as Hround.
    destruct (binary_round _ _ _ _ _) as [s|[|]| |[|] m e]; try done.
    unfold SFleb. simpl. destruct Hround as [Hlt|[-> Hle]].
    + by rewrite (proj2 (Z.compare_lt_iff ex e) Hlt).
    + rewrite Z.compare_refl. fold (Pos.compare mx m).
      by destruct (Pos.compare_spec mx m); [..|lia].
Qed.

(** *** The order of binary64 numbers *)

Lemma SFleb_refl (x : spec_float) : x ≠ S754_nan → SFleb x x = true.
Proof.
  destruct x as [s|[|]| |[|] m e]; try done; intros _; unfold SFleb; simpl;
    by rewrite Z.compare_refl, Pos.compare_cont_refl.
Qed.

Lemma SFleb_trans (x y z : spec_float) :
  SFleb x y = true → SFleb y z = true → SFleb x z = true.
Proof.
  unfold SFleb.
  destruct x as [sx|[|]| |[|] mx ex], y as [sy|[|]| |[|] my ey], z as [sz|[|]| |[|] mz ez];
    simpl; try done;
    fold (Pos.compare mx my); fold (Pos.compare my mz); fold (Pos.compare mx mz);
    destruct (Z.compare_spec ex ey), (Z.compare_spec ey ez), (Z.compare_spec ex ez);
    try done; try lia;
    destruct (Pos.compare_spec mx my), (Pos.compare_spec my mz), (Pos.compare_spec mx mz);
    simpl; try done; lia.
Qed.

Lemma float_leb_add (x y : float) :
  PrimFloat.leb 0 x = true → PrimFloat.leb 0 y = true →
  PrimFloat.leb x (PrimFloat.add x y) = true.
Proof. rewrite !leb_spec, add_spec. apply SFadd_ge, Prim2SF_valid. Qed.

Lemma float_leb_refl (x : float) :
  PrimFloat.leb 0 x = true → PrimFloat.leb x x = true.
Proof.
  rewrite !leb_spec. intros Hx. apply SFleb_refl. intros Hnan. by rewrite Hnan in Hx.
Qed.

Lemma float_leb_trans (x y z : float) :
  PrimFloat.leb x y = true → PrimFloat.leb y z = true → PrimFloat.leb x z = true.
Proof. rewrite !leb_spec. apply SFleb_trans. Qed.

(** *** Comparison with an integer *)

Lemma bounded_size (m : positive) (e : Z) :
  bounded prec emax m e = true →
  (-1074 ≤ e)%Z ∧ (Z.pos m < 2 ^ 53)%Z ∧ ((-1074 < e)%Z → (2 ^ 52 ≤ Z.pos m)%Z).
Proof.
  intros Hcan%bounded_canonical. pose proof (size_bounds m) as [Hlow Hhigh].
  split_and!; [lia| |].
  - eapply Z.lt_le_trans; [exact Hhigh|]. apply Z.pow_le_mono_r; lia.
  - intros He. etrans; [|exact Hlow]. apply Z.pow_le_mono_r; lia.
Qed.

(** Canonical numbers are ordered by exponent first. *)
Lemma canonical_order (mx my : positive) (ex ey : Z) :
  bounded prec emax mx ex = true → bounded prec emax my ey = true →
  (ex < ey)%Z →
  (Z.pos mx * 2 ^ (ex + 1074) < Z.pos my * 2 ^ (ey + 1074))%Z.
Proof.
  intros (Hex & Hmx & _)%bounded_size (Hey & _ & Hmy)%bounded_size Hlt.
  specialize (Hmy ltac:(lia)).
  assert (0 < 2 ^ (ex + 1074))%Z as HA by (apply Z.pow_pos_nonneg; lia).
  assert (2 * 2 ^ (ex + 1074) ≤ 2 ^ (ey + 1074))%Z as HB.
  { rewrite <-Z.pow_succ_r by lia. apply Z.pow_le_mono_r; lia. }
  change (2 ^ 53)%Z with (2 * 2 ^ 52)%Z in Hmx.
  generalize dependent (2 ^ 52)%Z. generalize dependent (2 ^ (ex + 1074))%Z.
  generalize dependent (2 ^ (ey + 1074))%Z. intros B A HA HB c Hmx Hmy. nia.
Qed.

Lemma SFleb_scaled (x y : spec_float) :
  valid_binary x = true → valid_binary y = true → SF_number x → SF_number y →
  SFleb x y = true → (SF_scaled x ≤ SF_scaled y)%Z.
Proof.
  unfold SFleb.
  destruct x as [sx|sx| |sx mx ex], y as [sy|sy| |sy my ey]; simpl; try done;
    intros Hx Hy _ _.
  - destruct sy; [done|]. intros _. apply Z.mul_nonneg_nonneg; [lia|].
    apply Z.pow_nonneg; lia.
  - destruct sx; [|done]. intros _. apply Z.mul_nonpos_nonneg; [lia|].
    apply Z.pow_nonneg; lia.
  - pose proof (bounded_size _ _ Hx) as (Hex & _).
    pose proof (bounded_size _ _ Hy) as (Hey & _).
    assert (0 < 2 ^ (ex + 1074))%Z as HA by (apply Z.pow_pos_nonneg; lia).
    assert (0 < 2 ^ (ey + 1074))%Z as HB by (apply Z.pow_pos_nonneg; lia).
    fold (Pos.compare mx my).
    destruct sx, sy; try done.
    + destruct (Z.compare_spec ex ey) as [->|Hlt|Hgt]; try done.
      * destruct (Pos.compare_spec mx my) as [->|?|?]; simpl; try done; intros _; nia.
      * intros _. pose proof (canonical_order my mx ey ex Hy Hx Hgt). lia.
    + intros _. nia.
    + destruct (Z.compare_spec ex ey) as [->|Hlt|Hgt]; try done.
      * destruct (Pos.compare_spec mx my) as [->|?|?]; simpl; try done; intros _; nia.
      * intros _. pose proof (canonical_order mx my ex ey Hx Hy Hlt). lia.
Qed.

Lemma compare_mul_pos (n m p : Z) : (0 < p)%Z → (n * p ?= m * p)%Z = (n ?= m)%Z.
Proof.
  intros Hp. destruct (Z.compare_spec n m), (Z.compare_spec (n * p) (m * p)); try done; nia.
Qed.

Lemma SF_cmp_Z_scaled (x : spec_float) (n : Z) :
  valid_binary x = true → SF_number x →
  SF_cmp_Z x n = Some (SF_scaled x ?= n * 2 ^ 1074)%Z.
Proof.
  intros Hx Hnum. destruct x as [s|s| |s m e]; try done; cbn [SF_cmp_Z SF_scaled].
  - f_equal. rewrite <-(compare_mul_pos 0 n (2 ^ 1074)) by (apply Z.pow_pos_nonneg; lia).
    by rewrite Z.mul_0_l.
  - pose proof (bounded_size _ _ Hx) as (He & _). f_equal.
    destruct (decide (0 ≤ e)%Z) as [Hpos|Hneg].
    + rewrite Z.pow_add_r, Z.mul_assoc by lia.
      apply eq_sym, compare_mul_pos, Z.pow_pos_nonneg; lia.
    + replace 1074%Z with (- e + (e + 1074))%Z at 2 by lia.
      rewrite (Z.pow_add_r 2 (- e) (e + 1074)), Z.mul_assoc by lia.
      apply eq_sym, compare_mul_pos, Z.pow_pos_nonneg; lia.
Qed.

Lemma float_ge_int_mono (x y : float) (n : Z) :
  PrimFloat.leb x y = true → ge_int x n = true → ge_int y n = true.
Proof.
  intros Hxy. unfold ge_int, float_arith. destruct (decide (small_int n)) as [_|_].
  { intros Hn. by eapply float_leb_trans. }
  rewrite leb_spec in Hxy.
  pose proof (Prim2SF_valid x) as Hx. pose proof (Prim2SF_valid y) as Hy.
  destruct (Prim2SF x) as [sx|sx| |sx mx ex] eqn:Ex, (Prim2SF y) as [sy|sy| |sy my ey] eqn:Ey;
    try done; try (by destruct sx); try (by destruct sy); try (by destruct sx, sy).
  all: rewrite !SF_cmp_Z_scaled by done.
  all: match goal with
       | H : SFleb ?a ?b = true |- _ =>
           pose proof (SFleb_scaled a b Hx Hy I I H) as Hle
       end.
  all: repeat match goal with
              | |- context [(?a ?= ?b)%Z] => destruct (Z.compare_spec a b)
              end; try done; lia.
Qed.

(** Binary64 numbers with round-to-nearest addition satisfy the laws. *)
#[export] Instance float_laws : ArithLaws float.
Proof.
  split.
  - reflexivity.
  - exact float_leb_refl.
  - exact float_leb_trans.
  - exact float_leb_add.
  - exact float_ge_int_mono.
Qed.

(** ** Cumulative totals never decrease, on binary64 numbers *)

(** C9. For a binary64 probability in [0,1] and a non-negative number of
    days, the list [simulate] returns is non-decreasing whatever the
    random draws are, the list [simulate_expected] returns is
    non-decreasing in the order [<=] of binary64 numbers, and the final
    value of [simulate_expected] does not decrease when the number of
    days grows. *)
Theorem cumulative_totals_nondecreasing
    (draws : nat → float) (pos : nat) (p : float) (days days' : Z) :
  valid_probability p = true → (0 ≤ days ≤ days')%Z →
  (∃ l pos', simulate draws pos p days = Ok (l, pos') ∧ nondecreasing Z.le l)
  ∧ (∃ l, simulate_expected p days = Ok l ∧ nondecreasing le l)
  ∧ (∀ l l' x y,
       simulate_expected p days = Ok l → simulate_expected p days' = Ok l' →
       last l = Some x → last l' = Some y → le x y).
Proof.
  intros Hp Hdays.
  assert (le zero p) as Hnonneg.
  { unfold valid_probability in Hp. by apply andb_true_iff in Hp as [? _]. }
  split_and!.
  - apply simulate_nondecreasing; [done | lia].
  - destruct (simulate_expected_valid p days) as [l Hl]; [done | lia |].
    exists l. split; [done|]. by eapply simulate_expected_nondecreasing.
  - intros l l' x y. apply simulate_expected_final_mono; [done | lia].
Qed.

(** ** [days_to_target] *)

Section days_to_target_facts.
Context {F : Type} `{ArithLaws F}.
Variable p : F.
Variable target_total : Z.
Hypothesis p_valid : valid_probability p = true.

Lemma valid_nonneg : le zero p.
Proof. unfold valid_probability in p_valid. by apply andb_true_iff in p_valid as [? _]. Qed.

Lemma meets_positive (d : Z) : meets p d target_total → (1 ≤ d)%Z.
Proof.
  intros (l & x & Hl & Hx & _).
  destruct (simulate_expected_nondecreasing p valid_nonneg d l Hl) as [_ Hlen].
  destruct l; [done|]. simpl in Hlen. lia.
Qed.

(** More days still meet the target. *)
Lemma meets_mono (d d' : Z) :
  (d ≤ d')%Z → meets p d target_total → meets p d' target_total.
Proof.
  intros Hd Hmeets. pose proof (meets_positive d Hmeets) as Hpos.
  destruct Hmeets as (l & x & Hl & Hx & Hge).
  destruct (simulate_expected_valid p d') as [l' Hl']; [done | lia |].
  destruct (simulate_expected_nondecreasing p valid_nonneg d' l' Hl') as [_ Hlen'].
  destruct (last l') as [y|] eqn:Hy.
  - exists l', y. split_and!; [done..|]. eapply ge_int_mono; [|done].
    by eapply (simulate_expected_final_mono p valid_nonneg d d').
  - apply last_None in Hy as ->. simpl in Hlen'. lia.
Qed.

Lemma days_body_inv (st : Z * Z) :
  days_inv p target_total st →
  match days_body p target_total st with
  | inl st' => days_inv p target_total st' ∧ Z.to_nat (st'.2 - st'.1) < Z.to_nat (st.2 - st.1)
  | inr (Ok d) => days_inv p target_total (d, d)
  | inr (Raise _) => False
  end.
Proof.
  destruct st as [left_ right_]. intros (Hlr & Hmax & Hbelow & Hright). simpl in *.
  unfold days_body. destruct (decide (left_ < right_)%Z) as [Hlt|Hge].
  - set (mid := ((left_ + right_) `div` 2)%Z).
    assert (left_ ≤ mid < right_)%Z as Hmid by (unfold mid; Z.div_mod_to_equations; lia).
    destruct (simulate_expected_valid p mid) as [l Hl]; [done | lia |]. rewrite Hl.
    assert (∀ x, last l = Some x → ge_int x target_total = true → meets p mid target_total)
      as Hyes by (intros x ??; by exists l, x).
    assert ((∀ x, last l = Some x → ge_int x target_total = false) →
            ∀ d, (d < mid + 1)%Z → ¬ meets p d target_total) as Hno.
    { intros Hfinal d Hd Hmeets. apply (meets_mono d mid) in Hmeets; [|lia].
      destruct Hmeets as (l' & x & Hl' & Hx & Hge). rewrite Hl in Hl'. injection Hl' as <-.
      rewrite (Hfinal x Hx) in Hge. done. }
    destruct (last l) as [x|] eqn:Hx; [destruct (ge_int x target_total) eqn:Hge|].
    + split; [|simpl; lia]. split_and!; simpl; try lia; eauto.
    + split; [|simpl; lia]. split_and!; simpl; try lia; try done.
      apply Hno. by intros ? [= <-].
    + split; [|simpl; lia]. split_and!; simpl; try lia; try done.
      apply Hno. by intros ? [=].
  - assert (left_ = right_) as -> by lia. split_and!; simpl; try lia; done.
Qed.

Lemma days_loop_spec :
  ∃ d, iterate (days_body p target_total) (Z.to_nat (max_days + 1)) (0%Z, max_days) = Some (Ok d)
       ∧ days_inv p target_total (d, d).
Proof.
  assert (days_inv p target_total (0%Z, max_days)) as Hinit.
  { split_and!; simpl; try done; try (unfold max_days; lia).
    intros d Hd Hmeets%meets_positive. lia. }
  destruct (iterate_term (days_body p target_total) (days_inv p target_total)
              (λ st, Z.to_nat (st.2 - st.1))) with (fuel := Z.to_nat (max_days + 1))
              (s := (0%Z, max_days)) as [r Hr].
  { intros st Hst. pose proof (days_body_inv st Hst) as Hb.
    by destruct (days_body _ _ st). }
  { done. }
  { unfold max_days. simpl. lia. }
  assert (match r with Ok d => days_inv p target_total (d, d) | Raise _ => False end) as Hres.
  { refine (iterate_inv (days_body p target_total) (days_inv p target_total)
              (λ r, match r with Ok d => days_inv p target_total (d, d) | Raise _ => False end)
              _ _ _ r Hinit Hr).
    intros st Hst. pose proof (days_body_inv st Hst) as Hb.
    destruct (days_body _ _ st) as [st'|[d|e]]; [by destruct Hb | done | done]. }
  destruct r as [d|e]; [|done]. by exists d.
Qed.

Lemma days_to_target_search :
  (0 < target_total)%Z → leb p zero = false →
  (∃ d, days_to_target p target_total = Some (Ok (Some d))
        ∧ (1 ≤ d ≤ max_days)%Z ∧ meets p d target_total
        ∧ ∀ d', (d' < d)%Z → ¬ meets p d' target_total)
  ∨ (days_to_target p target_total = Some (Ok None)
     ∧ ∀ d', (d' ≤ max_days)%Z → ¬ meets p d' target_total).
Proof.
  intros Htarget Hp. unfold days_to_target.
  destruct (decide (target_total ≤ 0)%Z) as [?|_]; [lia|]. rewrite Hp.
  destruct days_loop_spec as (d & -> & Hlr & Hmax & Hbelow & Hright). simpl in *.
  destruct (decide (d ≤ max_days)%Z) as [_|?]; [|lia].
  destruct (simulate_expected_valid p d) as [l Hl]; [done | lia |]. rewrite Hl.
  assert (¬ meets p d target_total → ∀ d', (d' ≤ max_days)%Z → ¬ meets p d' target_total)
    as Hnone.
  { intros Hd d' Hd' Hmeets. destruct (decide (d' < d)%Z); [by eapply Hbelow|].
    destruct (decide (d < max_days)%Z); [by auto|].
    apply Hd. apply (meets_mono d' d); [lia | done]. }
  destruct (last l) as [x|] eqn:Hx; [destruct (ge_int x target_total) eqn:Hge|].
  - left. exists d. assert (meets p d target_total) as Hmeets by (by exists l, x).
    split_and!; try done. by apply meets_positive.
  - right. split; [done|]. apply Hnone. intros (l' & y & Hl' & Hy & Hge').
    rewrite Hl in Hl'. injection Hl' as <-. rewrite Hx in Hy. injection Hy as <-. congruence.
  - right. split; [done|]. apply Hnone. intros (l' & y & Hl' & Hy & Hge').
    rewrite Hl in Hl'. injection Hl' as <-. by rewrite Hx in Hy.
Qed.

End days_to_target_facts.

(** X22. What [days_to_target] returns on binary64 numbers.  A
    non-positive target needs 0 days; a non-positive probability never
    reaches a positive target; a probability above 1 makes the first
    probe of the search raise; for a probability in (0,1] the search is
    over 1..[max_days] = 1000 days: it returns the least number of days
    in that range whose final [simulate_expected] value meets the target,
    and [None] when none in that range does. *)
Theorem days_to_target_bounded (p : float) (target_total : Z) :
  ((target_total ≤ 0)%Z → days_to_target p target_total = Some (Ok (Some 0%Z)))
  ∧ ((0 < target_total)%Z → leb p zero = true →
       days_to_target p target_total = Some (Ok None))
  ∧ ((0 < target_total)%Z → leb p zero = false → valid_probability p = false →
       days_to_target p target_total = Some (Raise InvalidProbability))
  ∧ ((0 < target_total)%Z → leb p zero = false → valid_probability p = true →
       (∃ d, days_to_target p target_total = Some (Ok (Some d))
             ∧ (1 ≤ d ≤ max_days)%Z ∧ meets p d target_total
             ∧ ∀ d', (d' < d)%Z → ¬ meets p d' target_total)
       ∨ (days_to_target p target_total = Some (Ok None)
          ∧ ∀ d', (d' ≤ max_days)%Z → ¬ meets p d' target_total)).
Proof.
  split_and!.
  - intros Htarget. unfold days_to_target. by destruct (decide _).
  - intros Htarget Hp. unfold days_to_target. destruct (decide _); [lia|]. by rewrite Hp.
  - intros Htarget Hp Hbad. unfold days_to_target. destruct (decide _); [lia|]. rewrite Hp.
    replace (Z.to_nat (max_days + 1)) with (S (Z.to_nat max_days)) by reflexivity.
    cbn [iterate]. unfold days_body at 1. destruct (decide _) as [_|Hge]; [|done].
    unfold simulate_expected. by rewrite Hbad.
  - intros Htarget Hp Hvalid. by apply days_to_target_search.
Qed.

(** ** Concrete inputs *)

Lemma meetsb_meets {F : Type} `{Arith F} (p : F) (days target : Z) :
  meetsb p days target = true → meets p days target.
Proof.
  unfold meetsb, meets. destruct (simulate_expected p days) as [l|]; [|done].
  destruct (last l) as [x|] eqn:Hx; [|done]. intros Hge. by exists l, x.
Qed.

Lemma meets_meetsb {F : Type} `{Arith F} (p : F) (days target : Z) :
  meets p days target → meetsb p days target = true.
Proof. intros (l & x & Hl & Hx & Hge). unfold meetsb. by rewrite Hl, Hx. Qed.

(** C4. At p = 0.001 and a target of 101 the final value of
    [simulate_expected] meets the target after 1011 days and after no
    fewer, so 1011 is the minimal number of days the claim asks for;
    [days_to_target] searches 0..1000 days only and answers [None]. *)
Theorem days_to_target_misses_target :
  days_to_target 0.001%float 101 = Some (Ok None)
  ∧ meets 0.001%float 1011 101
  ∧ ∀ d, meets 0.001%float d 101 → (1011 ≤ d)%Z.
Proof.
  split_and!.
  - vm_compute. reflexivity.
  - apply meetsb_meets. vm_compute. reflexivity.
  - intros d Hmeets. destruct (decide (1011 ≤ d)%Z) as [|Hlt]; [done|]. exfalso.
    assert (meets 0.001%float 1010 101) as Hlate.
    { apply (meets_mono 0.001%float 101) with (d := d); [reflexivity | lia | done]. }
    apply meets_meetsb in Hlate. by vm_compute in Hlate.
Qed.

Lemma days_to_target_bounded_witness :
  days_to_target 0.5%float 0 = Some (Ok (Some 0%Z))
  ∧ days_to_target 0%float 100 = Some (Ok None)
  ∧ days_to_target 1.5%float 100 = Some (Raise InvalidProbability)
  ∧ ((∃ d, days_to_target 0.5%float 100 = Some (Ok (Some d))
           ∧ (1 ≤ d ≤ max_days)%Z ∧ meets 0.5%float d 100
           ∧ ∀ d', (d' < d)%Z → ¬ meets 0.5%float d' 100)
     ∨ (days_to_target 0.5%float 100 = Some (Ok None)
        ∧ ∀ d', (d' ≤ max_days)%Z → ¬ meets 0.5%float d' 100)).
Proof.
  split; [|split; [|split]].
  - apply (days_to_target_bounded 0.5%float 0). lia.
  - apply (days_to_target_bounded 0%float 100); [lia | reflexivity].
  - apply (days_to_target_bounded 1.5%float 100); [lia | reflexivity | reflexivity].
  - apply (days_to_target_bounded 0.5%float 100); [lia | reflexivity | reflexivity].
Defined.

Lemma step_curve_valid (bonus : Z) : valid_probability (step_curve bonus) = true.
Proof. unfold step_curve. destruct (decide _); reflexivity. Qed.

Lemma min_bonus_sound_witness :
  ∃ r, min_bonus_for_target 10 100 step_curve 0.01%float = Some (Ok r)
       ∧ ∀ b, r = Some b →
           (b `mod` min_bonus = 0)%Z ∧ (0 ≤ b ≤ max_bonus)%Z
           ∧ meets (step_curve b) 10 100.
Proof.
  apply (min_bonus_sound 10 100 step_curve 0.01%float);
    [reflexivity | reflexivity | reflexivity | exact step_curve_valid].
Defined.

(** The claim C8 fails where both preconditions are violated at once:
    with no days and a zero tolerance the call returns [None], it does
    not raise the tolerance error. *)
Lemma min_bonus_preconditions_counterexample :
  (0 ≤ 0)%Z ∧ leb 0%float zero = true
  ∧ min_bonus_for_target 0 100 step_curve 0%float = Some (Ok None)
  ∧ min_bonus_for_target 0 100 step_curve 0%float ≠ Some (Raise InvalidTolerance).
Proof. split_and!; [lia | reflexivity | reflexivity | by vm_compute]. Qed.

Lemma min_bonus_preconditions_witness :
  ((0 ≤ 0 ∨ 100 ≤ 0)%Z →
     min_bonus_for_target 0 100 step_curve 0%float = Some (Ok None))
  ∧ ((0 < 0)%Z → (0 < 100)%Z → leb 0%float zero = true →
     min_bonus_for_target 0 100 step_curve 0%float = Some (Raise InvalidTolerance)).
Proof. exact (min_bonus_preconditions 0 100 step_curve 0%float). Defined.

Lemma cumulative_totals_nondecreasing_witness :
  (∃ l pos', simulate (λ _, 0.5%float) 0 0.3%float 40 = Ok (l, pos') ∧ nondecreasing Z.le l)
  ∧ (∃ l, simulate_expected 0.3%float 40 = Ok l ∧ nondecreasing le l)
  ∧ (∀ l l' x y,
       simulate_expected 0.3%float 40 = Ok l → simulate_expected 0.3%float 45 = Ok l' →
       last l = Some x → last l' = Some y → le x y).
Proof.
  apply (cumulative_totals_nondecreasing (λ _, 0.5%float) 0 0.3%float 40 45);
    [reflexivity | lia].
Defined.

Lemma simulate_certain_equals_expected_witness :
  ∃ l pos', simulate (λ _, 0.5%float) 0 one 12 = Ok (l, pos')
    ∧ simulate_expected (one : float) 12 = Ok (float_of_int <$> l)
    ∧ Forall2 (λ n x, eq_int x n = true) l (float_of_int <$> l).
Proof.
  apply (simulate_certain_equals_expected (λ _, 0.5%float) 0 12);
    [lia | intros i; split; reflexivity].
Defined.

(** * Further facts about the simulation and the optimiser *)

(** ** Arguments and lengths *)

Section simulation_shape.
Context {F : Type} `{Arith F}.
Variable draws : nat → F.
Variable p : F.

Lemma expected_day_snoc (st : expected_state) :
  ∃ t, (expected_day p st).2 = st.2 ++ [t].
Proof.
  destruct st as [st cum]. rewrite expected_day_cum, expected_day_total. by eexists.
Qed.

Lemma expected_days_extend (n m : nat) :
  ∃ new, (Nat.iter (n + m) (expected_day p) expected_init).2 =
         (Nat.iter n (expected_day p) expected_init).2 ++ new
         ∧ length new = m.
Proof.
  induction m as [|m (new & IH & Hlen)].
  - exists []. by rewrite Nat.add_0_r, app_nil_r.
  - rewrite Nat.add_succ_r. cbn [Nat.iter nat_rect].
    destruct (expected_day_snoc (Nat.iter (n + m) (expected_day p) expected_init)) as [t Ht].
    unfold Nat.iter in *. rewrite Ht, IH. exists (new ++ [t]).
    rewrite app_assoc, length_app. simpl. split; [done | lia].
Qed.

Lemma simulate_days_extend (n start : nat) (st : simulate_state) :
  ∃ st' new, for_each (seq start n) (simulate_day draws p) st = Ok st'
             ∧ st'.1.2 = st.1.2 ++ new ∧ length new = n.
Proof.
  revert start st. induction n as [|n IH]; intros start st.
  - exists st, []. by rewrite app_nil_r.
  - cbn [seq for_each].
    destruct (simulate_day_ok draws p st start) as (d & a & t & pos & -> & _).
    destruct (IH (S start) (d, a, t, st.1.2 ++ [t], pos)) as (st' & new & -> & Hcum & Hlen).
    exists st', (t :: new). split; [done|]. simpl in *. rewrite Hcum, <-app_assoc.
    split; [done | lia].
Qed.

Lemma simulate_unfold (pos : nat) (days : Z) :
  valid_probability p = true → (0 ≤ days)%Z →
  ∃ st', for_each (seq 0 (Z.to_nat days)) (simulate_day draws p) (simulate_init pos) = Ok st'
         ∧ simulate draws pos p days = Ok (st'.1.2, st'.2)
         ∧ length st'.1.2 = Z.to_nat days.
Proof.
  intros Hp Hdays.
  destruct (simulate_days_extend (Z.to_nat days) 0 (simulate_init pos))
    as (st' & new & Hrun & Hcum & Hlen).
  exists st'. split; [done|]. simpl in Hcum. subst new. split; [|done].
  unfold simulate. rewrite Hp. cbn [negb].
  destruct (decide (days < 0)%Z); [lia|].
  destruct (decide (days = 0)%Z) as [->|].
  - simpl in Hrun. by injection Hrun as <-.
  - rewrite Hrun. by destruct st' as [[[[??]?]?]?].
Qed.

Lemma simulate_expected_unfold (days : Z) :
  valid_probability p = true → (0 ≤ days)%Z →
  simulate_expected p days = Ok (Nat.iter (Z.to_nat days) (expected_day p) expected_init).2.
Proof.
  intros Hp Hdays. unfold simulate_expected. rewrite Hp. cbn [negb].
  destruct (decide (days < 0)%Z); [lia|].
  by destruct (decide (days = 0)%Z) as [->|].
Qed.

(** X13. Both simulations test the probability first and the number of days
    next, return nothing for no day, and otherwise one total per day. *)
Theorem simulate_arguments_and_length (pos : nat) (days : Z) :
  (valid_probability p = false →
     simulate draws pos p days = Raise InvalidProbability
     ∧ simulate_expected p days = Raise InvalidProbability)
  ∧ (valid_probability p = true → (days < 0)%Z →
       simulate draws pos p days = Raise InvalidDuration
       ∧ simulate_expected p days = Raise InvalidDuration)
  ∧ (valid_probability p = true → (0 ≤ days)%Z →
       ∃ l pos' l',
         simulate draws pos p days = Ok (l, pos')
         ∧ simulate_expected p days = Ok l'
         ∧ length l = Z.to_nat days ∧ length l' = Z.to_nat days
         ∧ (days = 0%Z → pos' = pos)).
Proof.
  split_and!.
  - intros Hp. unfold simulate, simulate_expected. by rewrite Hp.
  - intros Hp Hdays. unfold simulate, simulate_expected. rewrite Hp. cbn [negb].
    by rewrite !decide_True.
  - intros Hp Hdays.
    destruct (simulate_unfold pos days Hp Hdays) as (st' & Hrun & Hsim & Hlen).
    eexists _, _, _. split_and!; [done | by apply simulate_expected_unfold | done | |].
    + destruct (expected_days_extend 0 (Z.to_nat days)) as (new & Hnew & Hlen').
      simpl in Hnew. unfold Nat.iter in *. by rewrite Hnew.
    + intros ->. simpl in Hrun. by injection Hrun as <-.
Qed.

(** X14. A longer horizon only appends: the totals of the first days do not
    depend on how many days follow. *)
Theorem simulate_horizon_prefix (pos : nat) (days days' : Z) :
  valid_probability p = true → (0 ≤ days ≤ days')%Z →
  (∃ l l' pos1 pos2,
     simulate draws pos p days = Ok (l, pos1)
     ∧ simulate draws pos p days' = Ok (l', pos2)
     ∧ l `prefix_of` l')
  ∧ (∃ l l',
       simulate_expected p days = Ok l
       ∧ simulate_expected p days' = Ok l'
       ∧ l `prefix_of` l').
Proof.
  intros Hp [Hdays Hle].
  assert (Z.to_nat days' = Z.to_nat days + Z.to_nat (days' - days)) as Hsplit by lia.
  split.
  - destruct (simulate_unfold pos days Hp Hdays) as (st1 & Hrun1 & Hsim1 & _).
    destruct (simulate_unfold pos days' Hp) as (st2 & Hrun2 & Hsim2 & _); [lia|].
    eexists _, _, _, _. split_and!; [done | done |].
    rewrite Hsplit, seq_app, for_each_app, Hrun1 in Hrun2. simpl in Hrun2.
    destruct (simulate_days_extend (Z.to_nat (days' - days)) (Z.to_nat days) st1)
      as (st2' & new & Hrun2' & Hcum & _).
    rewrite Hrun2 in Hrun2'. injection Hrun2' as <-. rewrite Hcum. by apply prefix_app_r.
  - rewrite !simulate_expected_unfold by (done || lia). eexists _, _. split_and!; [done..|].
    destruct (expected_days_extend (Z.to_nat days) (Z.to_nat (days' - days))) as (new & Hnew & _).
    rewrite Hsplit. unfold Nat.iter in *. rewrite Hnew. by apply prefix_app_r.
Qed.

End simulation_shape.

(** ** The capacity of the network bounds [simulate] *)

Lemma filter_all {A} (P : A → Prop) `{!∀ x, Decision (P x)} (l : list A) :
  (∀ x, x ∈ l → P x) → filter P l = l.
Proof.
  induction l as [|x l IH]; intros Hall; [done|].
  rewrite filter_cons_True by (apply Hall; by left). f_equal. apply IH.
  intros y Hy. apply Hall. by right.
Qed.

Lemma dict_del_filter {V} (k : Z) (d : list (Z * V)) :
  NoDup d.*1 → dict_del k d = filter (λ kv, kv.1 ≠ k) d.
Proof.
  induction d as [|[k' v'] d IH]; intros Hnd; simpl; [done|].
  apply NoDup_cons in Hnd as [Hfresh Hnd]. rewrite filter_cons. simpl.
  destruct (decide (k = k')) as [<-|Hne].
  - rewrite decide_False by (by intros ?). symmetry. apply filter_all.
    intros [k1 v1] Hin Heq. simpl in Heq. subst k1. apply Hfresh.
    apply list_elem_of_fmap. by exists (k, v1).
  - rewrite decide_True by done. by rewrite IH.
Qed.

Lemma filter_keys_NoDup {V} (P : Z * V → Prop) `{!∀ x, Decision (P x)} (d : list (Z * V)) :
  NoDup d.*1 → NoDup (filter P d).*1.
Proof.
  intros Hnd. eapply sublist_NoDup; [exact Hnd|]. apply fmap_sublist, sublist_filter.
Qed.

Lemma deactivate_filter {V} (ids : list Z) (d : list (Z * V)) :
  NoDup d.*1 → deactivate ids d = filter (λ kv, kv.1 ∉ ids) d.
Proof.
  unfold deactivate. revert d. induction ids as [|k ids IH]; intros d Hnd; simpl.
  - symmetry. apply filter_all. intros ? _ ?%elem_of_nil. done.
  - assert ((if decide (k ∈ d.*1) then dict_del k d else d) = filter (λ kv, kv.1 ≠ k) d) as ->.
    { destruct (decide (k ∈ d.*1)) as [|Hk]; [by apply dict_del_filter|].
      symmetry. apply filter_all. intros [k1 v1] Hin Heq. simpl in Heq. subst k1.
      apply Hk, list_elem_of_fmap. by exists (k, v1). }
    rewrite IH by (by apply filter_keys_NoDup). rewrite list_filter_filter.
    apply list_filter_iff. intros kv. rewrite not_elem_of_cons. tauto.
Qed.

Lemma room_app (d1 d2 : list (Z * Z)) : room (d1 ++ d2) = (room d1 + room d2)%Z.
Proof. unfold room. induction d1 as [|kv d1 IH]; simpl; [done|]. rewrite IH. lia. Qed.

Lemma room_bounds (d : list (Z * Z)) :
  Forall (λ kv, 0 ≤ kv.2 ≤ max_referrals_per_referrer)%Z d →
  (0 ≤ room d ≤ max_referrals_per_referrer * Z.of_nat (length d))%Z.
Proof.
  unfold room, max_referrals_per_referrer.
  induction 1 as [|kv d Hkv _ IH]; simpl; lia.
Qed.

Lemma room_filter (d : list (Z * Z)) :
  room (filter (λ kv, kv.2 ≠ max_referrals_per_referrer) d) = room d.
Proof.
  unfold room. induction d as [|kv d IH]; [done|]. rewrite filter_cons.
  destruct (decide (kv.2 ≠ max_referrals_per_referrer)) as [|Heq%dec_stable]; simpl;
    rewrite IH; [done|]. rewrite Heq. lia.
Qed.

Section simulate_capacity.
Context {F : Type} `{Arith F}.
Variable draws : nat → F.
Variable p : F.

Lemma simulate_referrer_step (k c : Z) (pre suf : list (Z * Z)) (daily : Z)
    (deact : list Z) (pos : nat) :
  k ∉ pre.*1 → (c < max_referrals_per_referrer)%Z →
  simulate_referrer draws p (pre ++ (k, c) :: suf, daily, deact, pos) k =
  Ok (if ltb (draws pos) p
      then ((pre ++ [(k, (c + 1)%Z)]) ++ suf, (daily + 1)%Z,
            (if decide (max_referrals_per_referrer ≤ c + 1)%Z then deact ++ [k] else deact),
            S pos)
      else ((pre ++ [(k, c)]) ++ suf, daily, deact, S pos)).
Proof.
  intros Hfresh Hc. unfold simulate_referrer.
  rewrite dict_get_app_fresh by done. simpl. rewrite decide_True by done.
  rewrite decide_False by lia. destruct (ltb (draws pos) p).
  - rewrite dict_set_app_fresh by done. simpl. rewrite decide_True by done.
    by rewrite <-app_assoc.
  - by rewrite <-app_assoc.
Qed.

(** One pass over the active referrers: each gains at most one referral,
    the tally is what the room shrank by, and the referrers marked for
    deactivation are those that reached the capacity. *)
Lemma simulate_referrers_room (suf pre : list (Z * Z)) (daily : Z) (deact : list Z) (pos : nat) :
  NoDup (pre ++ suf).*1 →
  Forall (λ kv, 0 ≤ kv.2 < max_referrals_per_referrer)%Z suf →
  ∃ suf' g marked,
    for_each suf.*1 (simulate_referrer draws p) (pre ++ suf, daily, deact, pos)
      = Ok (pre ++ suf', (daily + g)%Z, deact ++ marked, pos + length suf)
    ∧ suf'.*1 = suf.*1
    ∧ Forall (λ kv, 0 ≤ kv.2 ≤ max_referrals_per_referrer)%Z suf'
    ∧ (room suf' + g = room suf)%Z
    ∧ (0 ≤ g ≤ Z.of_nat (length suf))%Z
    ∧ (∀ k, k ∈ marked ↔ (k, max_referrals_per_referrer) ∈ suf').
Proof.
  revert pre daily deact pos.
  induction suf as [|[k c] suf IH]; intros pre daily deact pos Hnd Hsuf.
  { exists [], 0%Z, []. rewrite !app_nil_r, Z.add_0_r, Nat.add_0_r.
    split; [done|]. split; [done|]. split; [constructor|]. split; [done|].
    split; [simpl; lia|]. intros k. set_solver. }
  apply Forall_cons in Hsuf as [Hc Hsuf]. simpl in Hc.
  assert (k ∉ pre.*1) as Hfresh.
  { rewrite fmap_app in Hnd. apply NoDup_app in Hnd as (_ & Hdisj & _).
    intros Hk. apply (Hdisj k Hk). rewrite fmap_cons. by left. }
  rewrite fmap_cons. cbn [for_each fst]. rewrite simulate_referrer_step by (done || lia).
  assert (∀ c', NoDup ((pre ++ [(k, c')]) ++ suf).*1) as Hnd'.
  { intros c'. rewrite <-app_assoc. simpl. by rewrite fmap_app, fmap_cons in *. }
  destruct (ltb (draws pos) p).
  - destruct (IH (pre ++ [(k, (c + 1)%Z)]) (daily + 1)%Z
                (if decide (max_referrals_per_referrer ≤ c + 1)%Z then deact ++ [k] else deact)
                (S pos) (Hnd' _) Hsuf)
      as (suf' & g & marked & Hrun & Hkeys & Hall & Hroom & Hg & Hmarked).
    exists ((k, (c + 1)%Z) :: suf'), (1 + g)%Z,
      ((if decide (max_referrals_per_referrer ≤ c + 1)%Z then [k] else []) ++ marked).
    split; [|split; [|split; [|split; [|split]]]].
    + rewrite Hrun. f_equal. f_equal; [f_equal; [f_equal|]|].
      * by rewrite <-app_assoc.
      * lia.
      * destruct (decide _); by rewrite <-?app_assoc.
      * simpl. lia.
    + rewrite !fmap_cons. by rewrite Hkeys.
    + apply Forall_cons. split; [simpl; unfold max_referrals_per_referrer in *; lia | done].
    + unfold room in *. simpl. lia.
    + simpl. lia.
    + intros k'. rewrite elem_of_app, Hmarked, elem_of_cons.
      unfold max_referrals_per_referrer in *.
      destruct (decide (10 ≤ c + 1)%Z); [rewrite list_elem_of_singleton|rewrite elem_of_nil].
      * split; [intros [->|?]; [left; f_equal; lia | by right]
               | intros [[= -> _]|?]; [by left | by right]].
      * split; [intros [[]|?]; by right | intros [[= _ ?]|?]; [lia | by right]].
  - destruct (IH (pre ++ [(k, c)]) daily deact (S pos) (Hnd' _) Hsuf)
      as (suf' & g & marked & Hrun & Hkeys & Hall & Hroom & Hg & Hmarked).
    exists ((k, c) :: suf'), g, marked.
    split; [|split; [|split; [|split; [|split]]]].
    + rewrite Hrun, <-app_assoc. simpl. repeat f_equal. lia.
    + rewrite !fmap_cons. by rewrite Hkeys.
    + apply Forall_cons. split; [simpl; lia | done].
    + unfold room in *. simpl. lia.
    + simpl. lia.
    + intros k'. rewrite Hmarked, elem_of_cons.
      split; [by right | intros [[= _ ?]|?]; [lia | done]].
Qed.

Lemma filter_ext_in {A} (P Q : A → Prop) `{!∀ x, Decision (P x)} `{!∀ x, Decision (Q x)}
    (l : list A) :
  (∀ x, x ∈ l → P x ↔ Q x) → filter P l = filter Q l.
Proof.
  induction l as [|x l IH]; intros Hext; [done|]. rewrite !filter_cons.
  rewrite IH by (intros y Hy; apply Hext; by right).
  assert (P x ↔ Q x) as Hx by (apply Hext; by left).
  destruct (decide (P x)) as [HP|HP], (decide (Q x)) as [HQ|HQ]; tauto || done.
Qed.

Lemma dict_get_elem_of {V} (k : Z) (v : V) (d : list (Z * V)) :
  NoDup d.*1 → (k, v) ∈ d → dict_get k d = Some v.
Proof.
  induction d as [|[k' v'] d IH]; intros Hnd Hin; [by apply elem_of_nil in Hin|].
  apply NoDup_cons in Hnd as [Hfresh Hnd]. simpl in *.
  apply elem_of_cons in Hin as [[= <- <-]|Hin]; [by rewrite decide_True|].
  destruct (decide (k = k')) as [<-|Hne]; [|by apply IH].
  destruct Hfresh. apply list_elem_of_fmap. by exists (k, v).
Qed.

Lemma keys_NoDup_eq (d : list (Z * Z)) (k v v' : Z) :
  NoDup d.*1 → (k, v) ∈ d → (k, v') ∈ d → v = v'.
Proof.
  intros Hnd H1 H2.
  apply (dict_get_elem_of k v) in H1; [|done]. apply (dict_get_elem_of k v') in H2; [|done].
  congruence.
Qed.

(** A day keeps the invariant, and raises nothing. *)
Lemma simulate_day_inv (pos0 : nat) (st : simulate_state) (day : nat) :
  simulate_inv pos0 st →
  ∃ st', simulate_day draws p st day = Ok st' ∧ simulate_inv pos0 st'.
Proof.
  destruct st as [[[[d a] total] cum] pos].
  intros (Hnd & Hall & Hlen & Hroom & Htot & Hlast & Hbounds & Hsteps & Hpos).
  destruct (simulate_referrers_room d [] 0%Z [] pos Hnd Hall)
    as (d' & g & marked & Hrun & Hkeys & Hall' & Hroom' & Hg & Hmarked).
  simpl in Hrun. unfold simulate_day. rewrite Hrun.
  assert (NoDup d'.*1) as Hnd' by (by rewrite Hkeys).
  assert (length d' = length d) as Hlen'.
  { by rewrite <-(length_fmap fst d'), Hkeys, length_fmap. }
  rewrite deactivate_filter by done.
  assert (filter (λ kv, kv.1 ∉ marked) d' =
          filter (λ kv, kv.2 ≠ max_referrals_per_referrer) d') as ->.
  { apply filter_ext_in. intros [k c] Hin. simpl. rewrite Hmarked. split.
    - intros Hnot ->. done.
    - intros Hne Hin'. apply Hne. by eapply keys_NoDup_eq. }
  remember (filter (λ kv, kv.2 ≠ max_referrals_per_referrer) d') as d'' eqn:Hd''.
  assert (room d'' = room d') as Hroom'' by (rewrite Hd''; apply room_filter).
  assert (Forall (λ kv, 0 ≤ kv.2 < max_referrals_per_referrer)%Z d'') as Hall''.
  { rewrite Hd''. apply Forall_forall. intros kv [Hne Hin]%list_elem_of_filter.
    rewrite Forall_forall in Hall'. specialize (Hall' kv Hin). simpl in Hall'. lia. }
  assert (length d'' ≤ length d') as Hlen'' by (rewrite Hd''; apply length_filter).
  assert (NoDup d''.*1) as Hnd'' by (rewrite Hd''; by apply filter_keys_NoDup).
  pose proof (room_bounds d'') as Hrb.
  assert (0 ≤ room d'')%Z as Hroom_pos.
  { apply Hrb. eapply Forall_impl; [exact Hall''|]. intros kv ?. simpl in *. lia. }
  pose proof (room_bounds d) as Hrb0.
  assert (room d ≤ 1000)%Z as Hroom_le.
  { unfold max_referrals_per_referrer, initial_active_referrers in *.
    destruct Hrb0 as [_ Hle]; [|lia].
    eapply Forall_impl; [exact Hall|]. intros kv ?. simpl in *. lia. }
  eexists. split; [done|]. unfold simulate_inv, initial_active_referrers in *.
  split; [done|]. split; [done|]. split; [lia|]. split; [lia|].
  split; [rewrite length_app; simpl; lia|].
  split.
  { rewrite last_snoc. destruct (decide (cum ++ [(total + (0 + g))%Z] = [])) as [He|_]; [|done].
    by destruct cum. }
  split.
  { intros i x [[Hi Hx]|[-> <-]]%lookup_snoc_Some; [by apply Hbounds|]. lia. }
  split.
  { intros i x y Hx Hy. apply lookup_snoc_Some in Hy as [[Hi Hy]|[Hi <-]].
    - apply lookup_snoc_Some in Hx as [[_ Hx]|[-> _]]; [by eapply Hsteps | lia].
    - apply lookup_snoc_Some in Hx as [[_ Hx]|[? _]]; [|lia].
      assert (last cum = Some x) as Hlx.
      { rewrite last_lookup. rewrite <-Hi. simpl. done. }
      rewrite Hlx in Hlast. destruct (decide (cum = [])); [done|].
      injection Hlast as ->. lia. }
  rewrite length_app. simpl. lia.
Qed.

Lemma fmap_fst_pair {A B} (g : A → B) (l : list A) : ((λ i, (i, g i)) <$> l).*1 = l.
Proof. induction l as [|x l IH]; [done|]. rewrite !fmap_cons. simpl. by rewrite IH. Qed.

Lemma simulate_init_inv (pos : nat) : simulate_inv pos (simulate_init pos).
Proof.
  unfold simulate_init, simulate_inv.
  split; [rewrite (fmap_fst_pair (λ _, 0%Z)); apply range_NoDup|].
  split; [apply Forall_fmap, Forall_true; intros i; simpl; unfold max_referrals_per_referrer; lia|].
  split; [by rewrite length_fmap, length_range|].
  split; [by vm_compute|]. split; [simpl; lia|]. split; [done|].
  split; [intros ?? Hx; by rewrite lookup_nil in Hx|]. split; [|simpl; lia].
  intros ??? Hx. by rewrite lookup_nil in Hx.
Qed.

(** A day makes one draw for each referrer that is active when it
    starts. *)
Lemma simulate_day_draws (pos0 : nat) (st st' : simulate_state) (day : nat) :
  simulate_inv pos0 st → simulate_day draws p st day = Ok st' →
  st.2 ≤ st'.2 ≤ st.2 + 100.
Proof.
  destruct st as [[[[d a] total] cum] pos].
  intros (Hnd & Hall & Hlen & _).
  destruct (simulate_referrers_room d [] 0%Z [] pos Hnd Hall)
    as (d' & g & marked & Hrun & _).
  simpl in Hrun. unfold simulate_day. rewrite Hrun. intros [= <-].
  unfold initial_active_referrers in Hlen. simpl. lia.
Qed.

(** X15. Whatever the draws, [simulate] never reports more than the capacity of
    the network, 100 referrers of 10 referrals each, and never more than
    100 new referrals on a day; it makes at most 100 draws on each day:
    the run over one day more ends at most 100 draws later. *)
Theorem simulate_within_capacity (pos : nat) (days : Z) :
  valid_probability p = true → (0 ≤ days)%Z →
  ∃ l pos',
    simulate draws pos p days = Ok (l, pos')
    ∧ (∀ i x, l !! i = Some x → (0 ≤ x ≤ 1000)%Z ∧ (x ≤ 100 * Z.of_nat (S i))%Z)
    ∧ (∀ i x y, l !! i = Some x → l !! S i = Some y → (x ≤ y ≤ x + 100)%Z)
    ∧ pos ≤ pos' ≤ pos + 100 * Z.to_nat days
    ∧ (∀ d, (0 ≤ d < days)%Z →
         ∃ l1 pos1 l2 pos2,
           simulate draws pos p d = Ok (l1, pos1)
           ∧ simulate draws pos p (d + 1) = Ok (l2, pos2)
           ∧ pos1 ≤ pos2 ≤ pos1 + 100).
Proof.
  intros Hp Hdays.
  assert (∀ n, ∃ st, for_each (seq 0 n) (simulate_day draws p) (simulate_init pos) = Ok st
                     ∧ simulate_inv pos st) as Hreach.
  { intros n. apply for_each_inv; [|apply simulate_init_inv].
    intros st day _ Hst. by apply simulate_day_inv. }
  destruct (simulate_unfold draws p pos days Hp Hdays) as (st' & Hrun & -> & Hlen).
  destruct (Hreach (Z.to_nat days)) as (st'' & Hrun' & Hinv).
  rewrite Hrun in Hrun'. injection Hrun' as <-.
  eexists _, _. split; [done|].
  destruct st' as [[[[d a] total] cum] pos'].
  destruct Hinv as (_ & _ & _ & _ & _ & _ & Hbounds & Hsteps & Hpos).
  simpl in *. rewrite Hlen in Hpos. split; [done|]. split; [done|]. split; [done|].
  intros day Hday.
  destruct (simulate_unfold draws p pos day Hp) as (st1 & Hrun1 & Hsim1 & _); [lia|].
  destruct (simulate_unfold draws p pos (day + 1) Hp) as (st2 & Hrun2 & Hsim2 & _); [lia|].
  destruct (Hreach (Z.to_nat day)) as (st1' & Hrun1' & Hinv1).
  rewrite Hrun1 in Hrun1'. injection Hrun1' as <-.
  replace (Z.to_nat (day + 1)) with (Z.to_nat day + 1) in Hrun2 by lia.
  rewrite seq_app, for_each_app, Hrun1 in Hrun2. cbn [seq for_each] in Hrun2.
  destruct (simulate_day draws p st1 (0 + Z.to_nat day)) as [st2'|e] eqn:Hday2; [|done].
  injection Hrun2 as <-.
  eexists _, _, _, _. split; [done|]. split; [done|].
  exact (simulate_day_draws pos st1 st2' _ Hinv1 Hday2).
Qed.

End simulate_capacity.

(** ** [simulate_expected] as a recurrence *)

Lemma elem_of_range (n : nat) (k : Z) : k ∈ range n ↔ (0 ≤ k < Z.of_nat n)%Z.
Proof.
  unfold range. rewrite list_elem_of_fmap. split.
  - intros (i & -> & Hi%elem_of_seq). lia.
  - intros Hk. exists (Z.to_nat k). split; [lia|]. apply elem_of_seq. lia.
Qed.

Lemma range_S (n : nat) : range (S n) = range n ++ [Z.of_nat n].
Proof. unfold range. by rewrite seq_S, fmap_app. Qed.

Lemma lookup_tabulate {V} (g : Z → V) (n : nat) (k : Z) :
  (list_to_map ((λ i, (i, g i)) <$> range n) : gmap Z V) !! k =
  if decide (0 ≤ k < Z.of_nat n)%Z then Some (g k) else None.
Proof.
  destruct (decide (0 ≤ k < Z.of_nat n)%Z) as [Hk|Hk].
  - apply elem_of_list_to_map_1; [rewrite fmap_fst_pair; apply range_NoDup|].
    apply list_elem_of_fmap. exists k. split; [done|]. by apply elem_of_range.
  - apply not_elem_of_list_to_map_1. rewrite fmap_fst_pair. by rewrite elem_of_range.
Qed.

Lemma insert_tabulate {V} (g : Z → V) (n : nat) (k : Z) (v : V) :
  (0 ≤ k < Z.of_nat n)%Z →
  <[k := v]> (list_to_map ((λ i, (i, g i)) <$> range n) : gmap Z V) =
  list_to_map ((λ i, (i, if decide (i = k) then v else g i)) <$> range n).
Proof.
  intros Hk. apply map_eq. intros i. rewrite lookup_tabulate.
  destruct (decide (i = k)) as [->|Hne].
  - rewrite lookup_insert_eq. by rewrite decide_True.
  - rewrite lookup_insert_ne by done. by rewrite lookup_tabulate.
Qed.

Lemma tabulate_ext {V} (g g' : Z → V) (n : nat) :
  (∀ k, (0 ≤ k < Z.of_nat n)%Z → g k = g' k) →
  (list_to_map ((λ i, (i, g i)) <$> range n) : gmap Z V) =
  list_to_map ((λ i, (i, g' i)) <$> range n).
Proof.
  intros Hext. apply map_eq. intros k. rewrite !lookup_tabulate.
  destruct (decide _); [by rewrite Hext | done].
Qed.

Lemma deactivate_expected_dom {V} (ids : list Z) (d : gmap Z V) :
  dom (deactivate_expected ids d) = dom d ∖ list_to_set ids.
Proof.
  unfold deactivate_expected. revert d. induction ids as [|k ids IH]; intros d; simpl.
  - set_solver.
  - rewrite IH. destruct (decide (k ∈ dom d)); [rewrite dom_delete_L|]; set_solver.
Qed.

Section expected_recurrence_facts.
Context {F : Type} `{Arith F}.
Variable p : F.

Lemma uniform_dict_dom (c : F) : dom (uniform_dict c) = list_to_set (range initial_active_referrers).
Proof. unfold uniform_dict. by rewrite dom_list_to_map_L, (fmap_fst_pair (λ _, c)). Qed.

Lemma uniform_dict_size (c : F) : size (uniform_dict c) = initial_active_referrers.
Proof.
  pose proof (size_dom (D := gset Z) (uniform_dict c)) as Hsize.
  rewrite uniform_dict_dom in Hsize. rewrite <-Hsize.
  rewrite (size_list_to_set (C := gset Z) (range initial_active_referrers) (range_NoDup _)).
  apply length_range.
Qed.

Lemma deactivate_all (c : F) :
  deactivate_expected (range initial_active_referrers) (uniform_dict c) = ∅.
Proof.
  apply (dom_empty_iff_L (D := gset Z)).
  rewrite (deactivate_expected_dom (range initial_active_referrers) (uniform_dict c)).
  rewrite uniform_dict_dom. apply difference_diag_L.
Qed.

(** The pass over the referrers when all have the count [c], below the
    capacity: after [m] of them. *)
Lemma expected_referrers_gain (c : F) (m : nat) :
  ge_int c max_referrals_per_referrer = false → m ≤ initial_active_referrers →
  foldl (expected_referrer p) (uniform_dict c, zero, []) (range m) =
  (list_to_map ((λ i, (i, if decide (i < Z.of_nat m)%Z then add c p else c))
                  <$> range initial_active_referrers),
   Nat.iter m (λ daily_referrals, add daily_referrals p) zero,
   if ge_int (add c p) max_referrals_per_referrer then range m else []).
Proof.
  intros Hc. induction m as [|m IH]; intros Hm.
  - change (range 0) with (@nil Z). cbn [foldl Nat.iter nat_rect].
    rewrite (tabulate_ext (λ i, if decide (i < Z.of_nat 0)%Z then add c p else c) (λ _, c)).
    + fold (uniform_dict c). by destruct (ge_int (add c p) max_referrals_per_referrer).
    + intros k Hk. by rewrite decide_False by lia.
  - rewrite range_S, foldl_app, IH by lia. cbn [foldl]. unfold expected_referrer.
    rewrite lookup_tabulate.
    rewrite decide_True by lia. rewrite decide_False by lia. rewrite Hc.
    rewrite insert_tabulate by lia.
    rewrite (tabulate_ext
               (λ i, if decide (i = Z.of_nat m)
                     then add c p
                     else if decide (i < Z.of_nat m)%Z then add c p else c)
               (λ i, if decide (i < Z.of_nat (S m))%Z then add c p else c)).
    + rewrite Nat.iter_succ.
      by destruct (ge_int (add c p) max_referrals_per_referrer).
    + intros k Hk. destruct (decide (k = Z.of_nat m)) as [->|Hne].
      * by rewrite decide_True by lia.
      * destruct (decide (k < Z.of_nat m)%Z);
          [by rewrite decide_True by lia | by rewrite decide_False by lia].
Qed.

(** The pass when all have reached the capacity: everyone is marked. *)
Lemma expected_referrers_full (c : F) (m : nat) :
  ge_int c max_referrals_per_referrer = true → m ≤ initial_active_referrers →
  foldl (expected_referrer p) (uniform_dict c, zero, []) (range m) =
  (uniform_dict c, zero, range m).
Proof.
  intros Hc. induction m as [|m IH]; intros Hm; [reflexivity|].
  rewrite range_S, foldl_app, IH by lia. cbn [foldl]. unfold expected_referrer.
  unfold uniform_dict at 1. rewrite lookup_tabulate.
  rewrite decide_True by lia. fold (uniform_dict c). by rewrite Hc.
Qed.

Lemma expected_day_uniform (c total : F) (cum : list F) :
  expected_day p (uniform_dict c, initial_active_referrers, total, cum) =
  if ge_int c max_referrals_per_referrer then
    (∅, 0, add total zero, cum ++ [add total zero])
  else if ge_int (add c p) max_referrals_per_referrer then
    (∅, 0, add total (daily_expected p), cum ++ [add total (daily_expected p)])
  else
    (uniform_dict (add c p), initial_active_referrers, add total (daily_expected p),
     cum ++ [add total (daily_expected p)]).
Proof.
  unfold expected_day. destruct (ge_int c max_referrals_per_referrer) eqn:Hc.
  - rewrite expected_referrers_full by done. rewrite deactivate_all. reflexivity.
  - rewrite expected_referrers_gain by done.
    rewrite (tabulate_ext
               (λ i, if decide (i < Z.of_nat initial_active_referrers)%Z then add c p else c)
               (λ _, add c p)) by (intros k Hk; by rewrite decide_True by lia).
    fold (uniform_dict (add c p)). fold (daily_expected p).
    destruct (ge_int (add c p) max_referrals_per_referrer).
    + rewrite deactivate_all. reflexivity.
    + unfold deactivate_expected. cbn [foldl]. by rewrite uniform_dict_size.
Qed.

Lemma expected_day_retired (total : F) (cum : list F) :
  expected_day p (∅, 0, total, cum) = (∅, 0, add total zero, cum ++ [add total zero]).
Proof. reflexivity. Qed.

Lemma expected_days_uniform (n : nat) (count : option F) (total : F) (cum : list F) :
  (Nat.iter n (expected_day p)
     (match count with
      | Some c => (uniform_dict c, initial_active_referrers)
      | None => (∅, 0)
      end, total, cum)).2 = cum ++ uniform_days p n count total.
Proof.
  revert count total cum. induction n as [|n IH]; intros count total cum.
  - cbn [Nat.iter nat_rect uniform_days snd]. by rewrite app_nil_r.
  - rewrite Nat.iter_succ_r. cbn [uniform_days]. destruct count as [c|].
    + rewrite expected_day_uniform. destruct (ge_int c max_referrals_per_referrer).
      * rewrite (IH None). by rewrite <-app_assoc.
      * destruct (ge_int (add c p) max_referrals_per_referrer).
        -- rewrite (IH None). by rewrite <-app_assoc.
        -- rewrite (IH (Some (add c p))). by rewrite <-app_assoc.
    + rewrite expected_day_retired. rewrite (IH None). by rewrite <-app_assoc.
Qed.

(** X16. [simulate_expected] computes a recurrence on two numbers: the 100
    referrers gain [p] a day each, all in step, the total gains the same
    amount each of these days, and they retire together on the day their
    count reaches the capacity; from then on the total stays (0.0 is added
    to it). *)
Theorem simulate_expected_recurrence (days : Z) :
  valid_probability p = true → (0 ≤ days)%Z →
  simulate_expected p days = Ok (uniform_days p (Z.to_nat days) (Some zero) zero).
Proof.
  intros Hp Hdays. rewrite simulate_expected_unfold by done. f_equal.
  apply (expected_days_uniform (Z.to_nat days) (Some zero) zero []).
Qed.

End expected_recurrence_facts.

(** ** The search over the bonus *)

Section bonus_search.
Context {F : Type} `{Arith F}.
Variable days target_hires : Z.

(** The bounds of the search stay on the grid, whatever [adoption_prob]
    returns. *)
Lemma bonus_body_grid (adoption_prob : Z → F) (st : Z * Z) :
  bonus_inv st →
  match bonus_body days target_hires adoption_prob st with
  | inl st' => bonus_inv st'
  | inr (Ok b) => on_grid b
  | inr (Raise _) => True
  end.
Proof.
  destruct st as [left_ right_]. intros (Hlr & Hmax & Hl & Hr). unfold bonus_body.
  destruct (decide (left_ < right_)%Z) as [Hlt|Hge]; [|split; [lia | done]].
  pose proof (bonus_mid left_ right_ Hlt Hl Hr) as (Hm1 & Hm2 & Hm3 & Hm4). simpl in *.
  destruct (negb _); [done|].
  destruct (simulate_expected _ days) as [l|]; [|done].
  destruct (last l) as [x|]; [destruct (ge_int x target_hires)|];
    unfold bonus_inv; split_and!; (done || lia).
Qed.

Lemma bonus_mid_grid (left_ right_ : Z) :
  bonus_inv (left_, right_) → (left_ < right_)%Z →
  on_grid (((left_ + right_) `div` 2) `div` 10 * 10).
Proof.
  intros (Hlr & Hmax & Hl & Hr) Hlt.
  pose proof (bonus_mid left_ right_ Hlt Hl Hr) as (Hm1 & Hm2 & Hm3 & Hm4). simpl in *.
  split; [lia | done].
Qed.

Lemma bonus_body_ext (ap1 ap2 : Z → F) (st : Z * Z) :
  (∀ bonus, on_grid bonus → ap1 bonus = ap2 bonus) →
  bonus_inv st →
  bonus_body days target_hires ap1 st = bonus_body days target_hires ap2 st.
Proof.
  destruct st as [left_ right_]. intros Hext Hinv. unfold bonus_body.
  destruct (decide (left_ < right_)%Z) as [Hlt|Hge]; [|done].
  by rewrite (Hext _ (bonus_mid_grid left_ right_ Hinv Hlt)).
Qed.

Lemma bonus_init_inv : bonus_inv (0%Z, max_bonus).
Proof. unfold bonus_inv, max_bonus. done. Qed.

(** X18. [adoption_prob] is only ever asked about bonuses of the grid, the
    multiples of $10 from 0 to 10000: two functions that agree there give
    the same answer. *)
Theorem min_bonus_probes_grid (ap1 ap2 : Z → F) (eps : F) :
  (∀ bonus, on_grid bonus → ap1 bonus = ap2 bonus) →
  min_bonus_for_target days target_hires ap1 eps
  = min_bonus_for_target days target_hires ap2 eps.
Proof.
  intros Hext. unfold min_bonus_for_target.
  assert (on_grid 0) as H0 by (unfold on_grid, max_bonus; split; [lia | done]).
  assert (on_grid max_bonus) as Hmax by (unfold on_grid, max_bonus; split; [lia | done]).
  rewrite (Hext _ H0), (Hext _ Hmax).
  destruct (decide _); [done|]. destruct (leb eps zero); [done|].
  destruct (negb _); [done|]. destruct (negb _); [done|].
  destruct (simulate_expected (ap2 max_bonus) days) as [lmax|]; [|done].
  destruct (match last lmax with Some final => lt_int final target_hires | None => true end);
    [done|].
  rewrite (iterate_ext_inv (bonus_body days target_hires ap1) (bonus_body days target_hires ap2)
             bonus_inv); [| |  |apply bonus_init_inv].
  - destruct (iterate (bonus_body days target_hires ap2) _ _) as [[b|e]|] eqn:Hrun; [|done..].
    cbn [mbind option_bind].
    assert (on_grid b) as Hb.
    { refine (iterate_inv (bonus_body days target_hires ap2) bonus_inv
        (λ r, match r with Ok b => on_grid b | Raise _ => True end)
        _ _ _ (Ok b) bonus_init_inv Hrun).
      intros st Hst. apply (bonus_body_grid ap2 st Hst). }
    by rewrite (Hext _ Hb).
  - intros st Hst. by apply bonus_body_ext.
  - intros st Hst. pose proof (bonus_body_grid ap1 st Hst) as Hg.
    by destruct (bonus_body days target_hires ap1 st).
Qed.

(** When a larger bonus never does worse, no bonus of the grid below
    [left] meets the target. *)
Lemma bonus_body_search (adoption_prob : Z → F) (st : Z * Z) :
  (∀ b1 b2, on_grid b1 → on_grid b2 → (b1 ≤ b2)%Z →
     meets (adoption_prob b1) days target_hires →
     meets (adoption_prob b2) days target_hires) →
  bonus_search_inv days target_hires adoption_prob st →
  match bonus_body days target_hires adoption_prob st with
  | inl st' => bonus_search_inv days target_hires adoption_prob st'
  | inr (Ok b) =>
      ∀ bonus, on_grid bonus → (bonus < b)%Z →
        ¬ meets (adoption_prob bonus) days target_hires
  | inr (Raise _) => True
  end.
Proof.
  destruct st as [left_ right_]. intros Hmono [Hinv Hbelow].
  pose proof (bonus_body_grid adoption_prob (left_, right_) Hinv) as Hgrid.
  unfold bonus_body in *. simpl in Hbelow.
  destruct (decide (left_ < right_)%Z) as [Hlt|Hge]; [|done].
  pose proof (bonus_mid_grid left_ right_ Hinv Hlt) as Hmid.
  set (mid := (((left_ + right_) `div` 2) `div` 10 * 10)%Z) in *.
  destruct (negb _); [done|].
  destruct (simulate_expected (adoption_prob mid) days) as [l|] eqn:Hsim; [|done].
  assert (∀ bonus, on_grid bonus → (bonus < mid + 10)%Z →
            ¬ meets (adoption_prob mid) days target_hires →
            ¬ meets (adoption_prob bonus) days target_hires) as Hstep.
  { intros bonus Hb Hlt' Hnot Hmeets. apply Hnot.
    apply (Hmono bonus mid); [done | done | | done].
    destruct Hb as [_ Hb], Hmid as [_ Hm]. clear -Hb Hm Hlt'. clearbody mid.
    Z.div_mod_to_equations. lia. }
  destruct (last l) as [x|] eqn:Hlast.
  - destruct (ge_int x target_hires) eqn:Hge; (split; [done|]); simpl; [done|].
    intros bonus Hb Hlt'. apply Hstep; [done..|].
    intros (l' & x' & Hsim' & Hlast' & Hge'). congruence.
  - split; [done|]. simpl. intros bonus Hb Hlt'. apply Hstep; [done..|].
    intros (l' & x' & Hsim' & Hlast' & Hge'). congruence.
Qed.

(** X19. When a larger bonus never does worse, the bonus that
    [min_bonus_for_target] returns is the least of the grid that meets the
    target. *)
Theorem min_bonus_minimal (adoption_prob : Z → F) (eps : F) (b : Z) :
  (∀ b1 b2, on_grid b1 → on_grid b2 → (b1 ≤ b2)%Z →
     meets (adoption_prob b1) days target_hires →
     meets (adoption_prob b2) days target_hires) →
  min_bonus_for_target days target_hires adoption_prob eps = Some (Ok (Some b)) →
  on_grid b
  ∧ meets (adoption_prob b) days target_hires
  ∧ ∀ bonus, on_grid bonus → (bonus < b)%Z →
      ¬ meets (adoption_prob bonus) days target_hires.
Proof.
  intros Hmono. unfold min_bonus_for_target.
  destruct (decide _); [done|]. destruct (leb eps zero); [done|].
  destruct (negb _); [done|]. destruct (negb _); [done|].
  destruct (simulate_expected (adoption_prob max_bonus) days) as [lmax|]; [|done].
  destruct (match last lmax with Some final => lt_int final target_hires | None => true end);
    [done|].
  destruct (iterate (bonus_body days target_hires adoption_prob) _ _) as [[b'|e]|] eqn:Hrun;
    [|done..].
  cbn [mbind option_bind]. destruct (decide (b' ≤ max_bonus)%Z) as [_|]; [|done].
  destruct (negb _); [done|].
  destruct (simulate_expected (adoption_prob b') days) as [l|] eqn:Hsim; [|done].
  destruct (last l) as [x|] eqn:Hlast; [|done].
  destruct (ge_int x target_hires) eqn:Hge; [|done].
  intros [= <-].
  assert (on_grid b') as Hgrid.
  { refine (iterate_inv (bonus_body days target_hires adoption_prob) bonus_inv
      (λ r, match r with Ok b => on_grid b | Raise _ => True end)
      _ _ _ (Ok b') bonus_init_inv Hrun).
    intros st Hst. apply (bonus_body_grid adoption_prob st Hst). }
  split; [done|]. split; [by exists l, x|].
  refine (iterate_inv (bonus_body days target_hires adoption_prob)
    (bonus_search_inv days target_hires adoption_prob)
    (λ r, match r with
          | Ok b => ∀ bonus, on_grid bonus → (bonus < b)%Z →
                      ¬ meets (adoption_prob bonus) days target_hires
          | Raise _ => True
          end) _ _ _ (Ok b') _ Hrun).
  - intros st Hst. by apply bonus_body_search.
  - split; [apply bonus_init_inv|]. simpl. intros bonus [? _] ?. lia.
Qed.

End bonus_search.

(** ** [analyze_bonus_effectiveness] *)

Section bonus_report.
Context {F : Type} `{Arith F}.

Lemma min_bonus_returns (days target_hires : Z) (adoption_prob : Z → F) (eps : F) :
  (0 < days)%Z → (0 < target_hires)%Z → leb eps zero = false →
  (∀ bonus, valid_probability (adoption_prob bonus) = true) →
  ∃ r, min_bonus_for_target days target_hires adoption_prob eps = Some (Ok r)
       ∧ ∀ b, r = Some b → on_grid b ∧ meets (adoption_prob b) days target_hires.
Proof.
  intros Hdays Htarget Heps Hprob. unfold min_bonus_for_target.
  destruct (decide _) as [?|_]; [lia|]. rewrite Heps, !Hprob. cbn [negb].
  destruct (simulate_expected_valid (adoption_prob max_bonus) days) as [lmax ->];
    [done | lia |].
  destruct (match last lmax with Some final => lt_int final target_hires | None => true end).
  { eexists. split; [done|]. done. }
  destruct (bonus_loop_spec days target_hires adoption_prob) as (b & -> & Hmod & Hrange);
    [lia | done |].
  cbn [mbind option_bind]. destruct (decide _) as [_|?]; [|lia].
  rewrite Hprob. cbn [negb].
  destruct (simulate_expected_valid (adoption_prob b) days) as [l Hsim]; [done | lia |].
  rewrite Hsim.
  destruct (last l) as [x|] eqn:Hlast; [|by eexists].
  destruct (ge_int x target_hires) eqn:Hge; [|by eexists].
  eexists. split; [done|]. intros ? [= <-]. split; [done|]. by exists l, x.
Qed.

(** X20. The report of [analyze_bonus_effectiveness]: without days or without
    a target it says "not achievable" whatever the tolerance is; a
    tolerance that is not positive is an error otherwise; and on valid
    arguments it either says "not achievable", with four entries only, or
    gives a bonus of the grid that meets the target, as the cost per hire,
    with the total cost for the targeted hires. *)
Theorem bonus_report_entries (days target_hires : Z) (adoption_prob : Z → F) (eps : F) :
  ((days ≤ 0 ∨ target_hires ≤ 0)%Z →
     ∃ report,
       analyze_bonus_effectiveness days target_hires adoption_prob eps = Some (Ok report)
       ∧ report !! "achievable" = Some (VBool false))
  ∧ ((0 < days)%Z → (0 < target_hires)%Z → leb eps zero = true →
       analyze_bonus_effectiveness days target_hires adoption_prob eps
       = Some (Raise InvalidTolerance))
  ∧ ((0 < days)%Z → (0 < target_hires)%Z → leb eps zero = false →
       (∀ bonus, valid_probability (adoption_prob bonus) = true) →
       ∃ report,
         analyze_bonus_effectiveness days target_hires adoption_prob eps = Some (Ok report)
         ∧ ((report !! "achievable" = Some (VBool false)
             ∧ report !! "min_bonus" = Some VNone
             ∧ report !! "total_cost" = Some VNone
             ∧ report !! "cost_per_hire" = Some VNone
             ∧ report !! "days_required" = None
             ∧ report !! "target_hires" = None)
            ∨ (∃ b,
                 report !! "achievable" = Some (VBool true)
                 ∧ report !! "min_bonus" = Some (VInt b)
                 ∧ report !! "cost_per_hire" = Some (VInt b)
                 ∧ report !! "total_cost" = Some (VInt (b * target_hires))
                 ∧ report !! "days_required" = Some (VInt days)
                 ∧ report !! "target_hires" = Some (VInt target_hires)
                 ∧ on_grid b
                 ∧ meets (adoption_prob b) days target_hires))).
Proof.
  unfold analyze_bonus_effectiveness. split_and!.
  - intros Hnone. unfold min_bonus_for_target. rewrite decide_True by done.
    cbn [mbind option_bind]. eexists. split; [done|]. done.
  - intros Hdays Htarget Heps. unfold min_bonus_for_target.
    rewrite decide_False by lia. by rewrite Heps.
  - intros Hdays Htarget Heps Hprob.
    destruct (min_bonus_returns days target_hires adoption_prob eps Hdays Htarget Heps Hprob)
      as (r & -> & Hr).
    cbn [mbind option_bind]. destruct r as [b|].
    + destruct (Hr b eq_refl) as [Hgrid Hmeets]. eexists. split; [done|]. right. exists b.
      split_and!; done.
    + eexists. split; [done|]. left. split_and!; done.
Qed.

End bonus_report.

(** ** Probability 0 on binary64 numbers *)

Lemma float_nonneg_not_below (x : float) :
  PrimFloat.leb 0 x = true → PrimFloat.ltb x 0 = false.
Proof.
  rewrite leb_spec, ltb_spec.
  change (Prim2SF 0) with (S754_zero false).
  destruct (Prim2SF x) as [s|s| |s m e]; try destruct s; done.
Qed.

Section no_trial_succeeds.
Context {F : Type} `{Arith F}.
Variable draws : nat → F.
Variable p : F.
Hypothesis draws_fail : ∀ i, ltb (draws i) p = false.

Lemma simulate_referrers_fail (suf pre : list (Z * Z)) (daily : Z) (deact : list Z) (pos : nat) :
  NoDup (pre ++ suf).*1 →
  Forall (λ kv, kv.2 < max_referrals_per_referrer)%Z suf →
  for_each suf.*1 (simulate_referrer draws p) (pre ++ suf, daily, deact, pos)
  = Ok (pre ++ suf, daily, deact, pos + length suf).
Proof.
  revert pre pos. induction suf as [|[k c] suf IH]; intros pre pos Hnd Hsuf.
  { simpl. by rewrite Nat.add_0_r. }
  apply Forall_cons in Hsuf as [Hc Hsuf]. simpl in Hc.
  assert (k ∉ pre.*1) as Hfresh.
  { rewrite fmap_app in Hnd. apply NoDup_app in Hnd as (_ & Hdisj & _).
    intros Hk. apply (Hdisj k Hk). rewrite fmap_cons. by left. }
  rewrite fmap_cons. cbn [for_each fst].
  rewrite (simulate_referrer_step draws p) by done. rewrite draws_fail.
  rewrite IH; [|by rewrite <-app_assoc | done].
  rewrite <-app_assoc. simpl. repeat f_equal. lia.
Qed.

Lemma simulate_days_fail (n start pos : nat) (cum : list Z) (a : nat) :
  ∃ a', for_each (seq start n) (simulate_day draws p)
          ((λ i, (i, 0%Z)) <$> range initial_active_referrers, a, 0%Z, cum, pos)
        = Ok ((λ i, (i, 0%Z)) <$> range initial_active_referrers, a', 0%Z,
              cum ++ replicate n 0%Z, pos + initial_active_referrers * n).
Proof.
  revert start pos cum a. induction n as [|n IH]; intros start pos cum a.
  { exists a. cbn [seq for_each replicate]. by rewrite app_nil_r, Nat.mul_0_r, Nat.add_0_r. }
  assert (for_each ((λ i, (i, 0%Z)) <$> range initial_active_referrers).*1
            (simulate_referrer draws p)
            ((λ i, (i, 0%Z)) <$> range initial_active_referrers, 0%Z, [], pos)
          = Ok ((λ i, (i, 0%Z)) <$> range initial_active_referrers, 0%Z, [],
                pos + initial_active_referrers)) as Hpass.
  { rewrite <-(length_range initial_active_referrers) at 4.
    rewrite <-(length_fmap (λ i, (i, 0%Z)) (range initial_active_referrers)).
    apply (simulate_referrers_fail _ [] 0%Z [] pos).
    - rewrite app_nil_l, (fmap_fst_pair (λ _, 0%Z)). apply range_NoDup.
    - apply Forall_fmap, Forall_true. intros i. simpl. unfold max_referrals_per_referrer. lia. }
  cbn [seq for_each]. unfold simulate_day at 1. rewrite Hpass.
  cbn [deactivate foldl]. rewrite length_fmap, length_range. rewrite Z.add_0_l.
  destruct (IH (S start) (pos + initial_active_referrers) (cum ++ [0%Z])
              initial_active_referrers) as [a' ->].
  exists a'. rewrite <-app_assoc. cbn [replicate app].
  replace (pos + initial_active_referrers + initial_active_referrers * n)
    with (pos + initial_active_referrers * S n) by (unfold initial_active_referrers; lia).
  done.
Qed.

Lemma simulate_fail (pos : nat) (days : Z) :
  valid_probability p = true → (0 ≤ days)%Z →
  simulate draws pos p days
  = Ok (replicate (Z.to_nat days) 0%Z, pos + initial_active_referrers * Z.to_nat days).
Proof.
  intros Hp Hdays. unfold simulate. rewrite Hp. cbn [negb].
  destruct (decide (days < 0)%Z); [lia|].
  destruct (decide (days = 0)%Z) as [->|].
  { change (Z.to_nat 0) with 0. cbn [replicate]. by rewrite Nat.mul_0_r, Nat.add_0_r. }
  destruct (simulate_days_fail (Z.to_nat days) 0 pos [] initial_active_referrers) as [a' Hrun].
  unfold simulate_init. by rewrite Hrun.
Qed.

End no_trial_succeeds.

Lemma uniform_days_zero (n : nat) :
  uniform_days (zero : float) n (Some zero) zero = replicate n zero.
Proof.
  induction n as [|n IH]; [done|]. cbn [uniform_days replicate].
  change (ge_int (zero : float) max_referrals_per_referrer) with false.
  change (add (zero : float) zero) with (zero : float).
  assert (add (zero : float) (daily_expected zero) = zero) as -> by (vm_compute; reflexivity).
  change (ge_int (zero : float) max_referrals_per_referrer) with false. cbn iota.
  by rewrite IH.
Qed.

(** X17. At probability 0.0 no trial succeeds, whatever the draws from [0,1)
    are: [simulate] makes its 100 draws a day and returns zeros,
    [simulate_expected] returns zeros, and [days_to_target] finds every
    positive target impossible. *)
Theorem simulate_zero_probability (draws : nat → float) (pos : nat) (days : Z) :
  (0 ≤ days)%Z →
  (∀ i, leb zero (draws i) = true) →
  simulate draws pos zero days = Ok (replicate (Z.to_nat days) 0%Z, pos + 100 * Z.to_nat days)
  ∧ simulate_expected (zero : float) days = Ok (replicate (Z.to_nat days) zero)
  ∧ ∀ target_total, (0 < target_total)%Z →
      days_to_target (zero : float) target_total = Some (Ok None).
Proof.
  intros Hdays Hdraws. split_and!.
  - apply (simulate_fail draws zero); [|done..].
    intros i. apply float_nonneg_not_below, Hdraws.
  - rewrite simulate_expected_unfold by done. f_equal.
    rewrite <-uniform_days_zero.
    apply (expected_days_uniform zero (Z.to_nat days) (Some zero) zero []).
  - intros target_total Ht. unfold days_to_target. by rewrite decide_False by lia.
Qed.

(** ** The theorems on concrete inputs *)

Lemma simulate_arguments_and_length_witness :
  (valid_probability 0.25%float = false →
     simulate (λ _, 0.5%float) 0 0.25%float 3 = Raise InvalidProbability
     ∧ simulate_expected 0.25%float 3 = Raise InvalidProbability)
  ∧ (valid_probability 0.25%float = true → (3 < 0)%Z →
       simulate (λ _, 0.5%float) 0 0.25%float 3 = Raise InvalidDuration
       ∧ simulate_expected 0.25%float 3 = Raise InvalidDuration)
  ∧ (valid_probability 0.25%float = true → (0 ≤ 3)%Z →
       ∃ l pos' l',
         simulate (λ _, 0.5%float) 0 0.25%float 3 = Ok (l, pos')
         ∧ simulate_expected 0.25%float 3 = Ok l'
         ∧ length l = Z.to_nat 3 ∧ length l' = Z.to_nat 3
         ∧ (3%Z = 0%Z → pos' = 0)).
Proof.
  exact (simulate_arguments_and_length (λ _, 0.5%float) 0.25%float 0 3).
Defined.

Lemma simulate_horizon_prefix_witness :
  (∃ l l' pos1 pos2,
     simulate (λ _, 0.5%float) 0 0.25%float 2 = Ok (l, pos1)
     ∧ simulate (λ _, 0.5%float) 0 0.25%float 5 = Ok (l', pos2)
     ∧ l `prefix_of` l')
  ∧ (∃ l l',
       simulate_expected 0.25%float 2 = Ok l
       ∧ simulate_expected 0.25%float 5 = Ok l'
       ∧ l `prefix_of` l').
Proof.
  apply (simulate_horizon_prefix (λ _, 0.5%float) 0.25%float 0 2 5); [reflexivity | lia].
Defined.

Lemma simulate_within_capacity_witness :
  ∃ l pos',
    simulate (λ _, 0.125%float) 0 0.25%float 12 = Ok (l, pos')
    ∧ (∀ i x, l !! i = Some x → (0 ≤ x ≤ 1000)%Z ∧ (x ≤ 100 * Z.of_nat (S i))%Z)
    ∧ (∀ i x y, l !! i = Some x → l !! S i = Some y → (x ≤ y ≤ x + 100)%Z)
    ∧ 0 ≤ pos' ≤ 0 + 100 * Z.to_nat 12
    ∧ (∀ d, (0 ≤ d < 12)%Z →
         ∃ l1 pos1 l2 pos2,
           simulate (λ _, 0.125%float) 0 0.25%float d = Ok (l1, pos1)
           ∧ simulate (λ _, 0.125%float) 0 0.25%float (d + 1) = Ok (l2, pos2)
           ∧ pos1 ≤ pos2 ≤ pos1 + 100).
Proof.
  apply (simulate_within_capacity (λ _, 0.125%float) 0.25%float 0 12); [reflexivity | lia].
Defined.

Lemma simulate_expected_recurrence_witness :
  simulate_expected 0.25%float 45
  = Ok (uniform_days 0.25%float (Z.to_nat 45) (Some zero) zero).
Proof.
  apply (simulate_expected_recurrence 0.25%float 45); [reflexivity | lia].
Defined.

Lemma min_bonus_probes_grid_witness :
  min_bonus_for_target 10 100 step_curve 0.01%float
  = min_bonus_for_target 10 100
      (λ bonus, if decide (bonus = 7%Z) then 0.875%float else step_curve bonus) 0.01%float.
Proof.
  apply (min_bonus_probes_grid 10 100 step_curve
           (λ bonus, if decide (bonus = 7%Z) then 0.875%float else step_curve bonus)
           0.01%float).
  intros bonus [_ Hgrid]. destruct (decide (bonus = 7%Z)) as [->|]; [|reflexivity].
  vm_compute in Hgrid. discriminate Hgrid.
Defined.

Lemma step_curve_monotone (b1 b2 : Z) :
  (b1 ≤ b2)%Z → meets (step_curve b1) 10 100 → meets (step_curve b2) 10 100.
Proof.
  intros Hle. unfold step_curve.
  destruct (decide (b2 < 205)%Z); [by rewrite decide_True by lia|].
  intros _. apply meetsb_meets. vm_compute. reflexivity.
Qed.

Lemma min_bonus_minimal_witness :
  on_grid 210
  ∧ meets (step_curve 210) 10 100
  ∧ ∀ bonus, on_grid bonus → (bonus < 210)%Z → ¬ meets (step_curve bonus) 10 100.
Proof.
  apply (min_bonus_minimal 10 100 step_curve 0.01%float 210).
  - intros b1 b2 _ _. apply step_curve_monotone.
  - vm_compute. reflexivity.
Defined.

Lemma bonus_report_entries_witness :
  ((10 ≤ 0 ∨ 100 ≤ 0)%Z →
     ∃ report,
       analyze_bonus_effectiveness 10 100 step_curve 0.01%float = Some (Ok report)
       ∧ report !! "achievable" = Some (VBool false))
  ∧ ((0 < 10)%Z → (0 < 100)%Z → leb 0.01%float zero = true →
       analyze_bonus_effectiveness 10 100 step_curve 0.01%float
       = Some (Raise InvalidTolerance))
  ∧ ((0 < 10)%Z → (0 < 100)%Z → leb 0.01%float zero = false →
       (∀ bonus, valid_probability (step_curve bonus) = true) →
       ∃ report,
         analyze_bonus_effectiveness 10 100 step_curve 0.01%float = Some (Ok report)
         ∧ ((report !! "achievable" = Some (VBool false)
             ∧ report !! "min_bonus" = Some VNone
             ∧ report !! "total_cost" = Some VNone
             ∧ report !! "cost_per_hire" = Some VNone
             ∧ report !! "days_required" = None
             ∧ report !! "target_hires" = None)
            ∨ (∃ b,
                 report !! "achievable" = Some (VBool true)
                 ∧ report !! "min_bonus" = Some (VInt b)
                 ∧ report !! "cost_per_hire" = Some (VInt b)
                 ∧ report !! "total_cost" = Some (VInt (b * 100))
                 ∧ report !! "days_required" = Some (VInt 10)
                 ∧ report !! "target_hires" = Some (VInt 100)
                 ∧ on_grid b
                 ∧ meets (step_curve b) 10 100))).
Proof.
  exact (bonus_report_entries 10 100 step_curve 0.01%float).
Defined.

Lemma simulate_zero_probability_witness :
  simulate (λ _, 0.5%float) 0 zero 3 = Ok (replicate (Z.to_nat 3) 0%Z, 0 + 100 * Z.to_nat 3)
  ∧ simulate_expected (zero : float) 3 = Ok (replicate (Z.to_nat 3) zero)
  ∧ ∀ target_total, (0 < target_total)%Z →
      days_to_target (zero : float) target_total = Some (Ok None).
Proof.
  apply (simulate_zero_probability (λ _, 0.5%float) 0 3); [lia | intros i; reflexivity].
Defined.
